(** * daf_butler: the hierarchical configuration engine

    A shallow embedding of [lsst/daf/butler/core/config.py] (classes
    [Config] and [ConfigSubset]) and the properties of its key-path
    parser, nested store, include resolver, defaults composer and
    validator.

    Conventions of the embedding.
    - A Python [str] is a list of Unicode code points ([char := N]);
      [py "..."] injects an ASCII literal.
    - A document is a tree ([value]); a mapping is an association list in
      insertion order, with keys that are strings or integers.  The code
      mutates mappings and lists in place; the embedding rebuilds the tree
      along the path that was walked, which agrees with the code as long as
      no container object occurs at two places of one document.
    - A raised exception is [Err e] and ends the operation; what an
      operation that raised has already changed is not kept.  The depth
      bound of the recursive constructors stands for Python's recursion
      limit ([RecursionError]).
    - [Config._data] is a mapping.  The two places where the code can store
      something else there (a YAML file whose root is not a mapping, a
      component that selects a non-mapping) yield the outcome [Unmodelled].
    - The builtins [str.isalnum] and [int] (on strings) and the services of
      [os], [yaml] (with the [!include] tag of [Loader]), [boto3] and
      [lsst.utils] are parameters of the development ([Host]).  The values
      of a document are [None], booleans, integers, strings, lists and
      mappings. *)

From Stdlib Require Import ZArith NArith String Ascii Bool Lia DecimalString
  Permutation List.
Import ListNotations.
Local Open Scope list_scope.
Set Warnings "-register-all".

(** ** Python values *)

Definition char := N.
Definition str := list char.

Definition py (s : string) : str :=
  map (fun a => N_of_ascii a) (list_ascii_of_string s).

Definition backslash : char := 92%N.
Definition carriage_return : char := 13%N.

Inductive key :=
| KStr (s : str)
| KInt (z : Z).

Inductive value :=
| VNone
| VBool (b : bool)
| VInt (z : Z)
| VStr (s : str)
| VList (l : list value)
| VDict (d : list (key * value)).

Definition dict := list (key * value).

Inductive exn :=
| KeyError
| MissingKeys (missing : list key)   (* the KeyError of [validate] *)
| IndexError
| TypeError
| ValueError
| RuntimeError
| AttributeError
| FileNotFoundError
| RecursionError
| Unmodelled.

Inductive result (A : Type) :=
| Ok (a : A)
| Err (e : exn).
Arguments Ok {A} a.
Arguments Err {A} e.

Definition bind {A B} (r : result A) (f : A -> result B) : result B :=
  match r with
  | Ok a => f a
  | Err e => Err e
  end.

Notation "x <- r ;; k" := (bind r (fun x => k))
  (at level 61, r at next level, right associativity).
Notation "' p <- r ;; k" := (bind r (fun x => let p := x in k))
  (at level 61, p pattern, r at next level, right associativity).

(** ** Strings *)

Definition str_eqb (a b : str) : bool :=
  if list_eq_dec N.eq_dec a b then true else false.

Definition key_eqb (a b : key) : bool :=
  match a, b with
  | KStr s, KStr t => str_eqb s t
  | KInt x, KInt y => Z.eqb x y
  | _, _ => false
  end.

(** [s.startswith(p)] *)
Fixpoint startswith (p s : str) : bool :=
  match p, s with
  | [], _ => true
  | _ :: _, [] => false
  | a :: p', b :: s' => N.eqb a b && startswith p' s'
  end.

(** [s.endswith(p)] *)
Definition endswith (p s : str) : bool := startswith (rev p) (rev s).

(** [sub in s] for strings *)
Fixpoint str_in (sub s : str) : bool :=
  startswith sub s ||
  match s with
  | [] => false
  | _ :: t => str_in sub t
  end.

(** [s.replace(old, new)]: left to right, occurrences do not overlap.
    [skip] counts the characters of a match that are still to be dropped. *)
Fixpoint replace_from (old new : str) (skip : nat) (s : str) : str :=
  match s with
  | [] => []
  | c :: t =>
      match skip with
      | S n => replace_from old new n t
      | O => if startswith old s
             then new ++ replace_from old new (length old - 1) t
             else c :: replace_from old new O t
      end
  end.

Definition replace (old new s : str) : str :=
  match old with
  | [] => new ++ flat_map (fun c => c :: new) s
  | _ => replace_from old new 0 s
  end.

(** [s.split(d)] for a one-character separator *)
Fixpoint split (d : char) (s : str) : list str :=
  match s with
  | [] => [[]]
  | c :: t =>
      if N.eqb c d then [] :: split d t
      else match split d t with
           | h :: r => (c :: h) :: r
           | [] => [[c]]
           end
  end.

(** [d.join(l)] *)
Fixpoint join (d : str) (l : list str) : str :=
  match l with
  | [] => []
  | [s] => s
  | s :: t => s ++ d ++ join d t
  end.

(** [str(z)] for an integer *)
Definition str_of_Z (z : Z) : str := py (NilZero.string_of_int (Z.to_int z)).

(** [str(k)] for a key segment *)
Definition str_of_key (k : key) : str :=
  match k with
  | KStr s => s
  | KInt z => str_of_Z z
  end.

(** ** Lists and mappings *)

(** [l[i]] with Python's negative indices; [None] is [IndexError]. *)
Definition norm_index {A} (l : list A) (i : Z) : option nat :=
  let n := Z.of_nat (length l) in
  let j := if (i <? 0)%Z then (i + n)%Z else i in
  if ((0 <=? j) && (j <? n))%Z then Some (Z.to_nat j) else None.

Definition list_index {A} (l : list A) (i : Z) : option A :=
  match norm_index l i with
  | Some n => nth_error l n
  | None => None
  end.

Fixpoint set_nth {A} (l : list A) (n : nat) (x : A) : list A :=
  match l, n with
  | [], _ => []
  | _ :: t, O => x :: t
  | a :: t, S m => a :: set_nth t m x
  end.

Fixpoint del_nth {A} (l : list A) (n : nat) : list A :=
  match l, n with
  | [], _ => []
  | _ :: t, O => t
  | a :: t, S m => a :: del_nth t m
  end.

(** [l[i] = x] *)
Definition list_assign {A} (l : list A) (i : Z) (x : A) : option (list A) :=
  match norm_index l i with
  | Some n => Some (set_nth l n x)
  | None => None
  end.

(** [del l[i]] *)
Definition list_delete {A} (l : list A) (i : Z) : option (list A) :=
  match norm_index l i with
  | Some n => Some (del_nth l n)
  | None => None
  end.

(** [d.get(k)] *)
Fixpoint dict_get (d : dict) (k : key) : option value :=
  match d with
  | [] => None
  | (k', v) :: t => if key_eqb k' k then Some v else dict_get t k
  end.

(** [k in d] *)
Definition dict_mem (d : dict) (k : key) : bool :=
  match dict_get d k with
  | Some _ => true
  | None => false
  end.

(** [d[k] = v]: an existing key keeps its position, a new one goes last. *)
Fixpoint dict_set (d : dict) (k : key) (v : value) : dict :=
  match d with
  | [] => [(k, v)]
  | (k', v') :: t =>
      if key_eqb k' k then (k', v) :: t else (k', v') :: dict_set t k v
  end.

(** [del d[k]] on a key that is present *)
Fixpoint dict_remove (d : dict) (k : key) : dict :=
  match d with
  | [] => []
  | (k', v') :: t =>
      if key_eqb k' k then t else (k', v') :: dict_remove t k
  end.

Definition dict_keys (d : dict) : list key := map fst d.

(** [k == v] between a key segment and a document value ([True == 1]). *)
Definition key_eq_value (k : key) (v : value) : bool :=
  match k, v with
  | KStr s, VStr t => str_eqb s t
  | KInt z, VInt y => Z.eqb z y
  | KInt z, VBool b => Z.eqb z (if b then 1 else 0)
  | _, _ => false
  end.

(** [k in l] for a list: equality with some element *)
Definition key_in_list (k : key) (l : list value) : bool :=
  existsb (key_eq_value k) l.

(** The invariant of documents: keys are unique within every mapping. *)
Fixpoint unique_keys (v : value) : Prop :=
  match v with
  | VDict m =>
      NoDup (dict_keys m) /\
      (fix all (m : dict) : Prop :=
         match m with
         | [] => True
         | (_, x) :: t => unique_keys x /\ all t
         end) m
  | VList l =>
      (fix all (l : list value) : Prop :=
         match l with
         | [] => True
         | x :: t => unique_keys x /\ all t
         end) l
  | _ => True
  end.

(** The number of nodes of a document *)
Fixpoint value_size (v : value) : nat :=
  match v with
  | VDict m =>
      S ((fix sum (m : dict) : nat :=
            match m with
            | [] => 0
            | (_, x) :: t => value_size x + sum t
            end) m)
  | VList l =>
      S ((fix sum (l : list value) : nat :=
            match l with
            | [] => 0
            | x :: t => value_size x + sum t
            end) l)
  | _ => 1
  end.

(** ** The host: builtins and services the module calls but does not define *)

(** What [doImport] finds in the class named by the [cls] entry. *)
Record ClassInfo := {
  cls_defaultConfigFile : option (option str); (* [None]: no such attribute *)
  cls_containerKey : option key                (* [None]: no such attribute *)
}.

Class Host := {
  isalnum : char -> bool;          (* [c.isalnum()] for one character *)
  int_of_str : str -> option Z;    (* [int(s)]; [None] is [ValueError] *)
  path_isabs : str -> bool;        (* [os.path.isabs] *)
  path_join : str -> str -> str;   (* [os.path.join] *)
  path_exists : str -> bool;       (* [os.path.exists] *)
  path_abspath : str -> str;       (* [os.path.abspath] *)
  path_normpath : str -> str;      (* [os.path.normpath] *)
  path_dirname : str -> str;       (* [os.path.dirname] *)
  path_curdir : str;               (* [os.path.curdir] *)
  path_pathsep : char;             (* [os.pathsep] *)
  yaml_load : str -> option value; (* [open(path)] then [yaml.load(f, Loader)];
                                      [None]: the file cannot be opened *)
  s3_load : str -> option value;   (* the object behind an [s3://] path *)
  environ_CONFIG_PATH : option str;(* [os.environ] at [CONFIG_PATH] *)
  packageConfigDir : str;          (* [join(getPackageDir("daf_butler"), "config")] *)
  doImport : str -> option ClassInfo (* [None] is [ImportError] *)
}.

(** ** class Config *)

Record Config := {
  _data : dict;
  _D : char;
  configFile : option str
}.

(** [Config._D], the default internal delimiter (U+2192) *)
Definition Config_D : char := 8594%N.

(** [Config.includeKey] *)
Definition includeKey : key := KStr (py "includeConfigs").

(** [Config()] *)
Definition Config_empty : Config :=
  {| _data := []; _D := Config_D; configFile := None |}.

(** What [__getitem__] hands out and [__setitem__] takes: a [Config] or a
    plain value. *)
Inductive item :=
| IConfig (c : Config)
| IVal (v : value).

(** The argument of [__getitem__] and friends: a scalar or a tuple. *)
Inductive name :=
| NKey (k : key)
| NTuple (ks : list key).

(** *** update *)

(** [doUpdate(d, u)] of [Config.update].  A [Config] met as [u] or as one
    of its values is read through its items, which are the items of its
    mapping; it is represented here by that mapping. *)
Fixpoint doUpdate (d u : value) {struct u} : result value :=
  match u, d with
  | VDict um, VDict dm =>
      (fix loop (um : dict) (dm : dict) {struct um} : result value :=
         match um with
         | [] => Ok (VDict dm)
         | (k, v) :: rest =>
             match v with
             | VDict _ =>
                 r <- doUpdate (match dict_get dm k with
                                | Some x => x
                                | None => VDict []
                                end) v ;;
                 loop rest (dict_set dm k r)
             | _ => loop rest (dict_set dm k v)
             end
         end) um dm
  | _, _ => Err RuntimeError
  end.

(** The [for] loop of [doUpdate], as a function of its own: what the
    loop makes of [dm] for the items [um]. *)
Fixpoint update_items (um : dict) (dm : dict) : result value :=
  match um with
  | [] => Ok (VDict dm)
  | (k, v) :: rest =>
      match v with
      | VDict _ =>
          r <- doUpdate (match dict_get dm k with
                         | Some x => x
                         | None => VDict []
                         end) v ;;
          update_items rest (dict_set dm k r)
      | _ => update_items rest (dict_set dm k v)
      end
  end.

(** [self.update(other)] *)
Definition update (self : Config) (other : dict) : result Config :=
  r <- doUpdate (VDict (_data self)) (VDict other) ;;
  match r with
  | VDict m => Ok {| _data := m; _D := _D self; configFile := configFile self |}
  | _ => Err RuntimeError
  end.

(** The [other] of [merge]: a plain [dict] or a [Config]. *)
Inductive mapping :=
| MDict (d : dict)
| MConfig (c : Config).

(** [self.merge(other)].  For a plain [dict] the copy is a [dict]: its
    [update] is [dict.update], and reading [otherCopy._data] raises
    [AttributeError] before [self] is touched. *)
Definition merge (self : Config) (other : mapping) : result Config :=
  match other with
  | MConfig o =>
      otherCopy <- update o (_data self) ;;
      Ok {| _data := _data otherCopy; _D := _D self; configFile := configFile self |}
  | MDict _ => Err AttributeError
  end.

Section WithHost.
Context {H : Host}.

(** *** Key paths *)

(** [int(k)] for a key segment *)
Definition int_of_key (k : key) : option Z :=
  match k with
  | KInt z => Some z
  | KStr s => int_of_str s
  end.

(** [Config._splitIntoKeys(key)] *)
Definition splitIntoKeys (n : name) : result (list key) :=
  match n with
  | NKey (KStr s) =>
      match s with
      | [] => Err IndexError
      | d :: rest =>
          if isalnum d then Ok [KStr s]
          else
            let escaped := [backslash; d] in
            if str_in escaped rest then
              let doubled := backslash :: escaped in
              if str_in doubled rest then Err ValueError
              else
                let temp := [carriage_return] in
                if str_in temp rest || N.eqb d carriage_return
                then Err ValueError
                else
                  let hierarchy := split d (replace escaped temp rest) in
                  Ok (map (fun h => KStr (replace temp [d] h)) hierarchy)
            else Ok (map KStr (split d rest))
      end
  | NTuple ks => Ok ks
  | NKey k => Ok [k]
  end.

(** [name in self._data] for the mapping [self._data]: a tuple is never
    one of its keys. *)
Definition in_data (c : Config) (n : name) : bool :=
  match n with
  | NKey k => dict_mem (_data c) k
  | NTuple _ => false
  end.

(** [self._getKeyHierarchy(name)] *)
Definition getKeyHierarchy (c : Config) (n : name) : result (list key) :=
  match n with
  | NKey k => if in_data c n then Ok [k] else splitIntoKeys n
  | NTuple _ => splitIntoKeys n
  end.

(** *** Descent *)

(** [checkNextItem(k, d, create)]: the node [d] (with the empty mapping
    inserted when [create] applies), the child and [isThere]. *)
Definition checkNextItem (k : key) (d : value) (create : bool)
  : result (value * value * bool) :=
  match d with
  | VNone => Ok (d, VNone, false)
  | VList l =>
      match int_of_key k with
      | Some i =>
          match list_index l i with
          | Some x => Ok (d, x, true)
          | None => Ok (d, VNone, false)
          end
      | None => Ok (d, VNone, key_in_list k l)
      end
  | VStr s =>
      match int_of_key k with
      | Some i =>
          match list_index s i with
          | Some x => Ok (d, VStr [x], true)
          | None => Ok (d, VNone, false)
          end
      | None =>
          match k with
          | KStr t => Ok (d, VNone, str_in t s)
          | KInt _ => Err TypeError
          end
      end
  | VDict m =>
      match dict_get m k with
      | Some x => Ok (d, x, true)
      | None =>
          if create then Ok (VDict (dict_set m k (VDict [])), VDict [], true)
          else Ok (d, VNone, false)
      end
  | VBool _ | VInt _ => Err TypeError
  end.

(** [self._findInHierarchy(keys)] with [create=False], from the node [d] *)
Fixpoint findInHierarchy (d : value) (keys : list key)
  : result (list value * bool) :=
  match keys with
  | [] => Ok ([], true)
  | k :: ks =>
      '(_, nextVal, isThere) <- checkNextItem k d false ;;
      if isThere then
        '(hierarchy, complete) <- findInHierarchy nextVal ks ;;
        Ok (nextVal :: hierarchy, complete)
      else Ok ([], false)
  end.

(** The node that the keys lead to from [d]: [hierarchy[-1]] of a complete
    descent, [d] itself for no keys. *)
Fixpoint node_at (d : value) (keys : list key) : result value :=
  match keys with
  | [] => Ok d
  | k :: ks =>
      '(_, nextVal, isThere) <- checkNextItem k d false ;;
      if isThere then node_at nextVal ks else Err KeyError
  end.

(** [Config(data)] for a plain mapping [data] *)
Definition Config_of_dict (D : char) (m : dict) : result Config :=
  update {| _data := []; _D := D; configFile := None |} m.

(** The end of [__getitem__]: a mapping is wrapped in a new [Config] that
    inherits the delimiter. *)
Definition wrap (self : Config) (v : value) : result item :=
  match v with
  | VDict m => c <- Config_of_dict (_D self) m ;; Ok (IConfig c)
  | _ => Ok (IVal v)
  end.

(** [hierarchy[-1]] *)
Definition last_of (hierarchy : list value) : result value :=
  match rev hierarchy with
  | x :: _ => Ok x
  | [] => Err IndexError
  end.

(** [self[name]] *)
Definition getitem (self : Config) (n : name) : result item :=
  keys <- getKeyHierarchy self n ;;
  '(hierarchy, complete) <- findInHierarchy (VDict (_data self)) keys ;;
  if complete then
    data <- last_of hierarchy ;;
    wrap self data
  else Err KeyError.

(** [name in self] *)
Definition contains (self : Config) (n : name) : result bool :=
  keys <- getKeyHierarchy self n ;;
  '(_, complete) <- findInHierarchy (VDict (_data self)) keys ;;
  Ok complete.

(** [keys.pop()] *)
Definition pop (keys : list key) : result (list key * key) :=
  match rev keys with
  | last :: r => Ok (rev r, last)
  | [] => Err IndexError
  end.

(** Puts the child that was walked into back under [k]; only mappings and
    lists have children that can change. *)
Definition put_child (d : value) (k : key) (child : value) : value :=
  match d with
  | VDict m => VDict (dict_set m k child)
  | VList l =>
      match int_of_key k with
      | Some i =>
          match list_assign l i child with
          | Some l' => VList l'
          | None => d
          end
      | None => d
      end
  | _ => d
  end.

(** The end of [__setitem__]: [data[last] = value], and on [TypeError]
    [data[int(last)] = value]. *)
Definition assign (data : value) (last : key) (v : value) : result value :=
  match data with
  | VDict m => Ok (VDict (dict_set m last v))
  | VList l =>
      match last with
      | KInt i =>
          match list_assign l i v with
          | Some l' => Ok (VList l')
          | None => Err IndexError
          end
      | KStr s =>
          match int_of_str s with
          | Some i =>
              match list_assign l i v with
              | Some l' => Ok (VList l')
              | None => Err IndexError
              end
          | None => Err ValueError
          end
      end
  | _ =>
      match int_of_key last with
      | Some _ => Err TypeError
      | None => Err ValueError
      end
  end.

(** The body of [__setitem__] below [keys.pop()]: the descent of
    [_findInHierarchy(keys, create=True)] and the assignment to the node
    where it stopped ([hierarchy[-1]], or [self._data] when nothing was
    found), done in one pass because the assignment changes that node in
    place.  The flag is [complete], which [__setitem__] does not read. *)
Fixpoint set_walk (d : value) (keys : list key) (last : key) (v : value)
  : result (value * bool) :=
  match keys with
  | [] => d' <- assign d last v ;; Ok (d', true)
  | k :: ks =>
      '(d1, nextVal, isThere) <- checkNextItem k d true ;;
      if isThere then
        '(child, complete) <- set_walk nextVal ks last v ;;
        Ok (put_child d1 k child, complete)
      else
        d' <- assign d1 last v ;; Ok (d', false)
  end.

(** [isinstance(value, Config)]: the mapping is stored, not the wrapper. *)
Definition stored (v : item) : value :=
  match v with
  | IConfig c => VDict (_data c)
  | IVal x => x
  end.

Definition with_data (self : Config) (d : value) : result Config :=
  match d with
  | VDict m => Ok {| _data := m; _D := _D self; configFile := configFile self |}
  | _ => Err Unmodelled
  end.

(** [self[name] = value], with the [complete] flag of the descent *)
Definition setitem_flag (self : Config) (n : name) (v : item)
  : result (Config * bool) :=
  keys <- getKeyHierarchy self n ;;
  '(keys, last) <- pop keys ;;
  '(d, complete) <- set_walk (VDict (_data self)) keys last (stored v) ;;
  c <- with_data self d ;;
  Ok (c, complete).

(** [self[name] = value] *)
Definition setitem (self : Config) (n : name) (v : item) : result Config :=
  '(c, _) <- setitem_flag self n v ;; Ok c.

(** [del data[last]] *)
Definition delete (data : value) (last : key) : result value :=
  match data with
  | VDict m => if dict_mem m last then Ok (VDict (dict_remove m last))
               else Err KeyError
  | VList l =>
      match last with
      | KInt i =>
          match list_delete l i with
          | Some l' => Ok (VList l')
          | None => Err IndexError
          end
      | KStr _ => Err TypeError
      end
  | _ => Err TypeError
  end.

(** The body of [__delitem__] below [keys.pop()]: the descent with
    [create=False], [KeyError] unless it is complete, then the deletion in
    the node that was reached. *)
Fixpoint del_walk (d : value) (keys : list key) (last : key) : result value :=
  match keys with
  | [] => delete d last
  | k :: ks =>
      '(_, nextVal, isThere) <- checkNextItem k d false ;;
      if isThere then
        child <- del_walk nextVal ks last ;;
        Ok (put_child d k child)
      else Err KeyError
  end.

(** [del self[key]] *)
Definition delitem (self : Config) (n : name) : result Config :=
  keys <- getKeyHierarchy self n ;;
  '(keys, last) <- pop keys ;;
  d <- del_walk (VDict (_data self)) keys last ;;
  with_data self d.

(** *** Names *)

(** [getKeysAsTuples(d, keys, base)] of [nameTuples]; [base] is the empty
    list for [None].  The result is what the call appends to [keys]. *)
Fixpoint getKeysAsTuples (d : value) (base : list key) {struct d}
  : list (list key) :=
  match d with
  | VDict m =>
      (fix items (m : dict) : list (list key) :=
         match m with
         | [] => []
         | (k, val) :: t =>
             let levelKey := base ++ [k] in
             levelKey ::
             match val with
             | VDict _ | VList _ => getKeysAsTuples val levelKey
             | _ => []
             end ++ items t
         end) m
  | VList l =>
      (fix elems (l : list value) (i : Z) : list (list key) :=
         match l with
         | [] => []
         | val :: t =>
             let levelKey := base ++ [KInt i] in
             levelKey ::
             match val with
             | VDict _ | VList _ => getKeysAsTuples val levelKey
             | _ => []
             end ++ elems t (i + 1)%Z
         end) l 0%Z
  | _ => []
  end.

(** [self.nameTuples(topLevelOnly)] *)
Definition nameTuples (self : Config) (topLevelOnly : bool) : list (list key) :=
  if topLevelOnly then map (fun k => [k]) (dict_keys (_data self))
  else getKeysAsTuples (VDict (_data self)) [].

(** [s.isalnum()] *)
Definition str_isalnum (s : str) : bool :=
  match s with
  | [] => false
  | _ => forallb isalnum s
  end.

(** The inner loop of [names]: [chr(ord(delimiter)+1)] until the
    character is not alphanumeric; [chr] raises [ValueError] beyond
    U+10FFFF.  [n] bounds the code points left. *)
Fixpoint next_delimiter (n : nat) (delimiter : char) : result char :=
  match n with
  | O => Err ValueError
  | S n' =>
      let delimiter := (delimiter + 1)%N in
      if (1114111 <? delimiter)%N then Err ValueError
      else if isalnum delimiter then next_delimiter n' delimiter
      else Ok delimiter
  end.

Definition advance (delimiter : char) : result char :=
  next_delimiter (N.to_nat (1114112 - delimiter)) delimiter.

(** The outer loop of [names]; [budget] is [100 - ntries]. *)
Fixpoint choose_delimiter (budget : nat) (delimiter : char) (combined : str)
  : result char :=
  if str_in [delimiter] combined then
    match budget with
    | O => Err ValueError
    | S b =>
        d <- advance delimiter ;;
        choose_delimiter b d combined
    end
  else Ok delimiter.

(** The candidate that the outer loop tests in its round [i] *)
Fixpoint nth_candidate (i : nat) (delimiter : char) : result char :=
  match i with
  | O => Ok delimiter
  | S j => d <- advance delimiter ;; nth_candidate j d
  end.

(** The big string of [names]: every segment of every tuple *)
Definition combined_of (tuples : list (list key)) : str :=
  concat (map (fun k => concat (map str_of_key k)) tuples).

(** One name: the segments, escaped and joined, after the delimiter *)
Definition render (delimiter : str) (k : list key) : str :=
  delimiter ++
  join delimiter
    (map (fun s => replace delimiter (backslash :: delimiter) (str_of_key s)) k).

(** [self.names(topLevelOnly, delimiter)] *)
Definition names (self : Config) (topLevelOnly : bool) (delimiter : option str)
  : result (list key) :=
  if topLevelOnly then Ok (dict_keys (_data self))
  else
    let tuples := nameTuples self false in
    match delimiter with
    | Some d =>
        if str_isalnum d then Err ValueError
        else Ok (map (fun k => KStr (render d k)) tuples)
    | None =>
        d <- choose_delimiter 100 (_D self) (combined_of tuples) ;;
        Ok (map (fun k => KStr (render [d] k)) tuples)
    end.

(** *** Files and includes *)

(** [__initFromYaml]: an empty document is the empty mapping. *)
Definition initFromYaml (content : value) : result dict :=
  match content with
  | VNone => Ok []
  | VDict m => Ok m
  | _ => Err Unmodelled
  end.

(** [__initFromFile(path)] on a new [Config] *)
Definition initFromFile (path : str) : result Config :=
  if endswith (py "yaml") path then
    if startswith (py "s3://") path then
      match s3_load path with
      | None => Err FileNotFoundError
      | Some (VDict confDict) => update Config_empty confDict
      | Some _ => Err RuntimeError
      end
    else
      match yaml_load path with
      | None => Err FileNotFoundError
      | Some content =>
          m <- initFromYaml content ;;
          Ok {| _data := m; _D := Config_D; configFile := Some path |}
      end
  else Err RuntimeError.

(** The search for one include: [found], or [None]. *)
Fixpoint find_in_dirs (searchPaths : list str) (fileName : str) : option str :=
  match searchPaths with
  | [] => None
  | dir :: rest =>
      let filePath := path_join dir fileName in
      if path_exists filePath then Some (path_normpath (path_abspath filePath))
      else find_in_dirs rest fileName
  end.

Definition find_include (searchPaths : list str) (fileName : str) : result str :=
  match (if path_isabs fileName then Some fileName
         else find_in_dirs searchPaths fileName) with
  | Some (c :: f) => Ok (c :: f)
  | _ => Err RuntimeError
  end.

(** The loop that reads the included files; [load] is [type(self)(found)]. *)
Fixpoint read_includes (load : str -> result Config) (searchPaths : list str)
  (includes : list value) : result (list Config) :=
  match includes with
  | [] => Ok []
  | VStr fileName :: rest =>
      found <- find_include searchPaths fileName ;;
      c <- load found ;;
      cs <- read_includes load searchPaths rest ;;
      Ok (c :: cs)
  | _ :: _ => Err TypeError
  end.

(** [for sc in subConfigs: newConfig.update(sc)] *)
Fixpoint update_all (newConfig : Config) (subConfigs : list Config)
  : result Config :=
  match subConfigs with
  | [] => Ok newConfig
  | sc :: rest =>
      c <- update newConfig (_data sc) ;;
      update_all c rest
  end.

(** [path[-1] == self.includeKey] *)
Definition is_include (path : list key) : bool :=
  match rev path with
  | k :: _ => key_eqb k includeKey
  | [] => false
  end.

(** A segment that is not a [str]; [self._D.join(path)] in the debug
    message of the loop raises [TypeError] when [path] has one. *)
Definition is_index (k : key) : bool :=
  match k with
  | KInt _ => true
  | KStr _ => false
  end.

(** The body of the loop of [_processExplicitIncludes] *)
Definition process_include (load : str -> result Config)
  (searchPaths : list str) (self : Config) (path : list key) : result Config :=
  if is_include path then
    if existsb is_index path then Err TypeError
    else
    let basePath := removelast path in
    includes <- getitem self (NTuple path) ;;
    self <- delitem self (NTuple path) ;;
    let includes :=
      match includes with
      | IVal (VList l) => l
      | IVal v => [v]
      | IConfig c => [VDict (_data c)]
      end in
    subConfigs <- read_includes load searchPaths includes ;;
    match subConfigs with
    | [] => Err IndexError
    | newConfig :: subConfigs =>
        newConfig <- update_all newConfig subConfigs ;;
        match basePath with
        | [] =>
            newConfig <- update newConfig (_data self) ;;
            Ok {| _data := _data newConfig; _D := _D self;
                  configFile := configFile self |}
        | _ =>
            base <- getitem self (NTuple basePath) ;;
            match base with
            | IConfig b =>
                newConfig <- update newConfig (_data b) ;;
                setitem self (NTuple basePath) (IConfig newConfig)
            | IVal _ => Err RuntimeError
            end
        end
    end
  else Ok self.

Fixpoint for_each {A S} (f : S -> A -> result S) (l : list A) (s : S)
  : result S :=
  match l with
  | [] => Ok s
  | a :: t => s' <- f s a ;; for_each f t s'
  end.

(** [self._processExplicitIncludes()] *)
Definition processExplicitIncludes (load : str -> result Config) (self : Config)
  : result Config :=
  let searchPaths :=
    path_curdir ::
    match configFile self with
    | Some f => [path_abspath (path_dirname f)]
    | None => []
    end in
  for_each (process_include load searchPaths) (nameTuples self false) self.

(** [Config(path)] for a file path; [fuel] bounds the nesting of includes. *)
Fixpoint Config_fromFile (fuel : nat) (path : str) : result Config :=
  match fuel with
  | O => Err RecursionError
  | S f =>
      c <- initFromFile path ;;
      processExplicitIncludes (Config_fromFile f) c
  end.

(** The [other] of the constructors *)
Inductive source :=
| SNone
| SConfig (c : Config)
| SMapping (d : dict)
| SPath (path : str)
| SOther.

(** [Config(other)] *)
Definition Config_init (fuel : nat) (other : source) : result Config :=
  match other with
  | SNone => Ok Config_empty
  | SConfig c => Ok {| _data := _data c; _D := Config_D; configFile := None |}
  | SMapping d => update Config_empty d
  | SPath path => Config_fromFile fuel path
  | SOther => Err RuntimeError
  end.

(** ** class ConfigSubset *)

(** The class attributes of a subclass *)
Record SubsetClass := {
  component : option key;
  requiredKeys : list key;
  defaultConfigFile : option str
}.

Record ConfigSubset := {
  config : Config;
  filesRead : list str
}.

(** [ConfigSubset.defaultSearchPaths()] *)
Definition defaultSearchPaths : list str :=
  match environ_CONFIG_PATH with
  | Some externalPaths => split path_pathsep externalPaths
  | None => []
  end ++ [packageConfigDir].

(** [self.validate()] *)
Definition validate (cls : SubsetClass) (self : ConfigSubset)
  : result ConfigSubset :=
  let missing :=
    filter (fun k => negb (dict_mem (_data (config self)) k)) (requiredKeys cls) in
  match missing with
  | [] => Ok self
  | _ => Err (MissingKeys missing)
  end.

(** [self._updateWithOtherConfigFile(file)]; [make] is
    [type(self)(file, validate=False, mergeDefaults=False)]. *)
Definition updateWithOtherConfigFile (make : str -> result ConfigSubset)
  (self : ConfigSubset) (file : str) : result ConfigSubset :=
  externalConfig <- make file ;;
  c <- update (config self) (_data (config externalConfig)) ;;
  Ok {| config := c; filesRead := filesRead self |}.

(** [self._updateWithConfigsFromPath(searchPaths, configFile)] *)
Definition updateWithConfigsFromPath (make : str -> result ConfigSubset)
  (self : ConfigSubset) (searchPaths : list str) (configFile : str)
  : result ConfigSubset :=
  let read self file :=
    updateWithOtherConfigFile make
      {| config := config self; filesRead := filesRead self ++ [file] |} file in
  if path_isabs configFile then
    if path_exists configFile then read self configFile else Ok self
  else
    for_each
      (fun self pathDir =>
         let file := path_join pathDir configFile in
         if path_exists file then read self file else Ok self)
      (rev searchPaths) self.

(** The element of a container as the [other] of a constructor *)
Definition source_of_value (v : value) : source :=
  match v with
  | VNone => SNone
  | VDict m => SMapping m
  | VStr path => SPath path
  | _ => SOther
  end.

(** What [enumerate(self[containerKey])] runs over *)
Definition elements_of (x : item) : result (list value) :=
  match x with
  | IVal (VList l) => Ok l
  | IVal (VStr s) => Ok (map (fun c => VStr [c]) s)
  | IVal _ => Err TypeError
  | IConfig c =>
      Ok (map (fun k => match k with
                        | KStr s => VStr s
                        | KInt z => VInt z
                        end) (dict_keys (_data c)))
  end.

(** The selection of the component in [ConfigSubset.__init__] *)
Definition select_component (cls : SubsetClass) (externalConfig : Config)
  : result Config :=
  match component cls with
  | None => Ok externalConfig
  | Some comp =>
      let doubled := NTuple [comp; comp] in
      isDoubled <- contains externalConfig doubled ;;
      if isDoubled then
        sub <- getitem externalConfig doubled ;;
        match sub with
        | IConfig c => Ok c
        | IVal _ => Err Unmodelled
        end
      else
        isThere <- contains externalConfig (NKey comp) ;;
        if isThere then
          match dict_get (_data externalConfig) comp with
          | Some (VDict m) =>
              Ok {| _data := m; _D := _D externalConfig;
                    configFile := configFile externalConfig |}
          | Some _ => Err Unmodelled
          | None => Err KeyError
          end
        else Ok externalConfig
  end.

(** The [cls] entry: the external config first, then the defaults *)
Definition find_pytype (externalConfig self : Config) : result (option item) :=
  inExternal <- contains externalConfig (NKey (KStr (py "cls"))) ;;
  if inExternal then
    x <- getitem externalConfig (NKey (KStr (py "cls"))) ;; Ok (Some x)
  else
    inSelf <- contains self (NKey (KStr (py "cls"))) ;;
    if inSelf then
      x <- getitem self (NKey (KStr (py "cls"))) ;; Ok (Some x)
    else Ok None.

(** The block of [ConfigSubset.__init__] under [if mergeDefaults:]: the
    defaults of the subclass, then those of the class that the [cls] entry
    names, and the container key of that class.  [make] is
    [type(self)(file, validate=False, mergeDefaults=False)]. *)
Definition merge_defaults (make : str -> result ConfigSubset)
  (cls : SubsetClass) (externalConfig : Config) (searchPaths : list str)
  : result (ConfigSubset * option key) :=
  let self := {| config := Config_empty; filesRead := [] |} in
  let fullSearchPath := searchPaths ++ defaultSearchPaths in
  self <- match defaultConfigFile cls with
          | Some file => updateWithConfigsFromPath make self fullSearchPath file
          | None => Ok self
          end ;;
  pytype <- find_pytype externalConfig (config self) ;;
  match pytype with
  | None | Some (IVal VNone) => Ok (self, None)
  | Some (IVal (VStr pytype)) =>
      match doImport pytype with
      | None => Err RuntimeError
      | Some c =>
          match cls_defaultConfigFile c with
          | None => Err AttributeError
          | Some defaultsFile =>
              self <- match defaultsFile with
                      | Some file =>
                          updateWithConfigsFromPath make self fullSearchPath file
                      | None => Ok self
                      end ;;
              Ok (self, cls_containerKey c)
          end
      end
  | Some _ => Err TypeError
  end.

(** The loop of [ConfigSubset.__init__] over the child configurations under
    [containerKey]; [child] is
    [type(self)(other=subConfig, validate=validate,
    mergeDefaults=mergeDefaults, searchPaths=searchPaths)]. *)
Definition expand_children (child : source -> result ConfigSubset)
  (self : ConfigSubset) (containerKey : key) : result ConfigSubset :=
  isThere <- contains (config self) (NKey containerKey) ;;
  if isThere then
    children <- getitem (config self) (NKey containerKey) ;;
    children <- elements_of children ;;
    '(self, _) <-
      for_each
        (fun '(self, idx) subConfig =>
           sub <- child (source_of_value subConfig) ;;
           c <- setitem (config self) (NTuple [containerKey; KInt idx])
                  (IConfig (config sub)) ;;
           Ok ({| config := c; filesRead := filesRead self |}, (idx + 1)%Z))
        children (self, 0%Z) ;;
    Ok self
  else Ok self.

(** [ConfigSubset.__init__(other, validate, mergeDefaults, searchPaths)] of
    the subclass [cls]; [construct] is [type(self)] and [load] is
    [Config]. *)
Definition ConfigSubset_body
  (construct : source -> bool -> bool -> list str -> result ConfigSubset)
  (load : source -> result Config)
  (cls : SubsetClass) (other : source) (validate_ mergeDefaults : bool)
  (searchPaths : list str) : result ConfigSubset :=
  externalConfig <- load other ;;
  externalConfig <- select_component cls externalConfig ;;
  '(self, containerKey) <-
    (if mergeDefaults
     then merge_defaults (fun file => construct (SPath file) false false [])
            cls externalConfig searchPaths
     else Ok ({| config := Config_empty; filesRead := [] |}, None)) ;;
  c <- update (config self) (_data externalConfig) ;;
  let self := {| config := c; filesRead := filesRead self |} in
  self <-
    match (if mergeDefaults then containerKey else None) with
    | None => Ok self
    | Some containerKey =>
        expand_children
          (fun sub => construct sub validate_ mergeDefaults searchPaths)
          self containerKey
    end ;;
  if validate_ then validate cls self else Ok self.

(** [ConfigSubset(other, validate, mergeDefaults, searchPaths)] for the
    subclass [cls]; [fuel] bounds the nesting of constructor calls. *)
Fixpoint ConfigSubset_init (fuel : nat) (cls : SubsetClass) (other : source)
  (validate_ mergeDefaults : bool) (searchPaths : list str)
  : result ConfigSubset :=
  match fuel with
  | O => Err RecursionError
  | S f =>
      ConfigSubset_body (ConfigSubset_init f cls) (Config_init f)
        cls other validate_ mergeDefaults searchPaths
  end.

(** [type(self)(file, validate=False, mergeDefaults=False)], the reader of
    [_updateWithOtherConfigFile] at nesting depth [fuel] *)
Definition read_defaults (fuel : nat) (cls : SubsetClass) (file : str)
  : result ConfigSubset :=
  ConfigSubset_init fuel cls (SPath file) false false [].

End WithHost.

(** ** An example host

    ASCII letters and digits are alphanumeric, [int] reads an optional sign
    and decimal digits, paths are POSIX-like, and the file system holds the
    YAML files of the scenarios below. *)

Definition ascii_isalnum (c : char) : bool :=
  ((48 <=? c) && (c <=? 57) || (65 <=? c) && (c <=? 90)
   || (97 <=? c) && (c <=? 122))%N.

Fixpoint digits_value (s : str) (acc : Z) : option Z :=
  match s with
  | [] => Some acc
  | c :: t =>
      if ((48 <=? c) && (c <=? 57))%N
      then digits_value t (10 * acc + Z.of_N (c - 48))%Z
      else None
  end.

Definition ascii_int (s : str) : option Z :=
  match s with
  | [] => None
  | c :: t =>
      match t with
      | [] => digits_value s 0
      | _ :: _ =>
          if N.eqb c 45 then option_map Z.opp (digits_value t 0)
          else if N.eqb c 43 then digits_value t 0
          else digits_value s 0
      end
  end.

Definition slash : char := 47%N.

Definition posix_isabs (p : str) : bool := startswith [slash] p.

Definition posix_join (a b : str) : str :=
  if posix_isabs b then b else a ++ [slash] ++ b.

(** Everything before the last slash *)
Fixpoint before_last_slash (p : str) : str :=
  match p with
  | [] => []
  | c :: t => if str_in [slash] t then c :: before_last_slash t else []
  end.

Definition posix_dirname (p : str) : str :=
  match before_last_slash p with
  | [] => if posix_isabs p then [slash] else []
  | h => h
  end.

Fixpoint lookup_file (files : list (str * value)) (path : str) : option value :=
  match files with
  | [] => None
  | (p, v) :: t => if str_eqb p path then Some v else lookup_file t path
  end.

Definition example_files : list (str * value) :=
  [ (py "/w/A.yaml",
     VDict [(includeKey, VList [VStr (py "B.yaml")]); (KStr (py "y"), VInt 3)]);
    (py "/w/B.yaml",
     VDict [(KStr (py "x"), VInt 1); (KStr (py "y"), VInt 2)]);
    (py "/pkg/config/d.yaml",
     VDict [(KStr (py "a"), VInt 1); (KStr (py "b"), VInt 1)]);
    (py "/env/d.yaml",
     VDict [(KStr (py "b"), VInt 2)]) ].

Definition example_host : Host := {|
  isalnum := ascii_isalnum;
  int_of_str := ascii_int;
  path_isabs := posix_isabs;
  path_join := posix_join;
  path_exists := fun p => match lookup_file example_files p with
                          | Some _ => true
                          | None => false
                          end;
  path_abspath := fun p => p;
  path_normpath := fun p => p;
  path_dirname := posix_dirname;
  path_curdir := py ".";
  path_pathsep := 58%N;
  yaml_load := lookup_file example_files;
  s3_load := fun _ => None;
  environ_CONFIG_PATH := Some (py "/env");
  packageConfigDir := py "/pkg/config";
  doImport := fun _ => None
|}.

(** Subclasses used in the scenarios *)
Definition defaults_class : SubsetClass :=
  {| component := None; requiredKeys := [];
     defaultConfigFile := Some (py "d.yaml") |}.

Definition required_class : SubsetClass :=
  {| component := None; requiredKeys := [KStr (py "x"); KStr (py "y")];
     defaultConfigFile := None |}.

Definition Config_with (d : dict) : Config :=
  {| _data := d; _D := Config_D; configFile := None |}.

(** ** Paths through mappings, and the inputs of the scenarios *)

(** Every node met along [pre] is a mapping, as far as the path exists. *)
Fixpoint mapping_path (d : value) (pre : list key) : bool :=
  match d with
  | VDict m =>
      match pre with
      | [] => true
      | k :: ks =>
          match dict_get m k with
          | Some x => mapping_path x ks
          | None => true
          end
      end
  | _ => false
  end.

(** [d[k1][k2]...] through mappings: the value that a path of keys
    leads to, when every node on the way is a mapping that has the key. *)
Fixpoint dict_at (d : value) (p : list key) : option value :=
  match p with
  | [] => Some d
  | k :: ks =>
      match d with
      | VDict m =>
          match dict_get m k with
          | Some x => dict_at x ks
          | None => None
          end
      | _ => None
      end
  end.

(** [{".a.b": 1, "a": {"b": 2}}] *)
Definition shadowed_config : Config :=
  Config_with [(KStr (py ".a.b"), VInt 1);
               (KStr (py "a"), VDict [(KStr (py "b"), VInt 2)])].

(** [{"a": {"b": 1}}] *)
Definition nested_config : Config :=
  Config_with [(KStr (py "a"), VDict [(KStr (py "b"), VInt 1)])].

(** [{"x.y": [10, 20]}] *)
Definition list_config : Config :=
  Config_with [(KStr (py "x.y"), VList [VInt 10; VInt 20])].

(** [{"a": "hey"}] *)
Definition string_config : Config :=
  Config_with [(KStr (py "a"), VStr (py "hey"))].

(** A subclass whose required key is written as a path *)
Definition path_required_class : SubsetClass :=
  {| component := None; requiredKeys := [KStr (py ".a.b")];
     defaultConfigFile := None |}.

(** The files [A.yaml] and [B.yaml] as they are loaded *)
Definition fileA_config : Config :=
  {| _data := [(includeKey, VList [VStr (py "B.yaml")]); (KStr (py "y"), VInt 3)];
     _D := Config_D; configFile := Some (py "/w/A.yaml") |}.

Definition fileB_config : Config :=
  {| _data := [(KStr (py "x"), VInt 1); (KStr (py "y"), VInt 2)];
     _D := Config_D; configFile := Some (py "/w/B.yaml") |}.

(** A key that holds the default delimiter and the 100 characters after it *)
Definition crowded_key : str :=
  map (fun i => (8594 + N.of_nat i)%N) (seq 0 101).

Definition crowded_config : Config := Config_with [(KStr crowded_key, VInt 1)].

(** [{"a": {"b.c": [1, "xy"]}}] *)
Definition mixed_config : Config :=
  Config_with [(KStr (py "a"),
                VDict [(KStr (py "b.c"), VList [VInt 1; VStr (py "xy")])])].

(** ** More of class Config *)

(** The loop of [getKeysAsTuples] over a list, from the index [i] on *)
Fixpoint tuples_from (base : list key) (l : list value) (i : Z)
  : list (list key) :=
  match l with
  | [] => []
  | val :: t =>
      let levelKey := base ++ [KInt i] in
      levelKey ::
      match val with
      | VDict _ | VList _ => getKeysAsTuples val levelKey
      | _ => []
      end ++ tuples_from base t (i + 1)%Z
  end.

(** Documents whose mappings have strings as keys, as those of YAML files
    written for this class have. *)
Fixpoint string_keys (v : value) : bool :=
  match v with
  | VDict m =>
      (fix all (m : dict) : bool :=
         match m with
         | [] => true
         | (k, x) :: t => negb (is_index k) && string_keys x && all t
         end) m
  | VList l =>
      (fix all (l : list value) : bool :=
         match l with
         | [] => true
         | x :: t => string_keys x && all t
         end) l
  | _ => true
  end.

(** [a == b] between the values of documents: [True == 1], lists compare
    element by element, mappings compare as [dict]s do, by size and then
    the value of every key of [a] with that of the same key of [b],
    whatever the order of the keys. *)
Fixpoint value_eqb (a b : value) {struct a} : bool :=
  match a, b with
  | VNone, VNone => true
  | VBool x, VBool y => Bool.eqb x y
  | VBool x, VInt z | VInt z, VBool x => Z.eqb z (if x then 1 else 0)
  | VInt x, VInt y => Z.eqb x y
  | VStr s, VStr t => str_eqb s t
  | VList l, VList l' =>
      (fix all (l l' : list value) : bool :=
         match l, l' with
         | [], [] => true
         | x :: t, y :: t' => value_eqb x y && all t t'
         | _, _ => false
         end) l l'
  | VDict m, VDict m' =>
      Nat.eqb (length m) (length m') &&
      (fix all (m : dict) : bool :=
         match m with
         | [] => true
         | (k, x) :: t =>
             match dict_get m' k with
             | Some y => value_eqb x y
             | None => false
             end && all t
         end) m
  | _, _ => false
  end.

(** The comparison of the values key by key, as a function of its own *)
Fixpoint entries_eqb (m m' : dict) : bool :=
  match m with
  | [] => true
  | (k, x) :: t =>
      match dict_get m' k with
      | Some y => value_eqb x y
      | None => false
      end && entries_eqb t m'
  end.

(** [self == other]: a [Config] is compared through its mapping. *)
Definition Config_eq (self : Config) (other : item) : bool :=
  value_eqb (VDict (_data self)) (stored other).

(** [self != other] *)
Definition Config_ne (self : Config) (other : item) : bool :=
  negb (value_eqb (VDict (_data self)) (stored other)).

Section MoreConfig.
Context {H : Host}.

(** [self.get(name)], inherited from [collections.abc.Mapping]: [None]
    where [self[name]] raises [KeyError]. *)
Definition get (self : Config) (n : name) : result item :=
  match getitem self n with
  | Err KeyError | Err (MissingKeys _) => Ok (IVal VNone)
  | r => r
  end.

(** [self.asArray(name)]: a string is wrapped, a list (the other
    [Sequence] of a document) passes, anything else is wrapped. *)
Definition asArray (self : Config) (n : name) : result (list item) :=
  val <- get self n ;;
  match val with
  | IVal (VStr _) => Ok [val]
  | IVal (VList l) => Ok (map IVal l)
  | _ => Ok [val]
  end.

End MoreConfig.

(** ** Inputs of further scenarios *)

(** [{"a": [{"includeConfigs": "B.yaml"}]}] *)
Definition include_in_list_config : Config :=
  Config_with
    [(KStr (py "a"), VList [VDict [(includeKey, VStr (py "B.yaml"))]])].

(** [{"includeConfigs": "missing.yaml", "y": 3}] *)
Definition missing_include_config : Config :=
  Config_with [(includeKey, VStr (py "missing.yaml")); (KStr (py "y"), VInt 3)].

(** A subclass for the component [datastore] *)
Definition datastore_class : SubsetClass :=
  {| component := Some (KStr (py "datastore")); requiredKeys := [];
     defaultConfigFile := None |}.

(** [{"datastore": {"root": "/r", "datastore": {"root": "/inner"}}}] *)
Definition doubled_config : Config :=
  Config_with
    [(KStr (py "datastore"),
      VDict [(KStr (py "root"), VStr (py "/r"));
             (KStr (py "datastore"),
              VDict [(KStr (py "root"), VStr (py "/inner"))])])].

(** [{"a": {"b": {"c": 1}, "y": 2}, "z": 9}] *)
Definition siblings_config : Config :=
  Config_with
    [(KStr (py "a"),
      VDict [(KStr (py "b"), VDict [(KStr (py "c"), VInt 1)]);
             (KStr (py "y"), VInt 2)]);
     (KStr (py "z"), VInt 9)].

(** A Config whose only key is the default delimiter *)
Definition arrow_config : Config := Config_with [(KStr [Config_D], VInt 1)].

(** [{"x": 1, "y": 2}] and [{"y": 2, "x": 1}] *)
Definition xy_config : Config :=
  Config_with [(KStr (py "x"), VInt 1); (KStr (py "y"), VInt 2)].

Definition yx_config : Config :=
  Config_with [(KStr (py "y"), VInt 2); (KStr (py "x"), VInt 1)].

(** * Properties *)

(** ** Strings *)

Section StringFacts.

Lemma str_eqb_eq (a b : str) : str_eqb a b = true <-> a = b.
Proof.
  unfold str_eqb. destruct (list_eq_dec N.eq_dec a b); split; congruence.
Qed.

Lemma str_eqb_refl (a : str) : str_eqb a a = true.
Proof. now apply str_eqb_eq. Qed.

Lemma key_eqb_eq (a b : key) : key_eqb a b = true <-> a = b.
Proof.
  destruct a, b; simpl; try (split; congruence).
  - rewrite str_eqb_eq. split; congruence.
  - rewrite Z.eqb_eq. split; congruence.
Qed.

Lemma key_eqb_refl (a : key) : key_eqb a a = true.
Proof. now apply key_eqb_eq. Qed.

Lemma key_eqb_neq (a b : key) : key_eqb a b = false <-> a <> b.
Proof.
  rewrite <- key_eqb_eq. destruct (key_eqb a b); split; congruence.
Qed.

Lemma key_eqb_sym (a b : key) : key_eqb a b = key_eqb b a.
Proof.
  destruct (key_eqb b a) eqn:E.
  - apply key_eqb_eq in E. subst. apply key_eqb_refl.
  - apply key_eqb_neq. apply key_eqb_neq in E. congruence.
Qed.

(** A one-character pattern occurs exactly where the character does. *)
Lemma str_in_char (c : char) (s : str) : str_in [c] s = true <-> In c s.
Proof.
  induction s as [|a s IH]; simpl.
  - split; [discriminate | tauto].
  - rewrite orb_true_iff, IH, andb_true_r, N.eqb_eq. split; intros [E|E]; auto.
Qed.

Lemma str_in_char_false (c : char) (s : str) :
  str_in [c] s = false <-> ~ In c s.
Proof.
  rewrite <- str_in_char. destruct (str_in [c] s); split; congruence.
Qed.

Lemma startswith_app (p x y : str) :
  startswith p x = true -> startswith p (x ++ y) = true.
Proof.
  revert x. induction p as [|a p IH]; intros [|b x]; simpl; auto; try discriminate.
  rewrite !andb_true_iff. intros [E F]. auto.
Qed.

Lemma str_in_app_l (p x y : str) :
  str_in p x = true -> str_in p (x ++ y) = true.
Proof.
  induction x as [|b x IH]; simpl.
  - rewrite orb_false_r. intros E. destruct p; [|discriminate].
    destruct y; reflexivity.
  - rewrite !orb_true_iff. intros [E|E]; [left|right; auto].
    now apply (startswith_app p (b :: x) y).
Qed.

Lemma str_in_app_r (p x y : str) :
  str_in p y = true -> str_in p (x ++ y) = true.
Proof.
  induction x as [|b x IH]; simpl; auto.
  intros E. rewrite (IH E). apply orb_true_r.
Qed.

(** *** split and join *)

Lemma split_not_nil (d : char) (s : str) : split d s <> [].
Proof.
  destruct s as [|c t]; simpl; [discriminate|].
  destruct (N.eqb c d); [discriminate|]. destruct (split d t); discriminate.
Qed.

Lemma split_no_sep (d : char) (s : str) : ~ In d s -> split d s = [s].
Proof.
  induction s as [|c t IH]; simpl; intros E; auto.
  destruct (N.eqb_spec c d) as [->|N]; [tauto|].
  rewrite IH by tauto. reflexivity.
Qed.

Lemma split_app_sep (d : char) (s rest : str) :
  ~ In d s -> split d (s ++ d :: rest) = s :: split d rest.
Proof.
  induction s as [|c t IH]; simpl; intros E.
  - now rewrite N.eqb_refl.
  - destruct (N.eqb_spec c d) as [->|N]; [tauto|].
    rewrite IH by tauto. reflexivity.
Qed.

Lemma join_cons (d s : str) (t : list str) :
  t <> [] -> join d (s :: t) = s ++ d ++ join d t.
Proof. destruct t; [congruence | reflexivity]. Qed.

(** Splitting what was joined gives the segments back. *)
Lemma split_join (d : char) (P : list str) :
  P <> [] -> (forall s, In s P -> ~ In d s) -> split d (join [d] P) = P.
Proof.
  induction P as [|s t IH]; [congruence|]. intros _ F.
  destruct t as [|s' t].
  - simpl. apply split_no_sep. apply F. now left.
  - rewrite join_cons by discriminate. simpl app.
    rewrite split_app_sep by (apply F; now left).
    f_equal. apply IH; [discriminate|]. intros x Hx. apply F. now right.
Qed.

Lemma split_length_le (d : char) (s h : str) :
  In h (split d s) -> length h <= length s.
Proof.
  revert h. induction s as [|c t IH]; simpl; intros h.
  - intros [<-|[]]. simpl. lia.
  - destruct (N.eqb c d).
    + intros [<-|E]; simpl; [lia|]. apply IH in E. lia.
    + destruct (split d t) as [|h0 r] eqn:S.
      * intros [<-|[]]. simpl. lia.
      * intros [<-|E]; simpl.
        -- specialize (IH h0 (or_introl eq_refl)). lia.
        -- specialize (IH h (or_intror E)). lia.
Qed.

(** *** replace *)

(** Replacing one character by a string *)
Lemma replace_char (a : char) (new s : str) :
  replace [a] new s = flat_map (fun c => if N.eqb a c then new else [c]) s.
Proof.
  unfold replace. induction s as [|c t IH]; simpl; auto.
  rewrite andb_true_r. destruct (N.eqb a c); simpl; now rewrite IH.
Qed.

(** Replacing one character by another *)
Lemma replace_char_char (a b : char) (s : str) :
  replace [a] [b] s = map (fun c => if N.eqb a c then b else c) s.
Proof.
  rewrite replace_char. induction s as [|c t IH]; simpl; auto.
  destruct (N.eqb a c); simpl; now rewrite IH.
Qed.

Lemma replace_char_absent (a : char) (new s : str) :
  ~ In a s -> replace [a] new s = s.
Proof.
  rewrite replace_char. induction s as [|c t IH]; simpl; intros E; auto.
  destruct (N.eqb_spec a c) as [->|N]; [tauto|]. simpl. rewrite IH; tauto.
Qed.

Lemma replace_length_le (a b c : char) (s : str) (n : nat) :
  length (replace_from [a; b] [c] n s) <= length s.
Proof.
  revert n. induction s as [|x t IH]; intros n; simpl; [lia|].
  destruct n as [|n].
  - destruct (N.eqb a x && _); simpl.
    + specialize (IH 1). lia.
    + specialize (IH 0). lia.
  - specialize (IH n). lia.
Qed.

End StringFacts.

(** ** Escaping a delimiter and splitting again *)

Section Escaping.
Variable d : char.
Hypothesis d_not_backslash : d <> backslash.
Hypothesis d_not_sentinel : d <> carriage_return.

Local Abbreviation esc := (replace [d] [backslash; d]).
Local Abbreviation unesc := (replace_from [backslash; d] [carriage_return] 0).
Local Abbreviation hide :=
  (map (fun c => if N.eqb d c then carriage_return else c)).

Lemma unesc_other (c : char) (rest : str) :
  c <> backslash -> unesc (c :: rest) = c :: unesc rest.
Proof.
  intros N. cbn [replace_from startswith].
  destruct (N.eqb_spec backslash c); [congruence|]. reflexivity.
Qed.

Lemma unesc_escaped (rest : str) :
  unesc (backslash :: d :: rest) = carriage_return :: unesc rest.
Proof. cbn [replace_from startswith length Nat.sub]. now rewrite !N.eqb_refl. Qed.

Lemma unesc_segment (s tail : str) :
  ~ In backslash s -> unesc (esc s ++ tail) = hide s ++ unesc tail.
Proof.
  rewrite replace_char.
  induction s as [|c t IH]; intros E; [reflexivity|].
  cbn [flat_map map]. destruct (N.eqb_spec d c) as [<-|N].
  - cbn [app]. rewrite unesc_escaped, IH; [reflexivity|]. simpl in E; tauto.
  - cbn [app]. rewrite unesc_other, IH; [reflexivity| |]; simpl in E; tauto.
Qed.

Lemma unesc_join (P : list str) :
  (forall s, In s P -> ~ In backslash s) ->
  unesc (join [d] (map esc P)) = join [d] (map hide P).
Proof.
  induction P as [|s t IH]; intros F; [reflexivity|].
  destruct t as [|s' t].
  - cbn [map join]. rewrite <- (app_nil_r (esc s)), unesc_segment.
    + simpl. now rewrite app_nil_r.
    + apply F. now left.
  - cbn [map].
    rewrite (join_cons [d] (esc s)), (join_cons [d] (hide s)) by discriminate.
    rewrite unesc_segment by (apply F; now left).
    cbn [app]. rewrite unesc_other by exact d_not_backslash.
    f_equal. f_equal. apply IH. intros x Hx. apply F. now right.
Qed.

Lemma hide_no_delimiter (s : str) : ~ In d (hide s).
Proof.
  induction s as [|c t IH]; simpl; [tauto|].
  intros [E|E]; [|tauto]. destruct (N.eqb_spec d c); congruence.
Qed.

Lemma unhide (s : str) :
  ~ In carriage_return s -> replace [carriage_return] [d] (hide s) = s.
Proof.
  rewrite replace_char_char.
  induction s as [|c t IH]; cbn [map In]; intros E; auto.
  rewrite IH by tauto. f_equal.
  destruct (N.eqb_spec d c) as [->|N].
  - now rewrite N.eqb_refl.
  - destruct (N.eqb_spec carriage_return c); [|reflexivity].
    exfalso. apply E. left. congruence.
Qed.

Lemma esc_id (s : str) : ~ In d s -> esc s = s.
Proof. apply replace_char_absent. Qed.

(** A backslash of the rendered key is always the first half of an escape,
    so no escape is doubled. *)
Lemma doubled_segment (s tail : str) :
  ~ In backslash s ->
  str_in [backslash; backslash; d] (esc s ++ tail)
  = str_in [backslash; backslash; d] tail.
Proof.
  rewrite replace_char.
  induction s as [|c t IH]; intros E; [reflexivity|].
  cbn [flat_map]. destruct (N.eqb_spec d c) as [<-|N].
  - cbn [app str_in startswith].
    destruct (N.eqb_spec backslash d); [congruence|].
    rewrite N.eqb_refl. cbn [andb orb]. apply IH. simpl in E; tauto.
  - cbn [app str_in startswith].
    destruct (N.eqb_spec backslash c) as [B|N'];
      [exfalso; apply E; left; congruence|].
    cbn [andb orb]. apply IH. simpl in E; tauto.
Qed.

Lemma doubled_absent (P : list str) :
  (forall s, In s P -> ~ In backslash s) ->
  str_in [backslash; backslash; d] (join [d] (map esc P)) = false.
Proof.
  induction P as [|s t IH]; intros F; [reflexivity|].
  destruct t as [|s' t].
  - cbn [map join]. rewrite <- (app_nil_r (esc s)), doubled_segment.
    + reflexivity.
    + apply F. now left.
  - cbn [map]. rewrite (join_cons [d] (esc s)) by discriminate.
    rewrite doubled_segment by (apply F; now left).
    cbn [app str_in startswith].
    destruct (N.eqb_spec backslash d); [congruence|].
    cbn [andb orb]. apply IH. intros x Hx. apply F. now right.
Qed.

Lemma in_esc (c : char) (s : str) :
  In c (esc s) -> In c s \/ c = backslash.
Proof.
  rewrite replace_char. induction s as [|a t IH]; simpl; [tauto|].
  destruct (N.eqb_spec d a) as [<-|N]; simpl; intuition.
Qed.

Lemma in_join_esc (c : char) (P : list str) :
  In c (join [d] (map esc P)) ->
  (exists s, In s P /\ In c s) \/ c = backslash \/ c = d.
Proof.
  induction P as [|s t IH]; [simpl; tauto|].
  destruct t as [|s' t].
  - cbn [map join]. intros E. apply in_esc in E as [E|E]; [left|tauto].
    exists s. split; [now left | exact E].
  - cbn [map]. rewrite (join_cons [d] (esc s)) by discriminate.
    rewrite !in_app_iff. intros [E|[E|E]].
    + apply in_esc in E as [E|E]; [left|tauto].
      exists s. split; [now left | exact E].
    + simpl in E. intuition.
    + apply IH in E as [(x & Hx & Hc)|E]; [left|tauto].
      exists x. split; [now right | exact Hc].
Qed.

Lemma sentinel_absent (P : list str) :
  (forall s, In s P -> ~ In carriage_return s) ->
  str_in [carriage_return] (join [d] (map esc P)) = false.
Proof.
  intros F. apply str_in_char_false. intros E.
  apply in_join_esc in E as [(s & Hs & Hc)|[E|E]].
  - exact (F s Hs Hc).
  - discriminate E.
  - congruence.
Qed.

Lemma escape_in_segment (s : str) :
  In d s -> str_in [backslash; d] (esc s) = true.
Proof.
  rewrite replace_char. induction s as [|c t IH]; simpl In; [tauto|].
  cbn [flat_map]. destruct (N.eqb_spec d c) as [<-|N].
  - intros _. cbn [app str_in startswith]. now rewrite !N.eqb_refl.
  - intros [E|E]; [congruence|].
    apply (str_in_app_r _ [c]). auto.
Qed.

Lemma escape_in_join (P : list str) (s : str) :
  In s P -> In d s -> str_in [backslash; d] (join [d] (map esc P)) = true.
Proof.
  induction P as [|a t IH]; [simpl; tauto|]. intros Hs Hd.
  destruct t as [|s' t].
  - destruct Hs as [->|[]]. now apply escape_in_segment.
  - cbn [map]. rewrite (join_cons [d] (esc a)) by discriminate.
    destruct Hs as [->|Hs].
    + apply str_in_app_l. now apply escape_in_segment.
    + apply str_in_app_r. apply (str_in_app_r _ [d]). now apply IH.
Qed.

Lemma no_escape_no_delimiter (P : list str) :
  str_in [backslash; d] (join [d] (map esc P)) = false ->
  forall s, In s P -> ~ In d s.
Proof.
  intros E s Hs Hd. rewrite (escape_in_join P s Hs Hd) in E. discriminate.
Qed.

End Escaping.

(** ** Key paths *)

Section KeyPaths.
Context {H : Host}.

Lemma render_strings (d : char) (P : list str) :
  render [d] (map KStr P) = d :: join [d] (map (replace [d] [backslash; d]) P).
Proof.
  unfold render. rewrite map_map. reflexivity.
Qed.

(** Without a delimiter inside the segments the rendered name is the plain
    delimited string. *)
Lemma render_plain (d : char) (P : list str) :
  (forall s, In s P -> ~ In d s) ->
  render [d] (map KStr P) = d :: join [d] P.
Proof.
  intros F. rewrite render_strings. do 2 f_equal.
  rewrite <- (map_id P) at 2. apply map_ext_in.
  intros s Hs. apply esc_id. now apply F.
Qed.

(** Splitting a rendered name gives back the segments it was rendered
    from. *)
Lemma splitIntoKeys_render (d : char) (P : list str) :
  isalnum d = false -> d <> backslash -> d <> carriage_return -> P <> [] ->
  (forall s, In s P -> ~ In backslash s /\ ~ In carriage_return s) ->
  splitIntoKeys (NKey (KStr (render [d] (map KStr P)))) = Ok (map KStr P).
Proof.
  intros A B C NE F. rewrite render_strings. unfold splitIntoKeys.
  rewrite A.
  assert (Fb : forall s, In s P -> ~ In backslash s)
    by (intros s Hs; now destruct (F s Hs)).
  assert (Fc : forall s, In s P -> ~ In carriage_return s)
    by (intros s Hs; now destruct (F s Hs)).
  destruct (str_in [backslash; d] _) eqn:E.
  - rewrite (doubled_absent d B P Fb), (sentinel_absent d C P Fc).
    destruct (N.eqb_spec d carriage_return) as [|_]; [contradiction|].
    cbn [orb]. f_equal. unfold replace at 2.
    rewrite (unesc_join d B P Fb).
    rewrite split_join.
    + rewrite map_map. apply map_ext_in. intros s Hs.
      f_equal. apply unhide; auto.
    + destruct P; [congruence | discriminate].
    + intros s Hs. apply in_map_iff in Hs as (x & <- & _).
      apply hide_no_delimiter; auto.
  - pose proof (no_escape_no_delimiter d P E) as G.
    f_equal. f_equal.
    replace (map (replace [d] [backslash; d]) P) with P.
    + now apply split_join.
    + rewrite <- (map_id P) at 1. apply map_ext_in.
      intros s Hs. symmetry. apply esc_id. now apply G.
Qed.

(** A segment of a delimited string is shorter than the string. *)
Lemma splitIntoKeys_shorter (d : char) (rest : str) (ks : list key) (s : str) :
  isalnum d = false ->
  splitIntoKeys (NKey (KStr (d :: rest))) = Ok ks ->
  In (KStr s) ks -> length s <= length rest.
Proof.
  intros A. unfold splitIntoKeys. rewrite A.
  destruct (str_in [backslash; d] rest).
  - destruct (str_in (backslash :: _) rest); [discriminate|].
    destruct (_ || _); [discriminate|].
    intros [= <-] I. apply in_map_iff in I as (h & [= <-] & I).
    apply split_length_le in I.
    change (replace_from [carriage_return] [d] 0 h)
      with (replace [carriage_return] [d] h).
    rewrite replace_char_char, length_map.
    eapply Nat.le_trans; [exact I|].
    apply (replace_length_le backslash d carriage_return rest 0).
  - intros [= <-] I. apply in_map_iff in I as (h & [= <-] & I).
    now apply split_length_le in I.
Qed.

End KeyPaths.

(** ** Mappings and lists *)

Section Containers.

Lemma dict_get_set_same (m : dict) (k : key) (v : value) :
  dict_get (dict_set m k v) k = Some v.
Proof.
  induction m as [|[k' v'] t IH]; simpl.
  - now rewrite key_eqb_refl.
  - destruct (key_eqb k' k) eqn:E; simpl; rewrite E; auto.
Qed.

Lemma dict_get_set_other (m : dict) (k k' : key) (v : value) :
  k <> k' -> dict_get (dict_set m k v) k' = dict_get m k'.
Proof.
  intros N. induction m as [|[k0 v0] t IH]; simpl.
  - apply key_eqb_neq in N. now rewrite N.
  - destruct (key_eqb k0 k) eqn:E; simpl.
    + apply key_eqb_eq in E. subst k0.
      apply key_eqb_neq in N. now rewrite N.
    + destruct (key_eqb k0 k'); auto.
Qed.

Lemma dict_mem_set (m : dict) (k k' : key) (v : value) :
  dict_mem (dict_set m k v) k' = key_eqb k k' || dict_mem m k'.
Proof.
  unfold dict_mem. destruct (key_eqb k k') eqn:E.
  - apply key_eqb_eq in E. subst. now rewrite dict_get_set_same.
  - apply key_eqb_neq in E. now rewrite dict_get_set_other.
Qed.

Lemma dict_mem_get (m : dict) (k : key) :
  dict_mem m k = true <-> exists v, dict_get m k = Some v.
Proof.
  unfold dict_mem. destruct (dict_get m k); split; eauto; try discriminate.
  intros (v & E). discriminate.
Qed.

Lemma dict_mem_keys_iff (m : dict) (k : key) :
  dict_mem m k = true <-> In k (dict_keys m).
Proof.
  unfold dict_mem.
  induction m as [|[k0 v0] t IH]; cbn [dict_get dict_keys map fst In].
  - split; [discriminate | tauto].
  - destruct (key_eqb k0 k) eqn:E.
    + apply key_eqb_eq in E. split; auto.
    + apply key_eqb_neq in E. rewrite IH. split; [auto|]. intros [C|I]; tauto.
Qed.

Lemma set_nth_length {A} (l : list A) (n : nat) (x : A) :
  length (set_nth l n x) = length l.
Proof.
  revert n. induction l as [|a t IH]; intros [|n]; simpl; auto.
Qed.

Lemma nth_error_set_nth {A} (l : list A) (n : nat) (x : A) :
  n < length l -> nth_error (set_nth l n x) n = Some x.
Proof.
  revert n. induction l as [|a t IH]; intros [|n]; simpl; try lia; auto.
  intros L. apply IH. lia.
Qed.

Lemma norm_index_lt {A} (l : list A) (i : Z) (n : nat) :
  norm_index l i = Some n -> n < length l.
Proof.
  unfold norm_index. destruct (_ && _) eqn:E; [|discriminate].
  intros [= <-]. apply andb_true_iff in E as [E F].
  apply Z.leb_le in E. apply Z.ltb_lt in F. lia.
Qed.

Lemma norm_index_same_length {A B} (l : list A) (l' : list B) (i : Z) :
  length l' = length l -> norm_index l' i = norm_index l i.
Proof. unfold norm_index. now intros ->. Qed.

(** After [l[i] = x], [l[i]] is [x]. *)
Lemma list_index_assign {A} (l l' : list A) (i : Z) (x : A) :
  list_assign l i x = Some l' -> list_index l' i = Some x.
Proof.
  unfold list_assign, list_index.
  destruct (norm_index l i) as [n|] eqn:E; [|discriminate].
  intros [= <-]. rewrite (norm_index_same_length l) by apply set_nth_length.
  rewrite E. apply nth_error_set_nth. eapply norm_index_lt; eauto.
Qed.

(** An index that can be read can be assigned. *)
Lemma list_assign_defined {A} (l : list A) (i : Z) (x y : A) :
  list_index l i = Some x -> exists l', list_assign l i y = Some l'.
Proof.
  unfold list_assign, list_index.
  destruct (norm_index l i); [eauto | discriminate].
Qed.

Lemma list_index_nonneg {A} (l : list A) (i : Z) :
  (0 <= i < Z.of_nat (length l))%Z ->
  list_index l i = nth_error l (Z.to_nat i).
Proof.
  intros R. unfold list_index, norm_index.
  destruct (Z.ltb_spec i 0); [lia|].
  destruct (Z.leb_spec 0 i); [|lia].
  destruct (Z.ltb_spec i (Z.of_nat (length l))); [|lia].
  reflexivity.
Qed.

Lemma last_of_snoc (h : list value) (x : value) : last_of (h ++ [x]) = Ok x.
Proof. unfold last_of. now rewrite rev_app_distr. Qed.

Lemma last_of_inv (h : list value) (x : value) :
  last_of h = Ok x -> exists h', h = h' ++ [x].
Proof.
  unfold last_of. destruct (rev h) as [|y r] eqn:E; [discriminate|].
  intros [= ->]. exists (rev r).
  rewrite <- (rev_involutive h), E. reflexivity.
Qed.

Lemma pop_inv (keys pre : list key) (last : key) :
  pop keys = Ok (pre, last) -> keys = pre ++ [last].
Proof.
  unfold pop. destruct (rev keys) as [|y r] eqn:E; [discriminate|].
  intros [= <- <-]. rewrite <- (rev_involutive keys), E. reflexivity.
Qed.

Lemma pop_snoc (pre : list key) (last : key) :
  pop (pre ++ [last]) = Ok (pre, last).
Proof.
  unfold pop. rewrite rev_app_distr. simpl. now rewrite rev_involutive.
Qed.

End Containers.

(** ** Descent through a document *)

(** Splits a successful [bind] into its two steps. *)
Ltac unbind H :=
  match type of H with
  | bind ?r _ = Ok _ =>
      let E := fresh "E" in
      destruct r as [?|?] eqn:E; cbn [bind] in H; [|discriminate H]
  end.

Section Descent.
Context {H : Host}.

(** What the descent hands out below a string, or for a list member found
    by equality: nothing that can be assigned into. *)
Local Abbreviation dead v := (v = VNone \/ exists s : str, v = VStr s).

(** A child that was found under [k] in a mapping or a list is found again
    after it has been put back. *)
Lemma check_put (k : key) (d d1 nextVal : value) (create : bool) :
  checkNextItem k d create = Ok (d1, nextVal, true) ->
  dead nextVal \/
  forall child,
    checkNextItem k (put_child d1 k child) false
    = Ok (put_child d1 k child, child, true).
Proof.
  destruct d as [| | |s|l|m]; cbn [checkNextItem]; try discriminate.
  - destruct (int_of_key k) as [i|].
    + destruct (list_index s i); intros [= <- <-]; left; eauto.
    + destruct k; [|discriminate]. intros [= <- <- _]. left; auto.
  - destruct (int_of_key k) as [i|] eqn:K.
    + destruct (list_index l i) as [x|] eqn:I; [|discriminate].
      intros [= <- <-]. right. intros child. cbn [put_child]. rewrite K.
      destruct (list_assign_defined l i x child I) as (l' & A).
      rewrite A. cbn [checkNextItem]. rewrite K.
      now rewrite (list_index_assign l l' i child A).
    + intros [= <- <- _]. left; auto.
  - destruct (dict_get m k) as [x|] eqn:G.
    + intros [= <- <-]. right. intros child. cbn [put_child checkNextItem].
      now rewrite dict_get_set_same.
    + destruct create; [|discriminate]. intros [= <- <-]. right.
      intros child. cbn [put_child checkNextItem].
      now rewrite dict_get_set_same.
Qed.

Lemma assign_dead (d : value) (last : key) (v r : value) :
  dead d -> assign d last v = Ok r -> False.
Proof.
  intros [->|(s & ->)]; cbn [assign]; destruct (int_of_key last); discriminate.
Qed.

Lemma check_dead (k : key) (d d1 nextVal : value) (create isThere : bool) :
  dead d -> checkNextItem k d create = Ok (d1, nextVal, isThere) ->
  d1 = d /\ dead nextVal.
Proof.
  intros [->|(s & ->)]; cbn [checkNextItem].
  - intros [= <- <- _]. auto.
  - destruct (int_of_key k) as [i|].
    + destruct (list_index s i); intros [= <- <- _]; eauto.
    + destruct k; [|discriminate]. intros [= <- <- _]. eauto.
Qed.

(** No assignment succeeds below a dead node. *)
Lemma set_walk_dead (ks : list key) (last : key) (v : value) :
  forall d r, dead d -> set_walk d ks last v = Ok r -> False.
Proof.
  induction ks as [|k ks IH]; intros d r D E; cbn [set_walk] in E.
  - unbind E. exact (assign_dead _ _ _ _ D E0).
  - unbind E. destruct a as [[d1 nextVal] isThere].
    destruct (check_dead _ _ _ _ _ _ D E0) as [-> D'].
    destruct isThere.
    + unbind E. exact (IH _ _ D' E1).
    + unbind E. exact (assign_dead _ _ _ _ D E1).
Qed.

(** No deletion succeeds below a dead node. *)
Lemma del_walk_dead (ks : list key) (last : key) :
  forall d r, dead d -> del_walk d ks last = Ok r -> False.
Proof.
  induction ks as [|k ks IH]; intros d r D E; cbn [del_walk] in E.
  - destruct D as [->|(s & ->)]; discriminate.
  - unbind E. destruct a as [[d1 nextVal] isThere].
    destruct (check_dead _ _ _ _ _ _ D E0) as [-> D'].
    destruct isThere; [|discriminate].
    unbind E. exact (IH _ _ D' E1).
Qed.

(** After the assignment the last segment is found in the node that was
    assigned into. *)
Lemma assign_check (d d' : value) (last : key) (v : value) :
  assign d last v = Ok d' -> checkNextItem last d' false = Ok (d', v, true).
Proof.
  destruct d as [| | |s|l|m]; cbn [assign];
    try (destruct (int_of_key last); discriminate).
  - destruct last as [s|i]; cbn [int_of_key].
    + destruct (int_of_str s) as [i|] eqn:I; [|discriminate].
      destruct (list_assign l i v) as [l'|] eqn:A; [|discriminate].
      intros [= <-]. cbn [checkNextItem int_of_key]. rewrite I.
      now rewrite (list_index_assign l l' i v A).
    + destruct (list_assign l i v) as [l'|] eqn:A; [|discriminate].
      intros [= <-]. cbn [checkNextItem int_of_key].
      now rewrite (list_index_assign l l' i v A).
  - intros [= <-]. cbn [checkNextItem]. now rewrite dict_get_set_same.
Qed.

(** A complete descent of [__setitem__] leaves the value where
    [__getitem__] looks for it. *)
Lemma set_walk_find (pre : list key) (last : key) (v : value) :
  forall d d',
    set_walk d pre last v = Ok (d', true) ->
    exists hs, findInHierarchy d' (pre ++ [last]) = Ok (hs ++ [v], true).
Proof.
  induction pre as [|k ks IH]; intros d d' E; cbn [set_walk] in E.
  - unbind E. injection E as <-. exists []. cbn [app findInHierarchy].
    rewrite (assign_check _ _ _ _ E0). reflexivity.
  - unbind E. destruct a as [[d1 nextVal] isThere].
    destruct isThere; [|unbind E; discriminate].
    unbind E. destruct a as [child complete]. injection E as <- ->.
    destruct (check_put _ _ _ _ _ E0) as [D|P].
    + exfalso. exact (set_walk_dead _ _ _ _ _ D E1).
    + destruct (IH _ _ E1) as (hs & F).
      exists (child :: hs). cbn [app findInHierarchy].
      rewrite P. cbn [bind]. rewrite F. reflexivity.
Qed.

(** The top-level keys after a descent of [__setitem__] from a mapping are
    the old ones and the first segment. *)
Lemma set_walk_top (m : dict) (pre : list key) (last : key) (v d' : value)
  (flag : bool) :
  set_walk (VDict m) pre last v = Ok (d', flag) ->
  exists m', d' = VDict m' /\
    forall k, dict_mem m' k = key_eqb (hd last pre) k || dict_mem m k.
Proof.
  destruct pre as [|k0 ks]; cbn [set_walk hd assign bind].
  - intros [= <- _]. eexists. split; [reflexivity|].
    intros k. apply dict_mem_set.
  - cbn [checkNextItem]. destruct (dict_get m k0) as [x|] eqn:G; cbn [bind].
    + intros E. unbind E. destruct a as [child complete].
      injection E as <- _. eexists. split; [reflexivity|].
      intros k. apply dict_mem_set.
    + intros E. unbind E. destruct a as [child complete].
      injection E as <- _. eexists. split; [reflexivity|].
      intros k. rewrite !dict_mem_set. now destruct (key_eqb k0 k).
Qed.

End Descent.

(** ** The store: get, set, delete, contains *)

Section Store.
Context {H : Host}.

Lemma check_nocreate (k : key) (d d1 nextVal : value) (isThere : bool) :
  checkNextItem k d false = Ok (d1, nextVal, isThere) -> d1 = d.
Proof.
  destruct d as [| | |s|l|m]; cbn [checkNextItem]; try discriminate.
  - now intros [= <- _ _].
  - destruct (int_of_key k) as [i|].
    + destruct (list_index s i); now intros [= <- _ _].
    + destruct k; [|discriminate]. now intros [= <- _ _].
  - destruct (int_of_key k) as [i|].
    + destruct (list_index l i); now intros [= <- _ _].
    + now intros [= <- _ _].
  - destruct (dict_get m k); now intros [= <- _ _].
Qed.

Lemma last_of_cons (x : value) (hs : list value) :
  hs <> [] -> last_of (x :: hs) = last_of hs.
Proof.
  intros N. unfold last_of. cbn [rev].
  destruct (rev hs) as [|y r] eqn:E; [|reflexivity].
  apply (f_equal (@rev value)) in E. rewrite rev_involutive in E. contradiction.
Qed.

Lemma find_step (k : key) (ks : list key) (d : value) (h : list value) :
  findInHierarchy d (k :: ks) = Ok (h, true) ->
  exists nextVal hs,
    checkNextItem k d false = Ok (d, nextVal, true) /\
    findInHierarchy nextVal ks = Ok (hs, true) /\ h = nextVal :: hs.
Proof.
  cbn [findInHierarchy]. intros E. unbind E.
  destruct a as [[d1 nextVal] isThere].
  pose proof (check_nocreate _ _ _ _ _ E0) as ->.
  destruct isThere; [|discriminate].
  unbind E. destruct a as [hs complete]. injection E as <- ->. eauto.
Qed.

Lemma find_nonempty (k : key) (ks : list key) (d : value) (h : list value) :
  findInHierarchy d (k :: ks) = Ok (h, true) -> h <> [].
Proof.
  intros E. apply find_step in E as (nv & hs & _ & _ & ->). discriminate.
Qed.

(** A path that resolves can be extended from the node it reaches. *)
Lemma find_app (p ks : list key) :
  forall d h x,
    findInHierarchy d p = Ok (h, true) -> last_of h = Ok x ->
    findInHierarchy d (p ++ ks)
    = ('(h2, c) <- findInHierarchy x ks ;; Ok (h ++ h2, c)).
Proof.
  induction p as [|k p IH]; intros d h x E L.
  - injection E as <-. discriminate L.
  - destruct (find_step _ _ _ _ E) as (nv & hs & C & F & ->).
    cbn [app findInHierarchy]. rewrite C. cbn [bind].
    destruct p as [|k2 p].
    + injection F as <-. injection L as <-. cbn [app].
      destruct (findInHierarchy nv ks) as [[h2 c]|e]; reflexivity.
    + rewrite last_of_cons in L by (eapply find_nonempty; eauto).
      rewrite (IH _ _ _ F L).
      destruct (findInHierarchy x ks) as [[h2 c]|e]; reflexivity.
Qed.

(** What [__getitem__] returns for a tuple is the wrapped last node. *)
Lemma getitem_tuple_inv (c : Config) (p : list key) (x : item) :
  getitem c (NTuple p) = Ok x ->
  exists h data,
    findInHierarchy (VDict (_data c)) p = Ok (h, true) /\
    last_of h = Ok data /\ wrap c data = Ok x.
Proof.
  unfold getitem. cbn [getKeyHierarchy splitIntoKeys bind]. intros E.
  unbind E. destruct a as [h complete]. destruct complete; [|discriminate].
  unbind E. eauto.
Qed.

Lemma wrap_value (c : Config) (data v : value) :
  wrap c data = Ok (IVal v) -> data = v.
Proof.
  destruct data; cbn [wrap]; try (now intros [= <-]).
  destruct (Config_of_dict _ _); discriminate.
Qed.

Lemma hd_in (pre : list key) (last : key) : In (hd last pre) (pre ++ [last]).
Proof. destruct pre; simpl; auto. Qed.

(** [__setitem__] does not change the hierarchy that its own name stands
    for. *)
Lemma setitem_keys_stable (c c' : Config) (n : name) (v : item)
  (keys : list key) (flag : bool) :
  getKeyHierarchy c n = Ok keys ->
  setitem_flag c n v = Ok (c', flag) ->
  getKeyHierarchy c' n = Ok keys.
Proof.
  intros G S. destruct n as [k|ks]; [|exact G].
  unfold setitem_flag in S. rewrite G in S. cbn [bind] in S.
  unbind S. destruct a as [pre last]. apply pop_inv in E. subst keys.
  unbind S. destruct a as [d' complete].
  destruct (set_walk_top _ _ _ _ _ _ E) as (m' & -> & M).
  cbn [with_data bind] in S. injection S as <- _.
  unfold getKeyHierarchy, in_data in *. cbn [_data].
  rewrite M. destruct (dict_mem (_data c) k) eqn:D.
  - now rewrite orb_true_r.
  - rewrite orb_false_r. destruct (key_eqb (hd last pre) k) eqn:K; [|exact G].
    apply key_eqb_eq in K. pose proof (hd_in pre last) as I. rewrite K in I.
    destruct k as [s|z]; [|exact G].
    destruct s as [|d rest]; [discriminate G|].
    cbn [splitIntoKeys] in G. destruct (isalnum d) eqn:A; [exact G|].
    exfalso.
    assert (length (d :: rest) <= length rest) as L.
    { apply (splitIntoKeys_shorter d rest (pre ++ [last])); auto.
      cbn [splitIntoKeys]. now rewrite A. }
    simpl in L. lia.
Qed.

(** Reading back what a complete [__setitem__] stored *)
Lemma setitem_getitem (c c' : Config) (n : name) (v : item) :
  setitem_flag c n v = Ok (c', true) -> getitem c' n = wrap c' (stored v).
Proof.
  intros S. pose proof S as S'. unfold setitem_flag in S.
  unbind S. rename a into keys.
  pose proof (setitem_keys_stable _ _ _ _ _ _ E S') as G.
  unbind S. destruct a as [pre last]. apply pop_inv in E0. subst keys.
  unbind S. destruct a as [d' complete].
  unbind S. injection S as <- ->.
  destruct (set_walk_find _ _ _ _ _ E0) as (hs & F).
  destruct (set_walk_top _ _ _ _ _ _ E0) as (m' & -> & _).
  cbn [with_data] in E1. injection E1 as <-.
  unfold getitem. rewrite G. cbn [bind _data]. rewrite F. cbn [bind].
  now rewrite last_of_snoc.
Qed.

Lemma mapping_path_empty (ks : list key) : mapping_path (VDict []) ks = true.
Proof. destruct ks; reflexivity. Qed.

(** Through mappings the descent of [__setitem__] is always complete. *)
Lemma set_walk_total (pre : list key) (last : key) (v : value) :
  forall d, mapping_path d pre = true ->
  exists d', set_walk d pre last v = Ok (d', true).
Proof.
  induction pre as [|k ks IH]; intros d M;
    destruct d as [| | | | |m]; try discriminate M.
  - cbn [set_walk assign bind]. eauto.
  - cbn [mapping_path] in M. cbn [set_walk checkNextItem].
    destruct (dict_get m k) as [x|] eqn:G; cbn [bind].
    + destruct (IH x M) as (d' & ->). cbn [bind]. eauto.
    + destruct (IH (VDict []) (mapping_path_empty ks)) as (d' & ->).
      cbn [bind]. eauto.
Qed.

Lemma setitem_total (c : Config) (n : name) (v : item) (pre : list key)
  (last : key) :
  getKeyHierarchy c n = Ok (pre ++ [last]) ->
  mapping_path (VDict (_data c)) pre = true ->
  exists c', setitem_flag c n v = Ok (c', true).
Proof.
  intros G M. unfold setitem_flag. rewrite G. cbn [bind].
  rewrite pop_snoc. cbn [bind].
  destruct (set_walk_total pre last (stored v) _ M) as (d' & E).
  rewrite E. cbn [bind].
  destruct (set_walk_top _ _ _ _ _ _ E) as (m' & -> & _).
  cbn [with_data bind]. eauto.
Qed.

(** The ancestors of a deleted entry still resolve. *)
Lemma del_walk_prefix (pre : list key) (last : key) :
  forall d d' q r,
    del_walk d pre last = Ok d' -> pre = q ++ r ->
    exists h, findInHierarchy d' q = Ok (h, true).
Proof.
  induction pre as [|k ks IH]; intros d d' q r E P.
  - destruct q; [|discriminate P]. cbn [findInHierarchy]. eauto.
  - destruct q as [|k' q]; [cbn [findInHierarchy]; eauto|].
    injection P as <- P. cbn [del_walk] in E.
    unbind E. destruct a as [[d1 nextVal] isThere].
    destruct isThere; [|discriminate]. unbind E. injection E as <-.
    pose proof (check_nocreate _ _ _ _ _ E0) as ->.
    destruct (check_put _ _ _ _ _ E0) as [D|C].
    + exfalso. exact (del_walk_dead _ _ _ _ D E1).
    + destruct (IH _ _ _ _ E1 P) as (h & F).
      exists (a :: h). cbn [findInHierarchy]. rewrite C. cbn [bind].
      now rewrite F.
Qed.

(** In the parent only the deleted entry is gone. *)
Lemma del_walk_parent (pre : list key) (last : key) :
  forall d d' h m,
    del_walk d pre last = Ok d' ->
    findInHierarchy d pre = Ok (h, true) -> last_of h = Ok (VDict m) ->
    exists h', findInHierarchy d' pre = Ok (h', true) /\
               last_of h' = Ok (VDict (dict_remove m last)).
Proof.
  induction pre as [|k ks IH]; intros d d' h m E F L.
  - injection F as <-. discriminate L.
  - destruct (find_step _ _ _ _ F) as (nv & hs & C & F' & ->).
    cbn [del_walk] in E. rewrite C in E. cbn [bind] in E.
    unbind E. injection E as <-.
    destruct (check_put _ _ _ _ _ C) as [D|P].
    { exfalso. exact (del_walk_dead _ _ _ _ D E0). }
    cbn [findInHierarchy]. rewrite P. cbn [bind].
    destruct ks as [|k2 ks].
    + injection F' as <-. injection L as ->.
      cbn [del_walk delete] in E0.
      destruct (dict_mem m last); [|discriminate]. injection E0 as <-.
      eexists. split; reflexivity.
    + rewrite last_of_cons in L by (eapply find_nonempty; eauto).
      destruct (IH _ _ _ _ E0 F' L) as (h' & F2 & L2).
      rewrite F2. eexists. split; [reflexivity|].
      rewrite last_of_cons by (eapply find_nonempty; eauto). exact L2.
Qed.

End Store.

(** ** Paths that exist *)

Section ExistingPaths.
Context {H : Host}.

Lemma node_at_app (p q : list key) :
  forall d, node_at d (p ++ q) = (x <- node_at d p ;; node_at x q).
Proof.
  induction p as [|k p IH]; intros d; cbn [app node_at bind]; [reflexivity|].
  destruct (checkNextItem k d false) as [[[d1 nv] t]|e]; cbn [bind];
    [|reflexivity].
  destruct t; [apply IH | reflexivity].
Qed.

Lemma node_at_dead (ks : list key) :
  forall d x,
    (d = VNone \/ exists s, d = VStr s) -> node_at d ks = Ok x ->
    x = VNone \/ exists s, x = VStr s.
Proof.
  induction ks as [|k ks IH]; intros d x D E; cbn [node_at] in E.
  - now injection E as <-.
  - unbind E. destruct a as [[d1 nv] t]. destruct t; [|discriminate].
    destruct (check_dead _ _ _ _ _ _ D E0) as [_ D'].
    exact (IH _ _ D' E).
Qed.

Lemma not_dead_dict (m : dict) :
  ~ (VDict m = VNone \/ exists s, VDict m = VStr s).
Proof. intros [E|(s & E)]; discriminate. Qed.

(** What is found without [create] is found with it. *)
Lemma check_found_create (k : key) (d d1 nv : value) :
  checkNextItem k d false = Ok (d1, nv, true) ->
  checkNextItem k d true = Ok (d, nv, true).
Proof.
  destruct d as [| | |s|l|m]; cbn [checkNextItem]; try discriminate.
  - destruct (int_of_key k) as [i|].
    + destruct (list_index s i); now intros [= _ <-].
    + destruct k; [|discriminate]. now intros [= _ <- ->].
  - destruct (int_of_key k) as [i|].
    + destruct (list_index l i); now intros [= _ <-].
    + now intros [= _ <- ->].
  - destruct (dict_get m k); now intros [= _ <-].
Qed.

(** The descent of [__getitem__] in terms of the node it reaches *)
Lemma find_node {B} (F : value -> result B) (ks : list key) :
  ks <> [] ->
  forall d,
    ('(h, complete) <- findInHierarchy d ks ;;
     if complete then data <- last_of h ;; F data else Err KeyError)
    = (x <- node_at d ks ;; F x).
Proof.
  induction ks as [|k ks IH]; [congruence|]. intros _ d.
  cbn [findInHierarchy node_at].
  destruct (checkNextItem k d false) as [[[d1 nv] t]|e]; cbn [bind];
    [|reflexivity].
  destruct t; [|reflexivity].
  destruct ks as [|k2 ks].
  - cbn [findInHierarchy node_at bind last_of rev app]. reflexivity.
  - rewrite <- (IH (ltac:(discriminate)) nv).
    destruct (findInHierarchy nv (k2 :: ks)) as [[hs c]|e] eqn:E;
      cbn [bind]; [|reflexivity].
    destruct c; [|reflexivity].
    now rewrite (last_of_cons nv hs (find_nonempty _ _ _ _ E)).
Qed.

Lemma getitem_node (c : Config) (n : name) (keys : list key) :
  getKeyHierarchy c n = Ok keys -> keys <> [] ->
  getitem c n = (x <- node_at (VDict (_data c)) keys ;; wrap c x).
Proof.
  intros G N. unfold getitem. rewrite G. cbn [bind].
  exact (find_node (wrap c) keys N _).
Qed.

Lemma del_walk_dict (pre : list key) (last : key) (m : dict) (d' : value) :
  del_walk (VDict m) pre last = Ok d' -> exists m', d' = VDict m'.
Proof.
  destruct pre as [|k ks]; cbn [del_walk delete].
  - destruct (dict_mem m last); [|discriminate]. intros [= <-]. eauto.
  - intros E. unbind E. destruct a as [[d1 nv] t].
    destruct t; [|discriminate]. unbind E. injection E as <-.
    cbn [put_child]. eauto.
Qed.

(** Deleting a key of the mapping that a path leads to succeeds, and the
    path then leads to the mapping without the key. *)
Lemma del_walk_total (pre : list key) (last : key) (node : dict) :
  forall d,
    node_at d pre = Ok (VDict node) -> dict_mem node last = true ->
    exists d',
      del_walk d pre last = Ok d' /\
      node_at d' pre = Ok (VDict (dict_remove node last)).
Proof.
  induction pre as [|k ks IH]; intros d E M.
  - injection E as ->. cbn [del_walk delete node_at]. rewrite M. eauto.
  - cbn [node_at] in E. unbind E. destruct a as [[d1 nv] t].
    destruct t; [|discriminate].
    pose proof (check_nocreate _ _ _ _ _ E0) as ->.
    destruct (IH _ E M) as (child & Dc & Nc).
    cbn [del_walk]. rewrite E0. cbn [bind]. rewrite Dc. cbn [bind].
    eexists. split; [reflexivity|].
    destruct (check_put _ _ _ _ _ E0) as [D|P].
    + exfalso. exact (not_dead_dict _ (node_at_dead _ _ _ D E)).
    + cbn [node_at]. rewrite P. cbn [bind]. exact Nc.
Qed.

Lemma assign_existing (d d1 x : value) (last : key) (v : value) :
  checkNextItem last d false = Ok (d1, x, true) ->
  ~ (x = VNone \/ exists s, x = VStr s) ->
  exists d', assign d last v = Ok d'.
Proof.
  destruct d as [| | |s|l|m]; cbn [checkNextItem]; try discriminate.
  - destruct (int_of_key last) as [i|].
    + destruct (list_index s i); intros [= _ <-] N; exfalso; apply N; eauto.
    + destruct last; [|discriminate]. intros [= _ <- _] N.
      exfalso; apply N; auto.
  - destruct (int_of_key last) as [i|] eqn:K.
    + destruct (list_index l i) as [y|] eqn:I; [|discriminate].
      intros _ _. destruct (list_assign_defined l i y v I) as (l' & A).
      cbn [assign]. destruct last as [s|z]; cbn [int_of_key] in K.
      * rewrite K, A. eauto.
      * injection K as ->. rewrite A. eauto.
    + intros [= _ <- _] N. exfalso; apply N; auto.
  - intros _ _. cbn [assign]. eauto.
Qed.

(** Assigning at a path that leads to a mapping or a list element succeeds
    with a complete descent, and the path then leads to the new value. *)
Lemma set_walk_existing (pre : list key) (last : key) (v : value) :
  forall d x,
    node_at d (pre ++ [last]) = Ok x ->
    ~ (x = VNone \/ exists s, x = VStr s) ->
    exists d',
      set_walk d pre last v = Ok (d', true) /\
      node_at d' (pre ++ [last]) = Ok v.
Proof.
  induction pre as [|k ks IH]; intros d x E N.
  - cbn [app node_at] in E. unbind E. destruct a as [[d1 nv] t].
    destruct t; [|discriminate]. injection E as ->.
    destruct (assign_existing _ _ _ _ v E0 N) as (d' & A).
    exists d'. cbn [set_walk]. rewrite A. cbn [bind]. split; [reflexivity|].
    cbn [app node_at]. now rewrite (assign_check _ _ _ _ A).
  - cbn [app node_at] in E. unbind E. destruct a as [[d1 nv] t].
    destruct t; [|discriminate].
    destruct (IH _ _ E N) as (child & Sc & Nc).
    cbn [set_walk]. rewrite (check_found_create _ _ _ _ E0). cbn [bind].
    rewrite Sc. cbn [bind]. eexists. split; [reflexivity|].
    destruct (check_put _ _ _ _ _ (check_found_create _ _ _ _ E0)) as [D|P].
    + exfalso. exact (N (node_at_dead _ _ _ D E)).
    + cbn [app node_at]. rewrite P. cbn [bind]. exact Nc.
Qed.

End ExistingPaths.

(** ** Claims about key paths and the store *)

Section StoreClaims.
Context {H : Host}.

(** C1, amended.  For a delimiter [d] that is not alphanumeric, not the
    backslash and not the carriage return, and a non-empty path [P] of
    string segments without backslash and carriage return: unless the
    delimited string is itself a top-level key of the Config (then the exact
    match is used), [__getitem__] and [__contains__] give the same result for
    the escaped delimited string and for the tuple of segments; and when no
    segment contains [d], the escaped string is the plain delimited one. *)
Theorem notation_equivalence (c : Config) (d : char) (P : list str) :
  isalnum d = false -> d <> backslash -> d <> carriage_return -> P <> [] ->
  (forall s, In s P -> ~ In backslash s /\ ~ In carriage_return s) ->
  in_data c (NKey (KStr (render [d] (map KStr P)))) = false ->
  getitem c (NKey (KStr (render [d] (map KStr P))))
  = getitem c (NTuple (map KStr P))
  /\ contains c (NKey (KStr (render [d] (map KStr P))))
     = contains c (NTuple (map KStr P))
  /\ ((forall s, In s P -> ~ In d s) ->
      render [d] (map KStr P) = d :: join [d] P).
Proof.
  intros A B C NE F M.
  assert (getKeyHierarchy c (NKey (KStr (render [d] (map KStr P))))
          = getKeyHierarchy c (NTuple (map KStr P))) as G.
  { unfold getKeyHierarchy. rewrite M.
    rewrite splitIntoKeys_render by assumption. reflexivity. }
  repeat split.
  - unfold getitem. now rewrite G.
  - unfold contains. now rewrite G.
  - apply render_plain.
Qed.

(** C8, amended.  For a delimiter and segments as in C1 and a Config in
    which the leading segments lead through mappings (or are absent), the
    escaped key expression splits into exactly the segments, assigning
    through it succeeds, and reading through it returns what was assigned
    (a mapping comes back wrapped, as for every [__getitem__]). *)
Theorem escape_round_trip (c : Config) (d : char) (P : list str) (v : item) :
  isalnum d = false -> d <> backslash -> d <> carriage_return -> P <> [] ->
  (forall s, In s P -> ~ In backslash s /\ ~ In carriage_return s) ->
  mapping_path (VDict (_data c)) (removelast (map KStr P)) = true ->
  splitIntoKeys (NKey (KStr (render [d] (map KStr P)))) = Ok (map KStr P)
  /\ exists c',
       setitem c (NKey (KStr (render [d] (map KStr P)))) v = Ok c' /\
       getitem c' (NKey (KStr (render [d] (map KStr P)))) = wrap c' (stored v).
Proof.
  intros A B C NE F M.
  pose proof (splitIntoKeys_render d P A B C NE F) as S.
  split; [exact S|].
  set (e := NKey (KStr (render [d] (map KStr P)))) in *.
  assert (exists pre last,
             getKeyHierarchy c e = Ok (pre ++ [last]) /\
             mapping_path (VDict (_data c)) pre = true) as (pre & last & G & M').
  { unfold getKeyHierarchy, e. destruct (in_data c _).
    - exists [], (KStr (render [d] (map KStr P))). split; reflexivity.
    - fold e. rewrite S.
      exists (removelast (map KStr P)), (last (map KStr P) (KInt 0)).
      split; [|exact M]. f_equal. apply app_removelast_last.
      destruct P; [congruence | discriminate]. }
  destruct (setitem_total c e v pre last G M') as (c' & E).
  exists c'. split.
  - unfold setitem. now rewrite E.
  - exact (setitem_getitem c c' e v E).
Qed.

(** C10.  When the Config holds the string [s] at the path [p], every index
    [i] with [0 <= i < len(s)] extends [p] to a path that is contained, and
    reading it gives the one-character string [s[i]]. *)
Theorem string_descent (c : Config) (p : list key) (s : str) (i : Z) :
  getitem c (NTuple p) = Ok (IVal (VStr s)) ->
  (0 <= i < Z.of_nat (length s))%Z ->
  contains c (NTuple (p ++ [KInt i])) = Ok true
  /\ getitem c (NTuple (p ++ [KInt i]))
     = Ok (IVal (VStr [nth (Z.to_nat i) s 0%N])).
Proof.
  intros G R.
  destruct (getitem_tuple_inv _ _ _ G) as (h & data & F & L & W).
  apply wrap_value in W. subst data.
  pose proof (find_app p [KInt i] _ _ _ F L) as A.
  cbn [findInHierarchy checkNextItem int_of_key bind] in A.
  rewrite list_index_nonneg in A by exact R.
  rewrite (nth_error_nth' s 0%N) in A by lia.
  cbn [bind] in A.
  split.
  - unfold contains. cbn [getKeyHierarchy splitIntoKeys bind].
    now rewrite A.
  - unfold getitem. cbn [getKeyHierarchy splitIntoKeys bind].
    rewrite A. cbn [bind]. now rewrite last_of_snoc.
Qed.

End StoreClaims.

(** ** update and merge *)

Section Update.

Lemma doUpdate_items (dm um : dict) :
  doUpdate (VDict dm) (VDict um) = update_items um dm.
Proof.
  revert dm. induction um as [|[k v] rest IH]; intros dm; [reflexivity|].
  cbn [update_items]. rewrite <- IH.
  destruct v; reflexivity.
Qed.

Lemma doUpdate_dict (d u r : value) :
  doUpdate d u = Ok r ->
  exists dm um m, d = VDict dm /\ u = VDict um /\ r = VDict m.
Proof.
  destruct u as [| | | | |um]; try discriminate.
  destruct d as [| | | | |dm]; try discriminate.
  rewrite doUpdate_items. intros E. exists dm, um.
  revert dm E. induction um as [|[k v] rest IH]; intros dm E.
  - injection E as <-. eauto.
  - cbn [update_items] in E.
    destruct v; try (destruct (IH _ E) as (m & _ & _ & ->); eauto).
    unbind E. destruct (IH _ E) as (m & _ & _ & ->); eauto.
Qed.

(** The keys after an update are those of both sides. *)
Lemma update_items_mem (um : dict) :
  forall dm m k,
    update_items um dm = Ok (VDict m) ->
    dict_mem m k = dict_mem dm k || dict_mem um k.
Proof.
  induction um as [|[k0 v] rest IH]; intros dm m k E.
  - injection E as <-. now rewrite orb_false_r.
  - assert (forall x, update_items rest (dict_set dm k0 x) = Ok (VDict m) ->
                      dict_mem m k = dict_mem dm k || dict_mem ((k0, v) :: rest) k)
      as Step.
    { intros x E'. rewrite (IH _ _ _ E'), dict_mem_set.
      unfold dict_mem at 4. cbn [dict_get].
      destruct (key_eqb k0 k); cbn [orb].
      - now rewrite orb_true_r.
      - reflexivity. }
    cbn [update_items] in E. destruct v; eauto.
    unbind E. eauto.
Qed.

(** A key the incoming mapping does not have keeps its value. *)
Lemma update_items_frame (um : dict) :
  forall dm m k,
    update_items um dm = Ok (VDict m) -> dict_mem um k = false ->
    dict_get m k = dict_get dm k.
Proof.
  induction um as [|[k0 v] rest IH]; intros dm m k E M.
  - now injection E as <-.
  - unfold dict_mem in M. cbn [dict_get] in M.
    destruct (key_eqb k0 k) eqn:K; [discriminate|].
    apply key_eqb_neq in K.
    assert (forall x, update_items rest (dict_set dm k0 x) = Ok (VDict m) ->
                      dict_get m k = dict_get dm k) as Step.
    { intros x E'. rewrite (IH _ _ _ E' M). now apply dict_get_set_other. }
    cbn [update_items] in E. destruct v; eauto.
    unbind E. eauto.
Qed.

(** An incoming value that is not a mapping replaces what was there. *)
Lemma update_items_leaf (um : dict) :
  forall dm m k v,
    update_items um dm = Ok (VDict m) ->
    NoDup (dict_keys um) -> dict_get um k = Some v ->
    (forall x, v <> VDict x) ->
    dict_get m k = Some v.
Proof.
  induction um as [|[k0 v0] rest IH]; intros dm m k v E N G L; [discriminate|].
  cbn [dict_keys map fst] in N. apply NoDup_cons_iff in N as [N0 N].
  cbn [dict_get] in G. destruct (key_eqb k0 k) eqn:K.
  - injection G as ->. apply key_eqb_eq in K. subst k0.
    assert (dict_mem rest k = false) as M.
    { destruct (dict_mem rest k) eqn:M; [|reflexivity].
      exfalso. apply N0. apply dict_mem_get in M as (x & M).
      clear - M. induction rest as [|[a b] t IH]; [discriminate|].
      cbn [dict_get] in M. destruct (key_eqb a k) eqn:A.
      - apply key_eqb_eq in A. now left.
      - right. auto. }
    cbn [update_items] in E.
    destruct v; try (now rewrite (update_items_frame _ _ _ _ E M),
                              dict_get_set_same).
    now destruct (L d).
  - assert (forall x, update_items rest (dict_set dm k0 x) = Ok (VDict m) ->
                      dict_get m k = Some v) as Step.
    { intros x E'. exact (IH _ _ _ _ E' N G L). }
    cbn [update_items] in E. destruct v0; eauto.
    unbind E. eauto.
Qed.

(** *** Copying a mapping by [update] *)

Lemma dict_set_absent (m : dict) (k : key) (v : value) :
  dict_mem m k = false -> dict_set m k v = m ++ [(k, v)].
Proof.
  unfold dict_mem. induction m as [|[k0 v0] t IH]; cbn [dict_get dict_set app];
    [reflexivity|].
  destruct (key_eqb k0 k); [discriminate|]. intros E. now rewrite IH.
Qed.

Lemma dict_mem_app (m1 m2 : dict) (k : key) :
  dict_mem (m1 ++ m2) k = dict_mem m1 k || dict_mem m2 k.
Proof.
  unfold dict_mem. induction m1 as [|[k0 v0] t IH]; cbn [dict_get app];
    [reflexivity|].
  destruct (key_eqb k0 k); [reflexivity | exact IH].
Qed.

Lemma dict_mem_false_keys (m : dict) (k : key) :
  dict_mem m k = false <-> ~ In k (dict_keys m).
Proof.
  rewrite <- dict_mem_keys_iff. destruct (dict_mem m k); split; congruence.
Qed.

(** Updating with a document whose keys are unique, into a mapping that has
    none of its top-level keys, appends it unchanged. *)
Lemma update_items_append (n : nat) :
  forall um dm,
    value_size (VDict um) <= n -> unique_keys (VDict um) ->
    (forall k, In k (dict_keys um) -> dict_mem dm k = false) ->
    update_items um dm = Ok (VDict (dm ++ um)).
Proof.
  induction n as [|n IHn]; intros um dm Sz; [cbn [value_size] in Sz; lia|].
  revert dm Sz. induction um as [|[k x] t IHt]; intros dm Sz U Fresh.
  - cbn [update_items]. now rewrite app_nil_r.
  - cbn [value_size] in Sz. cbn [unique_keys dict_keys map fst] in U.
    destruct U as (N & Ux & Ut). apply NoDup_cons_iff in N as [Nk N].
    assert (dict_mem dm k = false) as Mk by (apply Fresh; now left).
    assert (update_items t (dict_set dm k x) = Ok (VDict (dm ++ (k, x) :: t)))
      as Tail.
    { rewrite (dict_set_absent dm k x Mk).
      replace (dm ++ (k, x) :: t) with ((dm ++ [(k, x)]) ++ t)
        by (now rewrite <- app_assoc).
      apply IHt.
      - cbn [value_size]. lia.
      - cbn [unique_keys]. split; assumption.
      - intros k' I. rewrite dict_mem_app, (Fresh k') by now right.
        unfold dict_mem. cbn [dict_get orb].
        destruct (key_eqb k k') eqn:E; [|reflexivity].
        apply key_eqb_eq in E. subst k'. contradiction. }
    cbn [update_items]. destruct x as [| | | | |xm]; try exact Tail.
    unfold dict_mem in Mk. destruct (dict_get dm k); [discriminate|].
    rewrite doUpdate_items, (IHn xm []).
    + cbn [bind app]. exact Tail.
    + lia.
    + exact Ux.
    + reflexivity.
Qed.

(** [Config(data)] holds a mapping equal to [data]. *)
Lemma Config_copy (D : char) (m : dict) :
  unique_keys (VDict m) ->
  update {| _data := []; _D := D; configFile := None |} m
  = Ok {| _data := m; _D := D; configFile := None |}.
Proof.
  intros U. unfold update. cbn [_data].
  rewrite doUpdate_items, (update_items_append (value_size (VDict m)) m []);
    auto.
Qed.

(** The precedence law of [merge] for a [Config] argument: the result is
    [other] updated with [self]; keys that only [other] has keep [other]'s
    values, and a value of [self] that is not a mapping is the value of the
    result. *)
Lemma merge_config_law (self other r : Config) :
  merge self (MConfig other) = Ok r ->
  update other (_data self)
  = Ok {| _data := _data r; _D := _D other; configFile := configFile other |}
  /\ (forall k, dict_mem (_data r) k
                = dict_mem (_data other) k || dict_mem (_data self) k)
  /\ (forall k, dict_mem (_data self) k = false ->
                dict_get (_data r) k = dict_get (_data other) k)
  /\ (forall k v, NoDup (dict_keys (_data self)) ->
                  dict_get (_data self) k = Some v ->
                  (forall x, v <> VDict x) ->
                  dict_get (_data r) k = Some v).
Proof.
  unfold merge. intros E. unbind E. injection E as <-. cbn [_data].
  unfold update in E0 |- *. unbind E0. rename a0 into x.
  destruct (doUpdate_dict _ _ _ E) as (_ & _ & m & _ & _ & ->).
  injection E0 as <-. cbn [_data bind]. rewrite doUpdate_items in E.
  repeat split.
  - intros k. exact (update_items_mem _ _ _ k E).
  - intros k M. exact (update_items_frame _ _ _ k E M).
  - intros k v N G L. exact (update_items_leaf _ _ _ k v E N G L).
Qed.

(** C3, the failing input.  [merge] with a [Config] argument follows the
    law ([{"b": 3}] merged with [{"a": 1, "b": 2}] is [{"a": 1, "b": 3}]),
    but with a plain [dict] argument, which the docstring allows, it raises
    [AttributeError]. *)
Theorem merge_plain_dict_raises :
  merge (Config_with [(KStr (py "b"), VInt 3)])
        (MConfig (Config_with [(KStr (py "a"), VInt 1); (KStr (py "b"), VInt 2)]))
  = Ok (Config_with [(KStr (py "a"), VInt 1); (KStr (py "b"), VInt 3)])
  /\ merge (Config_with [(KStr (py "b"), VInt 3)])
           (MDict [(KStr (py "a"), VInt 1); (KStr (py "b"), VInt 2)])
     = Err AttributeError.
Proof. split; reflexivity. Qed.

End Update.

(** ** names: the choice of a delimiter *)

Section Names.
Context {H : Host}.

Lemma next_delimiter_ok (n : nat) :
  forall d d', next_delimiter n d = Ok d' -> isalnum d' = false.
Proof.
  induction n as [|n IH]; intros d d'; cbn [next_delimiter]; [discriminate|].
  destruct (1114111 <? d + 1)%N; [discriminate|].
  destruct (isalnum (d + 1)%N) eqn:A.
  - apply IH.
  - now intros [= <-].
Qed.

Lemma advance_ok (d d' : char) : advance d = Ok d' -> isalnum d' = false.
Proof. apply next_delimiter_ok. Qed.

(** The next code point is taken when it is not alphanumeric. *)
Lemma advance_next (d : char) :
  (d + 1 <= 1114111)%N -> isalnum (d + 1)%N = false ->
  advance d = Ok (d + 1)%N.
Proof.
  intros R A. unfold advance.
  destruct (N.to_nat (1114112 - d)) as [|n] eqn:E; [lia|].
  cbn [next_delimiter]. rewrite A.
  destruct (N.ltb_spec 1114111 (d + 1)); [lia | reflexivity].
Qed.

(** A delimiter that is returned is the first candidate that does not
    occur in the combined string. *)
Lemma choose_sound (combined : str) (budget : nat) :
  forall d0 d,
    choose_delimiter budget d0 combined = Ok d ->
    exists j,
      j <= budget /\ nth_candidate j d0 = Ok d /\
      (j = 0 \/ isalnum d = false) /\ str_in [d] combined = false /\
      forall i, i < j ->
        exists d', nth_candidate i d0 = Ok d' /\ str_in [d'] combined = true.
Proof.
  induction budget as [|b IH]; intros d0 d; cbn [choose_delimiter];
    destruct (str_in [d0] combined) eqn:C; try discriminate.
  - intros [= <-]. exists 0. repeat split; auto. intros i L. lia.
  - intros E. unbind E. rename a into d1.
    destruct (IH _ _ E) as (j & L & N & A & F & Before).
    exists (S j). repeat split; auto.
    + lia.
    + cbn [nth_candidate]. rewrite E0. exact N.
    + right. destruct A as [->|A]; [|exact A].
      injection N as <-. now apply advance_ok in E0.
    + intros [|i] Li.
      * exists d0. split; [reflexivity | exact C].
      * destruct (Before i) as (d' & Nd & Cd); [lia|].
        exists d'. split; [|exact Cd].
        cbn [nth_candidate]. now rewrite E0.
  - intros [= <-]. exists 0. repeat split; auto.
    + lia.
    + intros i L. lia.
Qed.

(** When the first candidate without a collision comes within the budget,
    it is returned. *)
Lemma choose_complete (combined : str) (budget : nat) :
  forall d0 j d,
    j <= budget -> nth_candidate j d0 = Ok d ->
    str_in [d] combined = false ->
    (forall i, i < j ->
       exists d', nth_candidate i d0 = Ok d' /\ str_in [d'] combined = true) ->
    choose_delimiter budget d0 combined = Ok d.
Proof.
  induction budget as [|b IH]; intros d0 j d L N F Before.
  - assert (j = 0) as -> by lia. injection N as <-.
    cbn [choose_delimiter]. now rewrite F.
  - destruct j as [|j].
    + injection N as <-. cbn [choose_delimiter]. now rewrite F.
    + destruct (Before 0) as (d' & N0 & C0); [lia|]. injection N0 as <-.
      cbn [choose_delimiter]. rewrite C0.
      cbn [nth_candidate] in N. unbind N. rename a into d1. cbn [bind].
      apply (IH d1 j d); auto; [lia|].
      intros i Li. destruct (Before (S i)) as (d' & Nd & Cd); [lia|].
      cbn [nth_candidate] in Nd. rewrite E in Nd. eauto.
Qed.

(** When every candidate within the budget collides, the choice fails. *)
Lemma choose_exhausted (combined : str) (budget : nat) :
  forall d0,
    (forall i, i <= budget ->
       exists d, nth_candidate i d0 = Ok d /\ str_in [d] combined = true) ->
    choose_delimiter budget d0 combined = Err ValueError.
Proof.
  induction budget as [|b IH]; intros d0 All.
  - destruct (All 0) as (d & N & C); [lia|]. injection N as <-.
    cbn [choose_delimiter]. now rewrite C.
  - destruct (All 0) as (d & N & C); [lia|]. injection N as <-.
    cbn [choose_delimiter]. rewrite C.
    destruct (All 1) as (d1 & N1 & C1); [lia|].
    cbn [nth_candidate] in N1. unbind N1. injection N1 as ->.
    cbn [bind]. apply IH. intros i Li.
    destruct (All (S i)) as (d' & Nd & Cd); [lia|].
    cbn [nth_candidate] in Nd. rewrite E in Nd. eauto.
Qed.

End Names.

(** ** validate *)

Section Validate.
Context {H : Host}.

(** C6, amended.  [validate] tests every required key for membership in
    the top-level mapping [self._data] (a literal key, not a path that is
    resolved): it returns when all are there, and otherwise raises the
    [KeyError] that carries exactly the required keys that are not, all of
    them and in the order of [requiredKeys]. *)
Theorem validation_completeness (cls : SubsetClass) (self : ConfigSubset) :
  (validate cls self = Ok self <->
   forall k, In k (requiredKeys cls) -> dict_mem (_data (config self)) k = true)
  /\ (forall e, validate cls self = Err e ->
        e = MissingKeys
              (filter (fun k => negb (dict_mem (_data (config self)) k))
                      (requiredKeys cls)))
  /\ (forall missing,
        validate cls self = Err (MissingKeys missing) ->
        missing <> [] /\
        forall k, In k missing <->
                  In k (requiredKeys cls) /\
                  dict_mem (_data (config self)) k = false).
Proof.
  unfold validate.
  remember (filter (fun k => negb (dict_mem (_data (config self)) k))
                   (requiredKeys cls)) as missing eqn:Hm.
  assert (forall k, In k missing <->
                    In k (requiredKeys cls) /\
                    dict_mem (_data (config self)) k = false) as M.
  { intros k. rewrite Hm, filter_In, negb_true_iff. tauto. }
  clear Hm. destruct missing as [|k0 t].
  - repeat split; try discriminate.
    intros _ k I. destruct (dict_mem (_data (config self)) k) eqn:D; auto.
    exfalso. apply (proj2 (M k)). auto.
  - split; [split|split].
    + discriminate.
    + intros A. exfalso.
      destruct (proj1 (M k0) (or_introl eq_refl)) as [I D].
      rewrite (A k0 I) in D. discriminate.
    + now intros e [= <-].
    + intros missing [= <-]. split; [discriminate | apply M].
Qed.

End Validate.

(** ** Includes *)

Section Includes.
Context {H : Host}.

Lemma for_each_app {A S} (f : S -> A -> result S) (l1 l2 : list A) (s : S) :
  for_each f (l1 ++ l2) s = (s' <- for_each f l1 s ;; for_each f l2 s').
Proof.
  revert s. induction l1 as [|a t IH]; intros s; cbn [app for_each bind].
  - reflexivity.
  - destruct (f s a); cbn [bind]; auto.
Qed.

Lemma for_each_skip {A S} (f : S -> A -> result S) (l : list A) (s : S) :
  (forall a s, In a l -> f s a = Ok s) -> for_each f l s = Ok s.
Proof.
  induction l as [|a t IH]; intros F; cbn [for_each]; [reflexivity|].
  rewrite F by now left. cbn [bind]. apply IH. intros b s' I. apply F. now right.
Qed.

Lemma filter_single {A} (f : A -> bool) (l : list A) (x : A) :
  filter f l = [x] ->
  exists l1 l2, l = l1 ++ x :: l2 /\
                (forall a, In a l1 -> f a = false) /\
                (forall a, In a l2 -> f a = false).
Proof.
  induction l as [|a t IH]; cbn [filter]; [discriminate|].
  destruct (f a) eqn:E.
  - intros [= -> F]. exists [], t. repeat split; [intros b []|].
    intros b I. destruct (f b) eqn:B; [|reflexivity].
    assert (In b (filter f t)) as C by (apply filter_In; auto).
    rewrite F in C. destruct C.
  - intros F. destruct (IH F) as (l1 & l2 & -> & F1 & F2).
    exists (a :: l1), l2. repeat split; auto.
    intros b [<-|I]; auto.
Qed.

Lemma dict_get_remove_other (m : dict) (k k' : key) :
  k <> k' -> dict_get (dict_remove m k) k' = dict_get m k'.
Proof.
  intros N. induction m as [|[k0 v0] t IH]; [reflexivity|].
  cbn [dict_remove dict_get]. destruct (key_eqb k0 k) eqn:E.
  - apply key_eqb_eq in E. subst k0. apply key_eqb_neq in N. now rewrite N.
  - cbn [dict_get]. now rewrite IH.
Qed.

Lemma dict_keys_remove (m : dict) (k k' : key) :
  In k' (dict_keys (dict_remove m k)) -> In k' (dict_keys m).
Proof.
  induction m as [|[k0 v0] t IH]; [auto|].
  cbn [dict_remove]. destruct (key_eqb k0 k); cbn [dict_keys map fst In].
  - auto.
  - intros [E|I]; auto.
Qed.

Lemma dict_remove_NoDup (m : dict) (k : key) :
  NoDup (dict_keys m) -> NoDup (dict_keys (dict_remove m k)).
Proof.
  induction m as [|[k0 v0] t IH]; [auto|].
  cbn [dict_keys map fst]. intros N. apply NoDup_cons_iff in N as [N0 N].
  cbn [dict_remove]. destruct (key_eqb k0 k); [exact N|].
  cbn [dict_keys map fst]. apply NoDup_cons; [|now apply IH].
  intros I. apply N0. eapply dict_keys_remove; eauto.
Qed.

Lemma dict_mem_remove_same (m : dict) (k : key) :
  NoDup (dict_keys m) -> dict_mem (dict_remove m k) k = false.
Proof.
  induction m as [|[k0 v0] t IH]; [reflexivity|].
  cbn [dict_keys map fst]. intros N. apply NoDup_cons_iff in N as [N0 N].
  cbn [dict_remove]. destruct (key_eqb k0 k) eqn:E.
  - apply key_eqb_eq in E. subst k0.
    destruct (dict_mem t k) eqn:M; [|reflexivity].
    apply dict_mem_keys_iff in M. contradiction.
  - unfold dict_mem. cbn [dict_get]. rewrite E. now apply IH.
Qed.

Lemma update_inv (self r : Config) (other : dict) :
  update self other = Ok r ->
  update_items other (_data self) = Ok (VDict (_data r)) /\
  _D r = _D self /\ configFile r = configFile self.
Proof.
  unfold update. intros E. unbind E. rewrite doUpdate_items in E0.
  destruct (doUpdate_dict (VDict (_data self)) (VDict other) a) as (_ & _ & m & _ & _ & ->).
  { now rewrite doUpdate_items. }
  injection E as <-. auto.
Qed.

Lemma unique_keys_remove (m : dict) (k : key) :
  unique_keys (VDict m) -> unique_keys (VDict (dict_remove m k)).
Proof.
  cbn [unique_keys]. intros [N A]. split; [now apply dict_remove_NoDup|].
  clear N. induction m as [|[k0 v0] t IH]; [exact I|].
  cbn [dict_remove]. destruct A as [A0 A].
  destruct (key_eqb k0 k); [exact A|]. split; [exact A0 | exact (IH A)].
Qed.

Lemma is_include_snoc (basePath : list key) :
  is_include (basePath ++ [includeKey]) = true.
Proof. unfold is_include. rewrite rev_unit. apply key_eqb_refl. Qed.

(** In a merge from left to right the last file wins. *)
Lemma update_all_last (rest : list Config) :
  forall first merged front lastc k v,
    update_all first rest = Ok merged -> rest = front ++ [lastc] ->
    NoDup (dict_keys (_data lastc)) ->
    dict_get (_data lastc) k = Some v -> (forall x, v <> VDict x) ->
    dict_get (_data merged) k = Some v.
Proof.
  induction rest as [|sc t IH]; intros first merged front lastc k v E R N G L.
  - destruct front; discriminate R.
  - cbn [update_all] in E. unbind E. rename a into c.
    destruct front as [|f front].
    + injection R as -> ->. cbn [update_all] in E. injection E as <-.
      destruct (update_inv _ _ _ E0) as (Items & _ & _).
      exact (update_items_leaf _ _ _ k v Items N G L).
    + injection R as _ R. exact (IH _ _ _ _ _ _ E R N G L).
Qed.


End Includes.

(** ** Defaults *)

Section Defaults.
Context {H : Host}.

Lemma bind_ok {A} (r : result A) : (x <- r ;; Ok x) = r.
Proof. now destruct r. Qed.

(** The file of the first directory of the search path is merged last. *)
Lemma updateWithConfigsFromPath_cons (make : str -> result ConfigSubset)
  (self : ConfigSubset) (hi : str) (lower : list str) (file : str) :
  path_isabs file = false ->
  updateWithConfigsFromPath make self (hi :: lower) file
  = (s <- updateWithConfigsFromPath make self lower file ;;
     if path_exists (path_join hi file)
     then updateWithOtherConfigFile make
            {| config := config s;
               filesRead := filesRead s ++ [path_join hi file] |}
            (path_join hi file)
     else Ok s).
Proof.
  intros A. unfold updateWithConfigsFromPath. rewrite A.
  cbn [rev]. rewrite for_each_app.
  destruct (for_each _ (rev lower) self) as [s|e]; cbn [bind for_each];
    [|reflexivity].
  apply bind_ok.
Qed.

(** The default file is read in every directory that has it, the last
    directory of the search path first. *)
Lemma updateWithConfigsFromPath_filesRead (make : str -> result ConfigSubset)
  (self res : ConfigSubset) (searchPaths : list str) (file : str) :
  path_isabs file = false ->
  updateWithConfigsFromPath make self searchPaths file = Ok res ->
  filesRead res
  = filesRead self
    ++ map (fun dir => path_join dir file)
         (filter (fun dir => path_exists (path_join dir file))
                 (rev searchPaths)).
Proof.
  intros A. unfold updateWithConfigsFromPath. rewrite A.
  generalize (rev searchPaths) as l. intros l. revert self.
  induction l as [|dir t IH]; intros self E; cbn [for_each filter map] in *.
  - injection E as <-. now rewrite app_nil_r.
  - unbind E. rename a into s1. rewrite (IH _ E).
    destruct (path_exists (path_join dir file)).
    + unfold updateWithOtherConfigFile in E0. unbind E0. unbind E0.
      injection E0 as <-. cbn [filesRead map]. now rewrite <- app_assoc.
    + now injection E0 as <-.
Qed.

(** C5.  With [mergeDefaults], a default file with a relative name and no
    [cls] entry in the external config or in the defaults: the default file
    is read in every directory of the search path that has it, the last
    directory first; the file of the first directory is merged after those
    of all later directories, so its values that are not mappings are those of the
    merged defaults; the composed Config is the merged defaults updated with
    the external config, so the external values that are not mappings are
    those of the result, and keys the external config does not have keep the
    value of the defaults. *)
Theorem defaults_layering (fuel : nat) (cls : SubsetClass) (other : source)
  (validate_ : bool) (searchPaths : list str) (file : str)
  (loaded externalConfig : Config) (defaults : ConfigSubset) :
  defaultConfigFile cls = Some file ->
  path_isabs file = false ->
  Config_init fuel other = Ok loaded ->
  select_component cls loaded = Ok externalConfig ->
  updateWithConfigsFromPath (read_defaults fuel cls)
    {| config := Config_empty; filesRead := [] |}
    (searchPaths ++ defaultSearchPaths) file = Ok defaults ->
  find_pytype externalConfig (config defaults) = Ok None ->
  filesRead defaults
  = map (fun dir => path_join dir file)
      (filter (fun dir => path_exists (path_join dir file))
              (rev (searchPaths ++ defaultSearchPaths)))
  /\ (forall self hi lower hiConfig res,
     path_exists (path_join hi file) = true ->
     read_defaults fuel cls (path_join hi file) = Ok hiConfig ->
     updateWithConfigsFromPath (read_defaults fuel cls) self (hi :: lower) file
     = Ok res ->
     exists low,
       updateWithConfigsFromPath (read_defaults fuel cls) self lower file
       = Ok low /\
       update (config low) (_data (config hiConfig)) = Ok (config res) /\
       forall k v,
         NoDup (dict_keys (_data (config hiConfig))) ->
         dict_get (_data (config hiConfig)) k = Some v ->
         (forall x, v <> VDict x) ->
         dict_get (_data (config res)) k = Some v)
  /\ ConfigSubset_init (S fuel) cls other validate_ true searchPaths
     = (c <- update (config defaults) (_data externalConfig) ;;
        if validate_
        then validate cls {| config := c; filesRead := filesRead defaults |}
        else Ok {| config := c; filesRead := filesRead defaults |})
  /\ (forall r,
        ConfigSubset_init (S fuel) cls other validate_ true searchPaths = Ok r ->
        (forall k v,
           NoDup (dict_keys (_data externalConfig)) ->
           dict_get (_data externalConfig) k = Some v ->
           (forall x, v <> VDict x) ->
           dict_get (_data (config r)) k = Some v)
        /\ (forall k,
              dict_mem (_data externalConfig) k = false ->
              dict_get (_data (config r)) k
              = dict_get (_data (config defaults)) k)).
Proof.
  intros F A L Sel D P.
  assert (ConfigSubset_init (S fuel) cls other validate_ true searchPaths
          = (c <- update (config defaults) (_data externalConfig) ;;
             if validate_
             then validate cls {| config := c; filesRead := filesRead defaults |}
             else Ok {| config := c; filesRead := filesRead defaults |})) as Eq.
  { cbn [ConfigSubset_init]. unfold ConfigSubset_body.
    rewrite L. cbn [bind]. rewrite Sel. cbn [bind].
    unfold merge_defaults. rewrite F.
    change (fun file0 : str =>
              ConfigSubset_init fuel cls (SPath file0) false false [])
      with (read_defaults fuel cls).
    rewrite D. cbn [bind]. rewrite P. cbn [bind config filesRead].
    destruct (update (config defaults) (_data externalConfig)) as [c|e];
      reflexivity. }
  split; [|split; [|split; [exact Eq|]]].
  - exact (updateWithConfigsFromPath_filesRead _ _ _ _ _ A D).
  - intros self hi lower hiConfig res E R U.
    rewrite updateWithConfigsFromPath_cons in U by exact A.
    unbind U. rename a into low. rewrite E in U.
    unfold updateWithOtherConfigFile in U. rewrite R in U. cbn [bind] in U.
    unbind U. injection U as <-. cbn [config] in *.
    exists low. repeat split; auto.
    intros k v N G Lf.
    destruct (update_inv _ _ _ E1) as (Items & _ & _).
    exact (update_items_leaf _ _ _ k v Items N G Lf).
  - intros r R. rewrite Eq in R. unbind R. rename a into c.
    assert (config r = c) as ->.
    { destruct validate_; [|now injection R as <-].
      unfold validate in R. destruct (filter _ _); [|discriminate].
      now injection R as <-. }
    destruct (update_inv _ _ _ E) as (Items & _ & _).
    split.
    + intros k v N G Lf. exact (update_items_leaf _ _ _ k v Items N G Lf).
    + intros k M. exact (update_items_frame _ _ _ k Items M).
Qed.

End Defaults.

(** ** A larger depth bound changes no result *)

Section Depth.
Context {H : Host}.

Lemma for_each_mono {A S} (f g : S -> A -> result S) (l : list A) :
  (forall s a r, In a l -> f s a = Ok r -> g s a = Ok r) ->
  forall s r, for_each f l s = Ok r -> for_each g l s = Ok r.
Proof.
  induction l as [|a t IH]; intros M s r E; cbn [for_each] in *; [exact E|].
  unbind E. rewrite (M s a a0 (or_introl eq_refl) E0). cbn [bind].
  apply IH; auto. intros s' b r' I. apply M. now right.
Qed.

Lemma read_includes_mono (load load' : str -> result Config)
  (searchPaths : list str) (includes : list value) :
  (forall path c, load path = Ok c -> load' path = Ok c) ->
  forall cs,
    read_includes load searchPaths includes = Ok cs ->
    read_includes load' searchPaths includes = Ok cs.
Proof.
  intros M. induction includes as [|v t IH]; intros cs E;
    cbn [read_includes] in *; [exact E|].
  destruct v; try discriminate E.
  unbind E. unbind E. unbind E. cbn [bind]. rewrite (M _ _ E1). cbn [bind].
  rewrite (IH _ eq_refl). exact E.
Qed.

Lemma process_include_mono (load load' : str -> result Config)
  (searchPaths : list str) (self r : Config) (path : list key) :
  (forall p c, load p = Ok c -> load' p = Ok c) ->
  process_include load searchPaths self path = Ok r ->
  process_include load' searchPaths self path = Ok r.
Proof.
  intros M. unfold process_include.
  destruct (is_include path); [|auto].
  destruct (existsb is_index path); [auto|].
  intros E. unbind E. unbind E. unbind E. cbn [bind].
  rewrite (read_includes_mono load load' _ _ M _ E2). exact E.
Qed.

Lemma Config_fromFile_step (fuel : nat) (path : str) (c : Config) :
  Config_fromFile fuel path = Ok c -> Config_fromFile (S fuel) path = Ok c.
Proof.
  revert path c. induction fuel as [|f IH]; intros path c E; [discriminate E|].
  cbn [Config_fromFile] in E. unbind E. cbn [Config_fromFile].
  change (match f with
          | 0 => Err RecursionError
          | S f0 => c0 <- initFromFile path ;;
                    processExplicitIncludes (Config_fromFile f0) c0
          end) with (Config_fromFile f path).
  rewrite E0. cbn [bind]. unfold processExplicitIncludes in *.
  refine (for_each_mono _ _ _ _ _ _ E).
  intros s p r _. apply process_include_mono. exact IH.
Qed.

(** Once [Config(path)] returns within a depth, it returns the same at
    every larger depth. *)
Lemma Config_fromFile_depth (fuel fuel' : nat) (path : str) (c : Config) :
  fuel <= fuel' ->
  Config_fromFile fuel path = Ok c -> Config_fromFile fuel' path = Ok c.
Proof.
  induction 1 as [|n L IH]; [auto|]. intros E.
  apply Config_fromFile_step. auto.
Qed.

Lemma Config_init_step (fuel : nat) (other : source) (c : Config) :
  Config_init fuel other = Ok c -> Config_init (S fuel) other = Ok c.
Proof.
  destruct other; cbn [Config_init]; auto. apply Config_fromFile_step.
Qed.

Lemma updateWithConfigsFromPath_mono (make make' : str -> result ConfigSubset)
  (self r : ConfigSubset) (searchPaths : list str) (file : str) :
  (forall f c, make f = Ok c -> make' f = Ok c) ->
  updateWithConfigsFromPath make self searchPaths file = Ok r ->
  updateWithConfigsFromPath make' self searchPaths file = Ok r.
Proof.
  intros M.
  assert (forall s f x,
             updateWithOtherConfigFile make s f = Ok x ->
             updateWithOtherConfigFile make' s f = Ok x) as Other.
  { intros s f x E. unfold updateWithOtherConfigFile in *.
    unbind E. now rewrite (M _ _ E0). }
  unfold updateWithConfigsFromPath. destruct (path_isabs file).
  - destruct (path_exists file); auto.
  - apply for_each_mono. intros s dir x _.
    destruct (path_exists (path_join dir file)); auto.
Qed.

Lemma merge_defaults_mono (make make' : str -> result ConfigSubset)
  (cls : SubsetClass) (externalConfig : Config) (searchPaths : list str)
  (r : ConfigSubset * option key) :
  (forall f c, make f = Ok c -> make' f = Ok c) ->
  merge_defaults make cls externalConfig searchPaths = Ok r ->
  merge_defaults make' cls externalConfig searchPaths = Ok r.
Proof.
  intros M. unfold merge_defaults. intros E. unbind E.
  assert (match defaultConfigFile cls with
          | Some file =>
              updateWithConfigsFromPath make'
                {| config := Config_empty; filesRead := [] |}
                (searchPaths ++ defaultSearchPaths) file
          | None => Ok {| config := Config_empty; filesRead := [] |}
          end = Ok a) as ->.
  { destruct (defaultConfigFile cls); [|exact E0].
    exact (updateWithConfigsFromPath_mono _ _ _ _ _ _ M E0). }
  cbn [bind]. unbind E. rename a0 into pytype. cbn [bind].
  destruct pytype as [[c|[| | |s| |]]|]; try exact E.
  destruct (doImport s) as [ci|]; [|exact E].
  destruct (cls_defaultConfigFile ci) as [[file|]|]; try exact E.
  unbind E. now rewrite (updateWithConfigsFromPath_mono _ _ _ _ _ _ M E2).
Qed.

Lemma expand_children_mono (child child' : source -> result ConfigSubset)
  (self r : ConfigSubset) (containerKey : key) :
  (forall o c, child o = Ok c -> child' o = Ok c) ->
  expand_children child self containerKey = Ok r ->
  expand_children child' self containerKey = Ok r.
Proof.
  intros M. unfold expand_children. intros E. unbind E.
  cbn [bind]. destruct a; [|exact E].
  unbind E. cbn [bind]. unbind E. cbn [bind]. unbind E.
  erewrite for_each_mono; [exact E| |exact E3].
  intros [s idx] v x _ Ex. cbn beta iota in *. unbind Ex.
  now rewrite (M _ _ E4).
Qed.

Lemma ConfigSubset_body_mono
  (construct construct' : source -> bool -> bool -> list str -> result ConfigSubset)
  (load load' : source -> result Config)
  (cls : SubsetClass) (other : source) (validate_ mergeDefaults : bool)
  (searchPaths : list str) (r : ConfigSubset) :
  (forall o v m sp c, construct o v m sp = Ok c -> construct' o v m sp = Ok c) ->
  (forall o c, load o = Ok c -> load' o = Ok c) ->
  ConfigSubset_body construct load cls other validate_ mergeDefaults searchPaths
  = Ok r ->
  ConfigSubset_body construct' load' cls other validate_ mergeDefaults searchPaths
  = Ok r.
Proof.
  intros Mc Ml. unfold ConfigSubset_body. intros E.
  unbind E. rewrite (Ml _ _ E0). cbn [bind].
  unbind E. cbn [bind]. unbind E. destruct a1 as [self containerKey].
  assert ((if mergeDefaults
           then merge_defaults
                  (fun file => construct' (SPath file) false false [])
                  cls a0 searchPaths
           else Ok ({| config := Config_empty; filesRead := [] |}, None))
          = Ok (self, containerKey)) as ->.
  { destruct mergeDefaults; [|exact E2].
    refine (merge_defaults_mono _ _ _ _ _ _ _ E2).
    intros f c. apply Mc. }
  cbn [bind]. unbind E. cbn [bind]. unbind E.
  assert (match (if mergeDefaults then containerKey else None) with
          | Some containerKey0 =>
              expand_children
                (fun sub => construct' sub validate_ mergeDefaults searchPaths)
                {| config := a1; filesRead := filesRead self |} containerKey0
          | None => Ok {| config := a1; filesRead := filesRead self |}
          end = Ok a2) as ->.
  { destruct (if mergeDefaults then containerKey else None); [|exact E4].
    refine (expand_children_mono _ _ _ _ _ _ E4).
    intros o c. apply Mc. }
  exact E.
Qed.

Lemma ConfigSubset_init_step (fuel : nat) :
  forall cls other validate_ mergeDefaults searchPaths r,
    ConfigSubset_init fuel cls other validate_ mergeDefaults searchPaths = Ok r ->
    ConfigSubset_init (S fuel) cls other validate_ mergeDefaults searchPaths
    = Ok r.
Proof.
  induction fuel as [|f IH]; intros cls other v m sp r E; [discriminate E|].
  change (ConfigSubset_body (ConfigSubset_init (S f) cls) (Config_init (S f))
            cls other v m sp = Ok r).
  change (ConfigSubset_body (ConfigSubset_init f cls) (Config_init f)
            cls other v m sp = Ok r) in E.
  refine (ConfigSubset_body_mono _ _ _ _ _ _ _ _ _ _ _ _ E).
  - intros o v' m' sp' c. apply IH.
  - apply Config_init_step.
Qed.

(** Once a constructor returns within a depth, it returns the same at
    every larger depth. *)
Lemma ConfigSubset_init_depth (fuel fuel' : nat) (cls : SubsetClass)
  (other : source) (validate_ mergeDefaults : bool) (searchPaths : list str)
  (r : ConfigSubset) :
  fuel <= fuel' ->
  ConfigSubset_init fuel cls other validate_ mergeDefaults searchPaths = Ok r ->
  ConfigSubset_init fuel' cls other validate_ mergeDefaults searchPaths = Ok r.
Proof.
  induction 1 as [|n L IH]; [auto|]. intros E.
  apply ConfigSubset_init_step. auto.
Qed.

End Depth.

(** * Further properties of the code *)

(** ** update, merge and the copying constructor *)

Section UpdateLaws.
Context {H : Host}.

Lemma dict_keys_set (m : dict) (k : key) (v : value) :
  dict_keys (dict_set m k v)
  = dict_keys m ++ (if dict_mem m k then [] else [k]).
Proof.
  unfold dict_mem.
  induction m as [|[k0 v0] t IH]; cbn [dict_set dict_get dict_keys map fst app];
    [reflexivity|].
  destruct (key_eqb k0 k); cbn [dict_keys map fst app].
  - now rewrite app_nil_r.
  - f_equal. exact IH.
Qed.

Lemma update_items_keys (um : dict) :
  forall dm m,
    update_items um dm = Ok (VDict m) ->
    exists added, dict_keys m = dict_keys dm ++ added.
Proof.
  induction um as [|[k v] rest IH]; intros dm m E.
  - injection E as <-. exists []. now rewrite app_nil_r.
  - assert (forall x, update_items rest (dict_set dm k x) = Ok (VDict m) ->
                      exists added, dict_keys m = dict_keys dm ++ added) as Step.
    { intros x E'. destruct (IH _ _ E') as (added & ->).
      rewrite dict_keys_set, <- app_assoc. eauto. }
    cbn [update_items] in E. destruct v; eauto.
    unbind E. eauto.
Qed.

(** X1.  [update] never removes a key and never moves one: the keys of the
    result are those of [self], in their order, followed by new ones; they
    are the keys of either side; a key that [other] does not have keeps its
    value; delimiter and file stay. *)
Theorem update_keeps_keys (self r : Config) (other : dict) :
  update self other = Ok r ->
  (exists added, dict_keys (_data r) = dict_keys (_data self) ++ added)
  /\ (forall k, dict_mem (_data r) k
                = dict_mem (_data self) k || dict_mem other k)
  /\ (forall k, dict_mem other k = false ->
                dict_get (_data r) k = dict_get (_data self) k)
  /\ _D r = _D self /\ configFile r = configFile self.
Proof.
  intros E. destruct (update_inv _ _ _ E) as (Items & D & F).
  repeat split; auto.
  - exact (update_items_keys _ _ _ Items).
  - intros k. exact (update_items_mem _ _ _ k Items).
  - intros k M. exact (update_items_frame _ _ _ k Items M).
Qed.

Lemma dict_set_same (m : dict) (k : key) (v : value) :
  dict_get m k = Some v -> dict_set m k v = m.
Proof.
  induction m as [|[k0 v0] t IH]; cbn [dict_get dict_set]; [discriminate|].
  destruct (key_eqb k0 k).
  - now intros [= ->].
  - intros G. now rewrite IH.
Qed.

Lemma NoDup_keys_absent (rest : dict) (k : key) :
  ~ In k (dict_keys rest) -> dict_mem rest k = false.
Proof.
  intros N. destruct (dict_mem rest k) eqn:M; [|reflexivity].
  apply dict_mem_keys_iff in M. contradiction.
Qed.

(** Updating a second time with the same mapping changes nothing. *)
Lemma update_items_again (n : nat) :
  forall um dm m,
    value_size (VDict um) <= n -> unique_keys (VDict um) ->
    update_items um dm = Ok (VDict m) ->
    update_items um m = Ok (VDict m).
Proof.
  induction n as [|n IHn]; intros um dm m Sz; [cbn [value_size] in Sz; lia|].
  revert dm m Sz. induction um as [|[k x] t IHt]; intros dm m Sz U E.
  - reflexivity.
  - cbn [value_size] in Sz. cbn [unique_keys dict_keys map fst] in U.
    destruct U as (N & Ux & Ut). apply NoDup_cons_iff in N as [Nk N].
    pose proof (NoDup_keys_absent t k Nk) as Mk.
    assert (forall r1,
               update_items t (dict_set dm k r1) = Ok (VDict m) ->
               update_items t (dict_set m k r1) = Ok (VDict m)) as Tail.
    { intros r1 E'.
      assert (dict_get m k = Some r1) as G.
      { rewrite (update_items_frame _ _ _ k E' Mk). apply dict_get_set_same. }
      rewrite (dict_set_same _ _ _ G).
      apply (IHt (dict_set dm k r1)); auto.
      - cbn [value_size]. lia.
      - cbn [unique_keys]. split; assumption. }
    cbn [update_items] in E |- *.
    destruct x as [| | | | |xm]; try (now apply Tail).
    unbind E. rename a into r1.
    assert (dict_get m k = Some r1) as G.
    { rewrite (update_items_frame _ _ _ k E Mk). apply dict_get_set_same. }
    rewrite G.
    destruct (doUpdate_dict _ _ _ E0) as (xd & _ & rm & Ex & _ & ->).
    rewrite Ex, doUpdate_items in E0. rewrite doUpdate_items.
    rewrite (IHn xm xd rm); auto; [|lia].
    cbn [bind]. now apply Tail.
Qed.

(** X2.  [update] is idempotent: updating the result once more with the
    same mapping (keys unique in every mapping of it) gives the result
    again. *)
Theorem update_idempotent (self r : Config) (other : dict) :
  unique_keys (VDict other) ->
  update self other = Ok r ->
  update r other = Ok r.
Proof.
  intros U E. destruct (update_inv _ _ _ E) as (Items & _ & _).
  unfold update. rewrite doUpdate_items.
  rewrite (update_items_again _ _ _ _ (Nat.le_refl _) U Items).
  cbn [bind]. now destruct r.
Qed.

Lemma doUpdate_errors (n : nat) :
  forall u d e, value_size u <= n -> doUpdate d u = Err e -> e = RuntimeError.
Proof.
  induction n as [|n IHn]; intros u d e Sz E.
  { destruct u; cbn [value_size] in Sz; lia. }
  destruct u as [| | | | |um]; try (cbn [doUpdate] in E; congruence).
  destruct d as [| | | | |dm]; try (cbn [doUpdate] in E; congruence).
  rewrite doUpdate_items in E. revert dm Sz E.
  induction um as [|[k x] t IHt]; intros dm Sz E; [discriminate E|].
  cbn [value_size] in Sz.
  assert (forall y, update_items t (dict_set dm k y) = Err e ->
                    e = RuntimeError) as Tail.
  { intros y E'. apply (IHt (dict_set dm k y)); auto. cbn [value_size]. lia. }
  cbn [update_items] in E. destruct x as [| | | | |xm]; eauto.
  destruct (doUpdate _ (VDict xm)) as [r1|e1] eqn:E1; cbn [bind] in E.
  - eauto.
  - injection E as <-. eapply (IHn (VDict xm)); [lia|exact E1].
Qed.

(** X4.  [Config(mapping)] holds a mapping equal to the argument, with the
    default delimiter and no file; [Config(config)] holds the mapping of
    the argument, and forgets its file. *)
Theorem Config_init_copies (fuel : nat) (d : dict) :
  unique_keys (VDict d) ->
  Config_init fuel (SMapping d)
  = Ok {| _data := d; _D := Config_D; configFile := None |}
  /\ forall c, _data c = d ->
       Config_init fuel (SConfig c) = Config_init fuel (SMapping d).
Proof.
  intros U.
  assert (Config_init fuel (SMapping d)
          = Ok {| _data := d; _D := Config_D; configFile := None |}) as E.
  { cbn [Config_init]. unfold update, Config_empty. cbn [_data _D configFile].
    rewrite doUpdate_items,
      (update_items_append (value_size (VDict d)) d []); auto. }
  split; [exact E|].
  intros c <-. rewrite E. reflexivity.
Qed.

(** X5.  [merge] with a [Config] argument never overwrites: the result is
    [other] updated with [self], it has the keys of both, a key that only
    [other] has keeps the value of [other], and a value of [self] that is
    not a mapping stays. *)
Theorem merge_keeps_self (self other r : Config) :
  merge self (MConfig other) = Ok r ->
  update other (_data self)
  = Ok {| _data := _data r; _D := _D other; configFile := configFile other |}
  /\ (exists added,
        dict_keys (_data r) = dict_keys (_data other) ++ added)
  /\ (forall k, dict_mem (_data r) k
                = dict_mem (_data other) k || dict_mem (_data self) k)
  /\ (forall k, dict_mem (_data self) k = false ->
                dict_get (_data r) k = dict_get (_data other) k)
  /\ (forall k v, NoDup (dict_keys (_data self)) ->
                  dict_get (_data self) k = Some v ->
                  (forall x, v <> VDict x) ->
                  dict_get (_data r) k = Some v)
  /\ _D r = _D self /\ configFile r = configFile self.
Proof.
  unfold merge. intros E. unbind E. injection E as <-. cbn [_data _D configFile].
  unfold update in E0 |- *. unbind E0. rename a0 into x.
  destruct (doUpdate_dict _ _ _ E) as (_ & _ & m & _ & _ & ->).
  injection E0 as <-. cbn [_data bind]. rewrite doUpdate_items in E.
  repeat split.
  - exact (update_items_keys _ _ _ E).
  - intros k. exact (update_items_mem _ _ _ k E).
  - intros k M. exact (update_items_frame _ _ _ k E M).
  - intros k v N G L. exact (update_items_leaf _ _ _ k v E N G L).
Qed.

End UpdateLaws.

(** ** Lookup, assignment and deletion at a path *)

Section StoreLaws.
Context {H : Host}.

Local Abbreviation dead v := (v = VNone \/ exists s : str, v = VStr s).

Lemma unique_keys_get (m : dict) (k : key) (x : value) :
  unique_keys (VDict m) -> dict_get m k = Some x -> unique_keys x.
Proof.
  cbn [unique_keys]. intros [_ A].
  induction m as [|[k0 v0] t IH]; cbn [dict_get]; [discriminate|].
  destruct A as [Ux At]. destruct (key_eqb k0 k); [|now apply IH].
  now intros [= <-].
Qed.

Lemma unique_keys_nth (l : list value) :
  forall n x, unique_keys (VList l) -> nth_error l n = Some x -> unique_keys x.
Proof.
  cbn [unique_keys].
  induction l as [|y t IH]; intros [|n] x A E; cbn [nth_error] in E;
    try discriminate; destruct A as [Uy At].
  - now injection E as <-.
  - exact (IH _ _ At E).
Qed.

Lemma unique_keys_check (k : key) (d d1 x : value) (b : bool) :
  unique_keys d -> checkNextItem k d false = Ok (d1, x, b) -> unique_keys x.
Proof.
  intros U. destruct d as [| | |s|l|m]; cbn [checkNextItem]; try discriminate.
  - now intros [= _ <- _].
  - destruct (int_of_key k) as [i|].
    + destruct (list_index s i); now intros [= _ <- _].
    + destruct k; [|discriminate]. now intros [= _ <- _].
  - destruct (int_of_key k) as [i|].
    + unfold list_index. destruct (norm_index l i) as [n|].
      * destruct (nth_error l n) as [y|] eqn:N; intros [= _ <- _];
          [exact (unique_keys_nth _ _ _ U N)|exact I].
      * now intros [= _ <- _].
    + now intros [= _ <- _].
  - destruct (dict_get m k) as [y|] eqn:G; intros [= _ <- _];
      [exact (unique_keys_get _ _ _ U G)|exact I].
Qed.

Lemma unique_keys_node (ks : list key) :
  forall d x, unique_keys d -> node_at d ks = Ok x -> unique_keys x.
Proof.
  induction ks as [|k ks IH]; intros d x U E.
  - now injection E as <-.
  - cbn [node_at] in E. unbind E. destruct a as [[d1 nv] t].
    destruct t; [|discriminate].
    exact (IH _ _ (unique_keys_check _ _ _ _ _ U E0) E).
Qed.

(** The descent without [create] and the node a path leads to *)
Lemma find_cases (ks : list key) :
  forall d,
    match findInHierarchy d ks with
    | Ok (_, true) => exists x, node_at d ks = Ok x
    | Ok (_, false) => node_at d ks = Err KeyError
    | Err e => node_at d ks = Err e
    end.
Proof.
  induction ks as [|k ks IH]; intros d; cbn [findInHierarchy node_at].
  - eauto.
  - destruct (checkNextItem k d false) as [[[d1 nv] t]|e]; cbn [bind];
      [|reflexivity].
    destruct t; [|reflexivity].
    specialize (IH nv).
    destruct (findInHierarchy nv ks) as [[h c]|e]; cbn [bind]; exact IH.
Qed.

Lemma keys_nonempty (c : Config) (n : name) (keys : list key) :
  n <> NTuple [] -> getKeyHierarchy c n = Ok keys -> keys <> [].
Proof.
  intros N. destruct n as [k|ks]; cbn [getKeyHierarchy splitIntoKeys].
  - destruct (in_data c (NKey k)); [now intros [= <-]|].
    destruct k as [s|z]; [|now intros [= <-]].
    destruct s as [|d rest]; [discriminate|].
    destruct (isalnum d); [now intros [= <-]|].
    destruct (str_in [backslash; d] rest).
    + destruct (str_in (backslash :: [backslash; d]) rest); [discriminate|].
      destruct (str_in [carriage_return] rest || N.eqb d carriage_return);
        [discriminate|].
      intros [= <-] E. apply map_eq_nil in E. exact (split_not_nil _ _ E).
    + intros [= <-] E. apply map_eq_nil in E. exact (split_not_nil _ _ E).
  - intros [= <-] E. apply N. now rewrite E.
Qed.

Lemma wrap_total (c : Config) (x : value) :
  unique_keys x -> exists r, wrap c x = Ok r.
Proof.
  intros U. destruct x as [| | | | |m]; cbn [wrap]; eauto.
  unfold Config_of_dict. rewrite (Config_copy _ _ U). cbn [bind]. eauto.
Qed.

(** X6.  [name in c] and [c[name]] agree: for a name other than the empty
    tuple, in a Config with unique keys, [name in c] is true exactly when
    [c[name]] returns, false exactly when it raises [KeyError], and raises
    what [c[name]] raises otherwise.  For the empty tuple [() in c] is true
    and [c[()]] raises [IndexError]. *)
Theorem contains_agrees_with_getitem (c : Config) (n : name) :
  unique_keys (VDict (_data c)) ->
  (n <> NTuple [] ->
   match contains c n with
   | Ok true => exists x, getitem c n = Ok x
   | Ok false => getitem c n = Err KeyError
   | Err e => getitem c n = Err e
   end)
  /\ contains c (NTuple []) = Ok true
  /\ getitem c (NTuple []) = Err IndexError.
Proof.
  intros U. split; [|split; reflexivity].
  intros N. unfold contains.
  destruct (getKeyHierarchy c n) as [keys|e] eqn:G; cbn [bind].
  - rewrite (getitem_node _ _ _ G (keys_nonempty _ _ _ N G)).
    pose proof (find_cases keys (VDict (_data c))) as F.
    destruct (findInHierarchy (VDict (_data c)) keys) as [[h t]|e];
      cbn [bind].
    + destruct t.
      * destruct F as (x & F). rewrite F. cbn [bind].
        exact (wrap_total c x (unique_keys_node _ _ _ U F)).
      * now rewrite F.
    + now rewrite F.
  - unfold getitem. now rewrite G.
Qed.

(** Assignment below a node that exists: the descent reaches the node and
    the outcome is that of the assignment to it. *)
Lemma set_walk_parent (last : key) (v : value) (pre : list key) :
  forall d p,
    node_at d pre = Ok p -> ~ dead p ->
    match assign p last v with
    | Ok p' => exists d', set_walk d pre last v = Ok (d', true) /\
                          node_at d' pre = Ok p'
    | Err e => set_walk d pre last v = Err e
    end.
Proof.
  induction pre as [|k ks IH]; intros d p E N.
  - injection E as ->. cbn [set_walk node_at].
    destruct (assign p last v); cbn [bind]; eauto.
  - cbn [node_at] in E. unbind E. destruct a as [[d1 nv] t].
    destruct t; [|discriminate].
    pose proof (check_found_create _ _ _ _ E0) as C.
    cbn [set_walk]. rewrite C. cbn [bind].
    specialize (IH _ _ E N).
    destruct (assign p last v) as [p'|e].
    + destruct IH as (child & Sc & Nc). rewrite Sc. cbn [bind].
      eexists. split; [reflexivity|].
      destruct (check_put _ _ _ _ _ C) as [D|P].
      * exfalso. exact (N (node_at_dead _ _ _ D E)).
      * cbn [node_at]. rewrite P. cbn [bind]. exact Nc.
    + rewrite IH. reflexivity.
Qed.

Lemma nth_error_set_nth_other {A} (l : list A) (x : A) :
  forall n m, n <> m -> nth_error (set_nth l n x) m = nth_error l m.
Proof.
  induction l as [|a t IH]; intros [|n] [|m] N; cbn [set_nth nth_error];
    try reflexivity; try congruence.
  apply IH. congruence.
Qed.

Lemma list_index_defined {A} (l : list A) (i : Z) :
  list_index l i = None -> norm_index l i = None.
Proof.
  unfold list_index. destruct (norm_index l i) as [n|] eqn:E; [|reflexivity].
  intros X. apply norm_index_lt in E. apply nth_error_None in X. lia.
Qed.

(** X7.  Assignment to a list element, [c[pre + (i,)] = v] where [pre]
    leads to a list: for an index in range (a negative one counts from the
    end) the element is replaced in place, the list keeps its length and its
    other elements, and the new element is read back; for an index out of
    range [IndexError] is raised, the list is never extended. *)
Theorem list_item_assignment (c : Config) (pre : list key) (l : list value)
  (i : Z) (v : item) :
  node_at (VDict (_data c)) pre = Ok (VList l) ->
  match list_index l i with
  | Some _ =>
      exists c' l',
        setitem c (NTuple (pre ++ [KInt i])) v = Ok c' /\
        node_at (VDict (_data c')) pre = Ok (VList l') /\
        length l' = length l /\
        list_index l' i = Some (stored v) /\
        (forall j, norm_index l j <> norm_index l i ->
                   list_index l' j = list_index l j) /\
        getitem c' (NTuple (pre ++ [KInt i])) = wrap c' (stored v)
  | None => setitem c (NTuple (pre ++ [KInt i])) v = Err IndexError
  end.
Proof.
  intros E.
  assert (~ dead (VList l)) as N by (intros [X|[s X]]; discriminate X).
  pose proof (set_walk_parent (KInt i) (stored v) pre _ _ E N) as W.
  cbn [assign] in W.
  assert (forall r, setitem_flag c (NTuple (pre ++ [KInt i])) v = r ->
                    r = ('(d, complete) <-
                           set_walk (VDict (_data c)) pre (KInt i) (stored v) ;;
                         c0 <- with_data c d ;; Ok (c0, complete))) as Unf.
  { intros r <-. unfold setitem_flag.
    cbn [getKeyHierarchy splitIntoKeys bind]. rewrite pop_snoc. reflexivity. }
  destruct (list_index l i) as [old|] eqn:I.
  - destruct (list_assign l i (stored v)) as [l'|] eqn:A.
    2:{ destruct (list_assign_defined l i old (stored v) I) as (l' & A').
        congruence. }
    destruct W as (d' & Sw & Nd).
    destruct (set_walk_top _ _ _ _ _ _ Sw) as (m' & -> & _).
    assert (setitem_flag c (NTuple (pre ++ [KInt i])) v
            = Ok ({| _data := m'; _D := _D c; configFile := configFile c |},
                  true)) as F.
    { rewrite (Unf _ eq_refl), Sw. reflexivity. }
    exists {| _data := m'; _D := _D c; configFile := configFile c |}, l'.
    split; [unfold setitem; now rewrite F|].
    split; [exact Nd|].
    assert (length l' = length l) as L.
    { unfold list_assign in A. destruct (norm_index l i); [|discriminate].
      injection A as <-. apply set_nth_length. }
    split; [exact L|].
    split; [exact (list_index_assign _ _ _ _ A)|].
    split; [|exact (setitem_getitem _ _ _ _ F)].
    intros j J. unfold list_index.
    rewrite (norm_index_same_length l l' j L).
    destruct (norm_index l j) as [n|]; [|reflexivity].
    unfold list_assign in A. destruct (norm_index l i) as [n0|];
      [|discriminate]. injection A as <-.
    apply nth_error_set_nth_other. congruence.
  - apply list_index_defined in I. unfold list_assign in W. rewrite I in W.
    unfold setitem. rewrite (Unf _ eq_refl), W. reflexivity.
Qed.

Lemma del_walk_absent (last : key) (pre : list key) :
  forall d node,
    node_at d pre = Ok (VDict node) -> dict_mem node last = false ->
    del_walk d pre last = Err KeyError.
Proof.
  induction pre as [|k ks IH]; intros d node E M.
  - injection E as ->. cbn [del_walk delete]. now rewrite M.
  - cbn [node_at] in E. unbind E. destruct a as [[d1 nv] t].
    destruct t; [|discriminate].
    cbn [del_walk]. rewrite E0. cbn [bind].
    now rewrite (IH _ _ E M).
Qed.

(** The flag of a descent that continues below a node that exists *)
Lemma find_flag_app (p ks : list key) :
  forall d x,
    node_at d p = Ok x ->
    ('(_, complete) <- findInHierarchy d (p ++ ks) ;; Ok complete)
    = ('(_, complete) <- findInHierarchy x ks ;; Ok complete).
Proof.
  induction p as [|k p IH]; intros d x E.
  - now injection E as ->.
  - cbn [node_at] in E. unbind E. destruct a as [[d1 nv] t].
    destruct t; [|discriminate].
    cbn [app findInHierarchy]. rewrite E0. cbn [bind].
    specialize (IH _ _ E).
    destruct (findInHierarchy nv (p ++ ks)) as [[h c]|e];
      destruct (findInHierarchy x ks) as [[h' c']|e']; cbn [bind] in IH |- *;
      congruence.
Qed.

(** X8.  Deletion of a key of the mapping that [pre] leads to,
    [del c[pre + (last,)]]: a key that is there is removed from that mapping
    and from nothing else, and afterwards it is not in the Config and
    reading it raises [KeyError]; a key that is not there raises
    [KeyError]. *)
Theorem delitem_removes_key (c : Config) (pre : list key) (last : key)
  (node : dict) :
  node_at (VDict (_data c)) pre = Ok (VDict node) ->
  NoDup (dict_keys node) ->
  if dict_mem node last then
    exists c',
      delitem c (NTuple (pre ++ [last])) = Ok c' /\
      node_at (VDict (_data c')) pre = Ok (VDict (dict_remove node last)) /\
      (forall k, k <> last ->
                 dict_get (dict_remove node last) k = dict_get node k) /\
      contains c' (NTuple (pre ++ [last])) = Ok false /\
      getitem c' (NTuple (pre ++ [last])) = Err KeyError
  else delitem c (NTuple (pre ++ [last])) = Err KeyError.
Proof.
  intros E N.
  assert (delitem c (NTuple (pre ++ [last]))
          = (d <- del_walk (VDict (_data c)) pre last ;; with_data c d)) as Unf.
  { unfold delitem. cbn [getKeyHierarchy splitIntoKeys bind].
    rewrite pop_snoc. reflexivity. }
  destruct (dict_mem node last) eqn:M.
  - destruct (del_walk_total _ _ _ _ E M) as (d' & Dw & Nd).
    destruct (del_walk_dict _ _ _ _ Dw) as (m' & ->).
    exists {| _data := m'; _D := _D c; configFile := configFile c |}.
    split; [rewrite Unf, Dw; reflexivity|].
    cbn [_data]. split; [exact Nd|].
    split; [intros k K; apply dict_get_remove_other; congruence|].
    pose proof (dict_mem_remove_same node last N) as Gone.
    unfold dict_mem in Gone.
    destruct (dict_get (dict_remove node last) last) eqn:G; [discriminate|].
    split.
    + unfold contains. cbn [getKeyHierarchy splitIntoKeys bind _data].
      rewrite (find_flag_app pre [last] _ _ Nd).
      cbn [findInHierarchy checkNextItem]. rewrite G. reflexivity.
    + rewrite (getitem_node
                 {| _data := m'; _D := _D c; configFile := configFile c |}
                 (NTuple (pre ++ [last])) (pre ++ [last]) eq_refl).
      2:{ intros X. now apply app_eq_nil in X as [_ X]. }
      cbn [_data]. rewrite node_at_app, Nd. cbn [bind node_at checkNextItem].
      rewrite G. reflexivity.
  - rewrite Unf, (del_walk_absent _ _ _ _ E M). reflexivity.
Qed.

Lemma set_walk_frame (m : dict) (pre : list key) (last : key) (v d' : value)
  (flag : bool) :
  set_walk (VDict m) pre last v = Ok (d', flag) ->
  exists m', d' = VDict m' /\
    forall k, hd last pre <> k -> dict_get m' k = dict_get m k.
Proof.
  destruct pre as [|k0 ks]; cbn [set_walk hd assign bind].
  - intros [= <- _]. eexists. split; [reflexivity|].
    intros k K. now apply dict_get_set_other.
  - cbn [checkNextItem]. destruct (dict_get m k0) as [x|] eqn:G; cbn [bind].
    + intros E. unbind E. destruct a as [child complete].
      injection E as <- _. eexists. split; [reflexivity|].
      intros k K. now apply dict_get_set_other.
    + intros E. unbind E. destruct a as [child complete].
      injection E as <- _. eexists. split; [reflexivity|].
      intros k K. now rewrite !dict_get_set_other.
Qed.

Lemma del_walk_frame (m : dict) (pre : list key) (last : key) (d' : value) :
  del_walk (VDict m) pre last = Ok d' ->
  exists m', d' = VDict m' /\
    forall k, hd last pre <> k -> dict_get m' k = dict_get m k.
Proof.
  destruct pre as [|k0 ks]; cbn [del_walk hd delete].
  - destruct (dict_mem m last); [|discriminate]. intros [= <-].
    eexists. split; [reflexivity|].
    intros k K. now apply dict_get_remove_other.
  - intros E. unbind E. destruct a as [[d1 nv] t].
    destruct t; [|discriminate]. unbind E. injection E as <-.
    cbn [put_child]. eexists. split; [reflexivity|].
    intros k K. now apply dict_get_set_other.
Qed.

(** X9.  Assignment and deletion are local: [c[name] = v] and
    [del c[name]] change nothing under a top-level key other than the first
    segment of the path that [name] stands for, they keep the delimiter and
    the file, and the same name stands for the same path afterwards. *)
Theorem setitem_delitem_local (c : Config) (n : name) (first : key)
  (rest : list key) :
  getKeyHierarchy c n = Ok (first :: rest) ->
  (forall v c',
     setitem c n v = Ok c' ->
     (forall k, k <> first -> dict_get (_data c') k = dict_get (_data c) k)
     /\ _D c' = _D c /\ configFile c' = configFile c
     /\ getKeyHierarchy c' n = Ok (first :: rest))
  /\ (forall c',
        delitem c n = Ok c' ->
        (forall k, k <> first -> dict_get (_data c') k = dict_get (_data c) k)
        /\ _D c' = _D c /\ configFile c' = configFile c).
Proof.
  intros G.
  assert (forall pre last, first :: rest = pre ++ [last] ->
                           hd last pre = first) as Hd.
  { intros [|k0 pre] last X; injection X as -> _; reflexivity. }
  split.
  - intros v c' Sv. unfold setitem in Sv. unbind Sv. destruct a as [c0 flag].
    injection Sv as ->.
    pose proof (setitem_keys_stable _ _ _ _ _ _ G E) as G'.
    unfold setitem_flag in E. rewrite G in E. cbn [bind] in E.
    unbind E. destruct a as [pre last]. apply pop_inv in E0.
    unbind E. destruct a as [d' complete].
    destruct (set_walk_frame _ _ _ _ _ _ E1) as (m' & -> & Fr).
    cbn [with_data bind] in E. injection E as <- _. cbn [_data _D configFile].
    repeat split; auto.
    intros k K. apply Fr. rewrite (Hd _ _ E0). congruence.
  - intros c' Dv. unfold delitem in Dv. rewrite G in Dv. cbn [bind] in Dv.
    unbind Dv. destruct a as [pre last]. apply pop_inv in E.
    unbind Dv. rename a into d'.
    destruct (del_walk_frame _ _ _ _ E0) as (m' & -> & Fr).
    cbn [with_data] in Dv. injection Dv as <-. cbn [_data _D configFile].
    repeat split; auto.
    intros k K. apply Fr. rewrite (Hd _ _ E). congruence.
Qed.

End StoreLaws.

(** ** Key paths: splitting a name and rendering it again *)

Section PathLaws.
Context {H : Host}.

Lemma join_push (d : char) (x h : str) (r : list str) :
  join [d] ((x ++ h) :: r) = x ++ join [d] (h :: r).
Proof. destruct r; cbn [join]; [reflexivity|]. now rewrite <- app_assoc. Qed.

Lemma split_cons_other (d c : char) (t : str) :
  c <> d ->
  exists h r, split d t = h :: r /\ split d (c :: t) = (c :: h) :: r.
Proof.
  intros N. cbn [split]. destruct (N.eqb_spec c d); [contradiction|].
  destruct (split d t) as [|h r] eqn:E;
    [exfalso; exact (split_not_nil _ _ E)|eauto].
Qed.

Lemma split_cons_sep (d : char) (t : str) : split d (d :: t) = [] :: split d t.
Proof. cbn [split]. now rewrite N.eqb_refl. Qed.

Lemma map_split_not_nil {B} (f : str -> B) (d : char) (s : str) :
  map f (split d s) <> [].
Proof. intros E. apply map_eq_nil in E. exact (split_not_nil _ _ E). Qed.

(** Joining the segments of a split gives the string back; the segments hold
    no delimiter, so that escaping changes none. *)
Lemma join_esc_split (d : char) (s : str) :
  join [d] (map (replace [d] [backslash; d]) (split d s)) = s.
Proof.
  induction s as [|c t IH]; [reflexivity|].
  destruct (N.eqb_spec c d) as [->|N].
  - rewrite split_cons_sep. cbn [map].
    rewrite join_cons by apply map_split_not_nil.
    rewrite IH. reflexivity.
  - destruct (split_cons_other d c t N) as (h & r & E1 & E2).
    rewrite E2. rewrite E1 in IH. cbn [map] in IH |- *.
    rewrite replace_char. cbn [flat_map].
    destruct (N.eqb_spec d c); [congruence|].
    rewrite <- replace_char, (join_push d [c]). cbn [app]. now rewrite IH.
Qed.

Local Abbreviation unescape d :=
  (replace_from [backslash; d] [carriage_return] 0).
Local Abbreviation reescape d :=
  (fun h : str => replace [d] [backslash; d] (replace [carriage_return] [d] h)).

Lemma reescape_cons (d c : char) (h : str) :
  c <> d ->
  reescape d (c :: h)
  = (if N.eqb carriage_return c then [backslash; d] else [c]) ++ reescape d h.
Proof.
  intros N. cbn beta. rewrite !replace_char_char, !replace_char.
  cbn [map flat_map].
  destruct (N.eqb carriage_return c).
  - now rewrite N.eqb_refl.
  - destruct (N.eqb_spec d c); [congruence|reflexivity].
Qed.

Lemma unescape_backslash (d c : char) (t : str) :
  c <> d ->
  unescape d (backslash :: c :: t) = backslash :: unescape d (c :: t).
Proof.
  intros N.
  change (unescape d (backslash :: c :: t))
    with (if startswith [backslash; d] (backslash :: c :: t)
          then [carriage_return]
               ++ replace_from [backslash; d] [carriage_return]
                    (length [backslash; d] - 1) (c :: t)
          else backslash :: unescape d (c :: t)).
  cbn [startswith]. destruct (N.eqb_spec d c); [congruence|].
  now rewrite andb_false_r.
Qed.

Lemma join_reescape_split (d : char) :
  d <> backslash -> d <> carriage_return ->
  forall n rest,
    length rest <= n -> ~ In carriage_return rest ->
    join [d] (map (reescape d) (split d (unescape d rest))) = rest.
Proof.
  intros B C. induction n as [|n IH]; intros rest L NC.
  { destruct rest; [reflexivity|cbn [length] in L; lia]. }
  destruct rest as [|c t]; [reflexivity|].
  cbn [length] in L.
  assert (~ In carriage_return t) as NCt by (intros X; apply NC; now right).
  assert (c <> carriage_return) as Cc by (intros ->; apply NC; now left).
  assert (forall u : str,
             join [d] (map (reescape d) (split d u)) = t -> c <> d ->
             N.eqb carriage_return c = false ->
             join [d] (map (reescape d) (split d (c :: u))) = c :: t) as Keep.
  { intros u J N R.
    destruct (split_cons_other d c u N) as (h & r & E1 & E2).
    rewrite E2. rewrite E1 in J. cbn [map] in J |- *.
    rewrite (reescape_cons d c h N), R, (join_push d [c]). cbn [app].
    now rewrite J. }
  assert (N.eqb carriage_return c = false) as R
    by (apply N.eqb_neq; congruence).
  destruct (N.eq_dec c backslash) as [->|NB].
  - destruct t as [|c2 t'].
    + change (unescape d [backslash]) with [backslash].
      apply Keep; [reflexivity|congruence|exact R].
    + destruct (N.eq_dec c2 d) as [->|N2].
      * rewrite (unesc_escaped d t').
        destruct (split_cons_other d carriage_return (unescape d t'))
          as (h & r & E1 & E2); [congruence|].
        rewrite E2. cbn [map].
        rewrite (reescape_cons d carriage_return h) by congruence.
        rewrite N.eqb_refl, (join_push d [backslash; d]). cbn [app].
        do 2 f_equal.
        assert (join [d] (map (reescape d) (split d (unescape d t'))) = t')
          as J.
        { apply IH; [cbn [length] in L; lia|].
          intros X. apply NCt. now right. }
        rewrite E1 in J. exact J.
      * rewrite (unescape_backslash d c2 t' N2).
        apply Keep; [|congruence|exact R].
        apply IH; [lia|exact NCt].
  - destruct (N.eq_dec c d) as [->|N].
    + rewrite (unesc_other d d t B), split_cons_sep. cbn [map].
      rewrite join_cons by apply map_split_not_nil.
      change (replace [d] [backslash; d] (replace [carriage_return] [d] []))
        with (@nil char).
      cbn [app]. f_equal. apply IH; [lia|exact NCt].
    + rewrite (unesc_other d c t NB).
      apply Keep; [|exact N|exact R].
      apply IH; [lia|exact NCt].
Qed.

(** X10.  Splitting and rendering are inverse also in this direction: when
    a delimited string (its first character the delimiter, which is not
    alphanumeric and not the backslash) is split into keys, rendering these
    keys with the same delimiter gives the string back. *)
Theorem render_splitIntoKeys (d : char) (rest : str) (ks : list key) :
  isalnum d = false -> d <> backslash ->
  splitIntoKeys (NKey (KStr (d :: rest))) = Ok ks ->
  render [d] ks = d :: rest.
Proof.
  intros A B. unfold splitIntoKeys. rewrite A.
  destruct (str_in [backslash; d] rest).
  - destruct (str_in (backslash :: _) rest); [discriminate|].
    destruct (str_in [carriage_return] rest) eqn:C; [discriminate|].
    destruct (N.eqb_spec d carriage_return) as [|C']; [discriminate|].
    cbn [orb]. intros [= <-]. unfold render. rewrite map_map.
    cbn [str_of_key app]. f_equal.
    apply (join_reescape_split d B C' (length rest) rest (Nat.le_refl _)).
    now apply str_in_char_false.
  - intros [= <-]. unfold render. rewrite map_map. cbn [str_of_key app].
    f_equal. apply join_esc_split.
Qed.

End PathLaws.

(** ** nameTuples and names: every name leads somewhere *)

Section NamesLaws.
Context {H : Host}.

Lemma next_delimiter_spec (n : nat) :
  forall d, (1114112 - d <= N.of_nat n)%N ->
    match next_delimiter n d with
    | Ok d' => (d < d' <= 1114111)%N /\ isalnum d' = false /\
               forall x, (d < x < d')%N -> isalnum x = true
    | Err e => e = ValueError /\
               forall x, (d < x <= 1114111)%N -> isalnum x = true
    end.
Proof.
  induction n as [|n IH]; intros d F; cbn [next_delimiter].
  - split; [reflexivity|]. intros x X. lia.
  - destruct (N.ltb_spec 1114111 (d + 1)).
    + split; [reflexivity|]. intros x X. lia.
    + destruct (isalnum (d + 1)%N) eqn:A.
      * assert (1114112 - (d + 1) <= N.of_nat n)%N as F' by lia.
        specialize (IH (d + 1)%N F').
        destruct (next_delimiter n (d + 1)%N) as [d'|e].
        -- destruct IH as (R & A' & B). split; [lia|]. split; [exact A'|].
           intros x X. destruct (N.eq_dec x (d + 1)) as [->|NE]; [exact A|].
           apply B. lia.
        -- destruct IH as (-> & B). split; [reflexivity|].
           intros x X. destruct (N.eq_dec x (d + 1)) as [->|NE]; [exact A|].
           apply B. lia.
      * split; [lia|]. split; [exact A|]. intros x X. lia.
Qed.

Lemma advance_cases (d : char) :
  match advance d with
  | Ok d' => (d < d' <= 1114111)%N /\ isalnum d' = false /\
             forall x, (d < x < d')%N -> isalnum x = true
  | Err e => e = ValueError /\
             forall x, (d < x <= 1114111)%N -> isalnum x = true
  end.
Proof. apply next_delimiter_spec. lia. Qed.

(** X11.  The step from one candidate delimiter to the next, [advance]:
    it returns the least code point above [d] that is not alphanumeric, and
    raises [ValueError] exactly when every code point above [d], up to
    U+10FFFF, is alphanumeric. *)
Theorem advance_least (d : char) :
  (forall d', advance d = Ok d' <->
     (d < d' <= 1114111)%N /\ isalnum d' = false /\
     forall x, (d < x < d')%N -> isalnum x = true)
  /\ (forall e, advance d = Err e <->
        e = ValueError /\ forall x, (d < x <= 1114111)%N -> isalnum x = true).
Proof.
  pose proof (advance_cases d) as C. split.
  - intros d'. destruct (advance d) as [d0|e].
    + destruct C as (R & A & B). split.
      * now intros [= <-].
      * intros (R' & A' & B'). f_equal.
        destruct (N.lt_trichotomy d0 d') as [L|[E|L]]; [|exact E|].
        -- rewrite (B' d0) in A by lia. discriminate.
        -- rewrite (B d') in A' by lia. discriminate.
    + destruct C as (-> & B). split; [discriminate|].
      intros (R' & A' & _). rewrite (B d') in A' by lia. discriminate.
  - intros e. destruct (advance d) as [d0|e0].
    + destruct C as (R & A & _). split; [discriminate|].
      intros (_ & B'). rewrite (B' d0) in A by lia. discriminate.
    + destruct C as (-> & B). split.
      * intros [= <-]. auto.
      * now intros (-> & _).
Qed.

Lemma nth_candidate_ge (j : nat) :
  forall d0 d, nth_candidate j d0 = Ok d -> (d0 <= d)%N.
Proof.
  induction j as [|j IH]; intros d0 d E; cbn [nth_candidate] in E.
  - injection E as <-. lia.
  - unbind E. apply IH in E. pose proof (advance_cases d0) as C.
    rewrite E0 in C. lia.
Qed.

Lemma getKeysAsTuples_dict (base : list key) (k : key) (val : value)
  (t : dict) :
  getKeysAsTuples (VDict ((k, val) :: t)) base
  = (base ++ [k]) ::
    match val with
    | VDict _ | VList _ => getKeysAsTuples val (base ++ [k])
    | _ => []
    end ++ getKeysAsTuples (VDict t) base.
Proof. reflexivity. Qed.

Lemma getKeysAsTuples_list (base : list key) (l : list value) :
  getKeysAsTuples (VList l) base = tuples_from base l 0.
Proof.
  cbn [getKeysAsTuples]. generalize 0%Z.
  induction l as [|val t IH]; intros i; [reflexivity|].
  cbn [tuples_from]. rewrite <- IH. reflexivity.
Qed.

Lemma unique_keys_entry (m : dict) (k : key) (v : value) :
  unique_keys (VDict m) -> In (k, v) m -> unique_keys v.
Proof.
  cbn [unique_keys]. intros [_ A].
  induction m as [|[k0 v0] t IH]; intros I; [destruct I|].
  destruct A as [U0 At]. destruct I as [[= <- <-]|I]; auto.
Qed.

Lemma unique_keys_elem (l : list value) (v : value) :
  unique_keys (VList l) -> In v l -> unique_keys v.
Proof.
  cbn [unique_keys].
  induction l as [|v0 t IH]; intros A I; [destruct I|].
  destruct A as [U0 At]. destruct I as [<-|I]; auto.
Qed.

Lemma string_keys_entry (m : dict) (k : key) (v : value) :
  string_keys (VDict m) = true -> In (k, v) m ->
  is_index k = false /\ string_keys v = true.
Proof.
  cbn [string_keys].
  induction m as [|[k0 v0] t IH]; intros A I; [destruct I|].
  apply andb_prop in A as [A At]. apply andb_prop in A as [A0 A1].
  destruct I as [[= <- <-]|I]; auto.
  split; [now apply negb_true_iff|exact A1].
Qed.

Lemma string_keys_elem (l : list value) (v : value) :
  string_keys (VList l) = true -> In v l -> string_keys v = true.
Proof.
  cbn [string_keys].
  induction l as [|v0 t IH]; intros A I; [destruct I|].
  apply andb_prop in A as [A0 At]. destruct I as [<-|I]; auto.
Qed.

Lemma value_size_entry (m : dict) (k : key) (v : value) :
  In (k, v) m -> value_size v < value_size (VDict m).
Proof.
  cbn [value_size].
  induction m as [|[k0 v0] t IH]; intros I; [destruct I|].
  destruct I as [[= <- <-]|I]; [lia|]. specialize (IH I). lia.
Qed.

Lemma value_size_elem (l : list value) (v : value) :
  In v l -> value_size v < value_size (VList l).
Proof.
  cbn [value_size].
  induction l as [|v0 t IH]; intros I; [destruct I|].
  destruct I as [<-|I]; [lia|]. specialize (IH I). lia.
Qed.

Lemma value_size_length (l : list value) : length l < value_size (VList l).
Proof.
  cbn [value_size]. apply Nat.lt_succ_r.
  induction l as [|v0 t IH]; cbn [length]; [lia|].
  assert (1 <= value_size v0) by (destruct v0; cbn [value_size]; lia). lia.
Qed.

Lemma dict_get_middle (pre : dict) (k : key) (v : value) (tl : dict) :
  ~ In k (dict_keys pre) -> dict_get (pre ++ (k, v) :: tl) k = Some v.
Proof.
  induction pre as [|[k0 v0] t IH]; intros N; cbn [app dict_get].
  - now rewrite key_eqb_refl.
  - cbn [dict_keys map fst] in N.
    destruct (key_eqb k0 k) eqn:E.
    + apply key_eqb_eq in E. exfalso. apply N. now left.
    + apply IH. intros X. apply N. now right.
Qed.

Lemma list_index_middle {A} (pre : list A) (v : A) (tl : list A) :
  list_index (pre ++ v :: tl) (Z.of_nat (length pre)) = Some v.
Proof.
  rewrite list_index_nonneg.
  - rewrite Nat2Z.id, nth_error_app2, Nat.sub_diag by lia. reflexivity.
  - rewrite length_app. cbn [length]. lia.
Qed.

Local Abbreviation as_str := (fun k : key => KStr (str_of_key k)).

(** Every tuple that [getKeysAsTuples] lists below [d] is [base] followed
    by a path that leads to a node of [d]; where the keys of all mappings
    are strings, the path with its indices written as strings leads to the
    same node. *)
Lemma tuples_resolve (bound : nat)
  (ints : forall z, (0 <= z < Z.of_nat bound)%Z ->
                    int_of_str (str_of_Z z) = Some z) (n : nat) :
  forall d base t,
    value_size d <= n -> unique_keys d -> In t (getKeysAsTuples d base) ->
    exists rest x,
      t = base ++ rest /\ rest <> [] /\ node_at d rest = Ok x /\
      (string_keys d = true -> value_size d <= bound ->
       node_at d (map as_str rest) = Ok x).
Proof.
  induction n as [|n IH]; intros d base t Sz U I.
  { destruct d; cbn [value_size] in Sz; lia. }
  assert (forall val lk,
             value_size val <= n -> unique_keys val ->
             In t match val with
                  | VDict _ | VList _ => getKeysAsTuples val lk
                  | _ => []
                  end ->
             exists rest x,
               t = lk ++ rest /\ rest <> [] /\ node_at val rest = Ok x /\
               (string_keys val = true -> value_size val <= bound ->
                node_at val (map as_str rest) = Ok x)) as Sub.
  { intros val lk Sv Uv Iv.
    destruct val; try (now destruct Iv); now apply IH. }
  destruct d as [| | | |l|m]; try (now destruct I).
  - (* a list *)
    rewrite getKeysAsTuples_list in I.
    assert (forall l' pre i,
               l = pre ++ l' -> i = Z.of_nat (length pre) ->
               In t (tuples_from base l' i) ->
               exists rest x,
                 t = base ++ rest /\ rest <> [] /\
                 node_at (VList l) rest = Ok x /\
                 (string_keys (VList l) = true ->
                  value_size (VList l) <= bound ->
                  node_at (VList l) (map as_str rest) = Ok x)) as Inner.
    { induction l' as [|val tl IHl]; intros pre i El Ei It; [destruct It|].
      assert (In val l) as Iv by (rewrite El; apply in_elt).
      assert (list_index l i = Some val) as Li
        by (rewrite El, Ei; apply list_index_middle).
      assert (i < Z.of_nat (length l))%Z as Lt.
      { rewrite El, Ei, length_app. cbn [length]. lia. }
      assert (string_keys (VList l) = true -> value_size (VList l) <= bound ->
              int_of_str (str_of_Z i) = Some i) as Int.
      { intros _ B. apply ints. pose proof (value_size_length l). lia. }
      cbn [tuples_from] in It. destruct It as [<-|It].
      - exists [KInt i], val. split; [reflexivity|]. split; [discriminate|].
        split.
        + cbn [node_at checkNextItem int_of_key]. now rewrite Li.
        + intros St B. cbn [map str_of_key node_at checkNextItem int_of_key].
          now rewrite (Int St B), Li.
      - apply in_app_or in It as [It|It].
        + destruct (Sub val (base ++ [KInt i])) as (rest & x & -> & _ & N & S');
            auto.
          { pose proof (value_size_elem _ _ Iv). lia. }
          { exact (unique_keys_elem _ _ U Iv). }
          exists (KInt i :: rest), x.
          split; [now rewrite <- app_assoc|]. split; [discriminate|]. split.
          * cbn [node_at checkNextItem int_of_key]. now rewrite Li.
          * intros St B.
            cbn [map str_of_key node_at checkNextItem int_of_key].
            rewrite (Int St B), Li. cbn [bind]. apply S'.
            -- exact (string_keys_elem _ _ St Iv).
            -- pose proof (value_size_elem _ _ Iv). lia.
        + apply (IHl (pre ++ [val]) (i + 1)%Z); auto.
          * now rewrite <- app_assoc.
          * rewrite length_app. cbn [length]. lia. }
    exact (Inner l [] 0%Z eq_refl eq_refl I).
  - (* a mapping *)
    assert (forall m' pre,
               m = pre ++ m' ->
               In t (getKeysAsTuples (VDict m') base) ->
               exists rest x,
                 t = base ++ rest /\ rest <> [] /\
                 node_at (VDict m) rest = Ok x /\
                 (string_keys (VDict m) = true ->
                  value_size (VDict m) <= bound ->
                  node_at (VDict m) (map as_str rest) = Ok x)) as Inner.
    { induction m' as [|[k val] tl IHm]; intros pre Em It; [destruct It|].
      assert (In (k, val) m) as Iv by (rewrite Em; apply in_elt).
      assert (dict_get m k = Some val) as Gk.
      { rewrite Em. apply dict_get_middle.
        destruct U as [ND _]. rewrite Em in ND. unfold dict_keys in ND.
        rewrite map_app in ND. cbn [map fst] in ND.
        apply NoDup_remove_2 in ND. intros X. apply ND.
        apply in_or_app. now left. }
      assert (string_keys (VDict m) = true -> as_str k = k) as Ks.
      { intros St. destruct (string_keys_entry _ _ _ St Iv) as [Ki _].
        destruct k; [reflexivity|discriminate Ki]. }
      rewrite getKeysAsTuples_dict in It. destruct It as [<-|It].
      - exists [k], val. split; [reflexivity|]. split; [discriminate|].
        split.
        + cbn [node_at checkNextItem]. now rewrite Gk.
        + intros St B. cbn [map]. rewrite (Ks St).
          cbn [node_at checkNextItem]. now rewrite Gk.
      - apply in_app_or in It as [It|It].
        + destruct (Sub val (base ++ [k])) as (rest & x & -> & _ & N & S');
            auto.
          { pose proof (value_size_entry _ _ _ Iv). lia. }
          { exact (unique_keys_entry _ _ _ U Iv). }
          exists (k :: rest), x.
          split; [now rewrite <- app_assoc|]. split; [discriminate|]. split.
          * cbn [node_at checkNextItem]. now rewrite Gk.
          * intros St B. cbn [map]. rewrite (Ks St).
            cbn [node_at checkNextItem]. rewrite Gk. cbn [bind]. apply S'.
            -- now destruct (string_keys_entry _ _ _ St Iv).
            -- pose proof (value_size_entry _ _ _ Iv). lia.
        + apply (IHm (pre ++ [(k, val)])); auto.
          now rewrite <- app_assoc. }
    exact (Inner m [] eq_refl I).
Qed.

Lemma node_resolves (c : Config) (n : name) (keys : list key) (x : value) :
  unique_keys (VDict (_data c)) ->
  getKeyHierarchy c n = Ok keys -> keys <> [] ->
  node_at (VDict (_data c)) keys = Ok x ->
  contains c n = Ok true /\ exists r, getitem c n = Ok r.
Proof.
  intros U G NE N. split.
  - unfold contains. rewrite G. cbn [bind].
    pose proof (find_cases keys (VDict (_data c))) as F.
    destruct (findInHierarchy (VDict (_data c)) keys) as [[h []]|e];
      cbn [bind]; try reflexivity; congruence.
  - rewrite (getitem_node _ _ _ G NE), N. cbn [bind].
    exact (wrap_total c x (unique_keys_node _ _ _ U N)).
Qed.

(** X12.  Every tuple that [nameTuples] returns, for the top level only or
    for the whole hierarchy, is a key of the Config: it is not empty,
    [tuple in c] is true and [c[tuple]] returns. *)
Theorem nameTuples_resolve (c : Config) (topLevelOnly : bool) (t : list key) :
  unique_keys (VDict (_data c)) ->
  In t (nameTuples c topLevelOnly) ->
  t <> [] /\ contains c (NTuple t) = Ok true
  /\ exists x, getitem c (NTuple t) = Ok x.
Proof.
  intros U I. unfold nameTuples in I.
  assert (exists x, t <> [] /\ node_at (VDict (_data c)) t = Ok x)
    as (x & NE & N).
  { destruct topLevelOnly.
    - apply in_map_iff in I as (k & <- & I).
      apply dict_mem_keys_iff, dict_mem_get in I as (v & G).
      exists v. split; [discriminate|].
      cbn [node_at checkNextItem]. now rewrite G.
    - assert (forall z, (0 <= z < Z.of_nat 0)%Z ->
                        int_of_str (str_of_Z z) = Some z) as Vac
        by (intros z Z0; lia).
      destruct (tuples_resolve 0 Vac _ _ [] t (Nat.le_refl _) U I)
        as (rest & x & -> & NE & N & _).
      exists x. split; [exact NE|exact N]. }
  split; [exact NE|].
  exact (node_resolves c (NTuple t) t x U eq_refl NE N).
Qed.

(** X13.  The names of [names()] are keys of the Config.  In a Config with
    unique string keys, where no segment holds a backslash or a carriage
    return and [int] reads the list indices that [str] writes: with an
    explicit one-character delimiter that is not alphanumeric, not the
    backslash and not the carriage return, or with none when the default
    delimiter is not alphanumeric and lies above the backslash, every name
    that is returned is in the Config and can be read. *)
Theorem names_resolve (c : Config) (delimiter : option char) (ns : list key) :
  unique_keys (VDict (_data c)) ->
  string_keys (VDict (_data c)) = true ->
  (forall z, (0 <= z < Z.of_nat (value_size (VDict (_data c))))%Z ->
             int_of_str (str_of_Z z) = Some z) ->
  (forall t k, In t (nameTuples c false) -> In k t ->
               ~ In backslash (str_of_key k) /\
               ~ In carriage_return (str_of_key k)) ->
  match delimiter with
  | Some d => isalnum d = false /\ d <> backslash /\ d <> carriage_return
  | None => isalnum (_D c) = false /\ (backslash < _D c)%N
  end ->
  names c false (option_map (fun d => [d]) delimiter) = Ok ns ->
  forall n, In n ns ->
    contains c (NKey n) = Ok true /\ exists x, getitem c (NKey n) = Ok x.
Proof.
  intros U St Ints Plain Dl E n I.
  assert (exists d,
             isalnum d = false /\ d <> backslash /\ d <> carriage_return /\
             ns = map (fun k => KStr (render [d] k)) (nameTuples c false))
    as (d & A & B & C & ->).
  { cbn [names] in E. destruct delimiter as [d|]; cbn [option_map] in E.
    - destruct Dl as (A & B & C). cbn [str_isalnum forallb] in E.
      rewrite A in E. cbn [andb] in E. injection E as <-. eauto.
    - destruct Dl as (A & B). unbind E. rename a into d. injection E as <-.
      destruct (choose_sound _ _ _ _ E0) as (j & _ & Nc & Al & _).
      pose proof (nth_candidate_ge _ _ _ Nc) as Ge.
      unfold backslash, carriage_return in *.
      exists d. split; [|split; [lia|split; [lia|reflexivity]]].
      destruct Al as [->|Al]; [|exact Al].
      cbn [nth_candidate] in Nc. now injection Nc as <-. }
  apply in_map_iff in I as (t & <- & I).
  destruct (tuples_resolve _ Ints _ _ [] t (Nat.le_refl _) U
              (I : In t (getKeysAsTuples (VDict (_data c)) [])))
    as (rest & x & -> & NE & _ & N).
  cbn [app] in *. specialize (N St (Nat.le_refl _)).
  assert (render [d] rest = render [d] (map KStr (map str_of_key rest)))
    as R.
  { unfold render. now rewrite !map_map. }
  destruct (in_data c (NKey (KStr (render [d] rest)))) eqn:M.
  - cbn [in_data] in M. apply dict_mem_get in M as (v & G).
    apply (node_resolves c _ [KStr (render [d] rest)] v U).
    + cbn [getKeyHierarchy in_data]. unfold dict_mem. now rewrite G.
    + discriminate.
    + cbn [node_at checkNextItem]. now rewrite G.
  - apply (node_resolves c _ (map as_str rest) x U).
    + cbn [getKeyHierarchy]. rewrite M, R, <- (map_map str_of_key KStr).
      apply splitIntoKeys_render; auto.
      * intros X. apply map_eq_nil in X. contradiction.
      * intros s Is. apply in_map_iff in Is as (k & <- & Ik).
        exact (Plain rest k I Ik).
    + intros X. apply map_eq_nil in X. contradiction.
    + exact N.
Qed.

End NamesLaws.

(** ** asArray *)

Section ArrayLaws.
Context {H : Host}.

(** X14.  [asArray] never raises [KeyError]: for a name that is not in
    the Config it returns the list that holds [None].  A stored list is
    returned as it is, so the result is empty exactly for a stored empty
    list; any other value is returned as the only element; any other
    exception of the lookup is raised. *)
Theorem asArray_cases (c : Config) (n : name) :
  (forall e, asArray c n = Err e ->
     e <> KeyError /\ (forall l, e <> MissingKeys l) /\ getitem c n = Err e)
  /\ (contains c n = Ok false -> asArray c n = Ok [IVal VNone])
  /\ (forall l, getitem c n = Ok (IVal (VList l)) ->
                asArray c n = Ok (map IVal l))
  /\ (forall x, getitem c n = Ok x -> (forall l, x <> IVal (VList l)) ->
                asArray c n = Ok [x])
  /\ (asArray c n = Ok [] <-> getitem c n = Ok (IVal (VList []))).
Proof.
  unfold asArray, get. repeat split.
  - destruct (getitem c n) as [x|e0]; cbn [bind] in *.
    + destruct x as [c0|v]; [discriminate|]. destruct v; discriminate.
    + destruct e0; cbn [bind] in *; congruence.
  - destruct (getitem c n) as [x|e0]; cbn [bind] in *.
    + destruct x as [c0|v]; [discriminate|]. destruct v; discriminate.
    + destruct e0; cbn [bind] in *; congruence.
  - destruct (getitem c n) as [x|e0]; cbn [bind] in *.
    + destruct x as [c0|v]; [discriminate|]. destruct v; discriminate.
    + destruct e0; cbn [bind] in *; congruence.
  - unfold contains, getitem.
    destruct (getKeyHierarchy c n) as [keys|e]; cbn [bind]; [|discriminate].
    destruct (findInHierarchy (VDict (_data c)) keys) as [[h t]|e];
      cbn [bind]; [|discriminate].
    intros [= ->]. reflexivity.
  - intros l ->. reflexivity.
  - intros x -> N. destruct x as [c0|v]; [reflexivity|].
    destruct v; try reflexivity. now destruct (N l).
  - destruct (getitem c n) as [x|e0]; cbn [bind].
    + destruct x as [c0|v]; [discriminate|]. destruct v; try discriminate.
      destruct l; [reflexivity|discriminate].
    + destruct e0; discriminate.
  - intros ->. reflexivity.
Qed.

End ArrayLaws.

(** ** Includes: what is read, and what goes wrong *)

Section IncludeLaws.
Context {H : Host}.

Local Abbreviation searchPaths_of self :=
  (path_curdir :: match configFile self with
                  | Some f => [path_abspath (path_dirname f)]
                  | None => []
                  end).

Local Abbreviation as_list inc :=
  (match inc with VList l => l | v => [v] end).

(** X15.  A Config without an [includeConfigs] key anywhere is left as it
    is and no file is read, whatever the reader; so a file without the key
    is loaded as its YAML content, at any depth bound. *)
Theorem no_include_no_reading (load : str -> result Config) (c : Config) :
  (forall t, In t (nameTuples c false) -> is_include t = false) ->
  processExplicitIncludes load c = Ok c
  /\ forall fuel path,
       initFromFile path = Ok c -> Config_fromFile (S fuel) path = Ok c.
Proof.
  intros N.
  assert (forall ld, processExplicitIncludes ld c = Ok c) as P.
  { intros ld. unfold processExplicitIncludes. apply for_each_skip.
    intros t s I. unfold process_include. now rewrite (N t I). }
  split; [apply P|].
  intros fuel path E. cbn [Config_fromFile]. rewrite E. cbn [bind]. apply P.
Qed.

Lemma find_first {A} (f : A -> bool) (l : list A) (x : A) :
  find f l = Some x ->
  exists l1 l2, l = l1 ++ x :: l2 /\ (forall a, In a l1 -> f a = false) /\
                f x = true.
Proof.
  induction l as [|a t IH]; cbn [find]; [discriminate|].
  destruct (f a) eqn:E.
  - intros [= <-]. exists [], t. repeat split; auto. intros a0 [].
  - intros F. destruct (IH F) as (l1 & l2 & -> & F1 & Fx).
    exists (a :: l1), l2. repeat split; auto.
    intros a0 [<-|I]; auto.
Qed.

(** The first include directive is processed on the Config as it was
    loaded; when that fails, the whole fails. *)
Lemma first_include_fails (load : str -> result Config) (self : Config)
  (path : list key) (e : exn) :
  find is_include (nameTuples self false) = Some path ->
  process_include load (searchPaths_of self) self path = Err e ->
  processExplicitIncludes load self = Err e.
Proof.
  intros F P. destruct (find_first _ _ _ F) as (l1 & l2 & Names & F1 & _).
  unfold processExplicitIncludes. rewrite Names, for_each_app.
  rewrite for_each_skip.
  - cbn [bind for_each]. now rewrite P.
  - intros t s I. unfold process_include. now rewrite (F1 t I).
Qed.

(** X16.  An include directive below a list element, or below a key that
    is an integer, cannot be processed: [_processExplicitIncludes] raises
    [TypeError] when the first [includeConfigs] it meets has a path with a
    segment that is not a string. *)
Theorem include_below_index_raises (load : str -> result Config)
  (self : Config) (path : list key) :
  find is_include (nameTuples self false) = Some path ->
  existsb is_index path = true ->
  processExplicitIncludes load self = Err TypeError.
Proof.
  intros F X. apply (first_include_fails load self path TypeError F).
  destruct (find_first _ _ _ F) as (_ & _ & _ & _ & Inc).
  unfold process_include. now rewrite Inc, X.
Qed.

Lemma find_in_dirs_none (searchPaths : list str) (fileName : str) :
  (forall dir, In dir searchPaths ->
               path_exists (path_join dir fileName) = false) ->
  find_in_dirs searchPaths fileName = None.
Proof.
  induction searchPaths as [|dir t IH]; intros N; cbn [find_in_dirs];
    [reflexivity|].
  rewrite (N dir) by now left. apply IH. intros d I. apply N. now right.
Qed.

(** What the include directive at [basePath] makes of a failure to read *)
Lemma process_include_reads (load : str -> result Config)
  (searchPaths : list str) (self : Config) (basePath : list key)
  (node : dict) (inc : value) :
  existsb is_index basePath = false ->
  node_at (VDict (_data self)) basePath = Ok (VDict node) ->
  dict_get node includeKey = Some inc ->
  (forall x, inc <> VDict x) ->
  match read_includes load searchPaths (as_list inc) with
  | Err e =>
      process_include load searchPaths self (basePath ++ [includeKey]) = Err e
  | Ok [] =>
      process_include load searchPaths self (basePath ++ [includeKey])
      = Err IndexError
  | Ok (_ :: _) => True
  end.
Proof.
  intros NoIdx Node G NotMap.
  unfold process_include. rewrite is_include_snoc.
  rewrite existsb_app, NoIdx. cbn [existsb is_index includeKey orb].
  rewrite (getitem_node self (NTuple (basePath ++ [includeKey]))
             (basePath ++ [includeKey]) eq_refl)
    by (destruct basePath; discriminate).
  rewrite node_at_app, Node. cbn [bind node_at checkNextItem].
  rewrite G. cbn [bind].
  assert (wrap self inc = Ok (IVal inc)) as ->.
  { destruct inc; try reflexivity. now destruct (NotMap d). }
  cbn [bind].
  assert (dict_mem node includeKey = true) as Mem.
  { unfold dict_mem. now rewrite G. }
  destruct (del_walk_total basePath includeKey node _ Node Mem)
    as (d1 & Del & N1).
  destruct (del_walk_dict _ _ _ _ Del) as (m1 & ->).
  unfold delitem. cbn [getKeyHierarchy splitIntoKeys bind].
  rewrite pop_snoc. cbn [bind]. rewrite Del. cbn [bind with_data].
  replace (match inc with
           | VList l => l
           | _ => [inc]
           end) with (as_list inc)
    by (destruct inc; reflexivity).
  destruct (read_includes load searchPaths (as_list inc)) as [[|c0 cs]|e];
    cbn [bind]; auto.
Qed.

(** X17.  Failures of an include directive.  For the first
    [includeConfigs] of a Config, in the mapping that [basePath] leads to:
    an exception raised while the named files are looked up and read is
    raised by [_processExplicitIncludes]; an empty list of files raises
    [IndexError]; and a relative file name that exists in none of the
    directories searched (the current one and that of the including file)
    raises [RuntimeError]. *)
Theorem include_failures (load : str -> result Config) (self : Config)
  (basePath : list key) (node : dict) (inc : value) :
  find is_include (nameTuples self false) = Some (basePath ++ [includeKey]) ->
  existsb is_index basePath = false ->
  node_at (VDict (_data self)) basePath = Ok (VDict node) ->
  dict_get node includeKey = Some inc ->
  (forall x, inc <> VDict x) ->
  (forall e,
     read_includes load (searchPaths_of self) (as_list inc) = Err e ->
     processExplicitIncludes load self = Err e)
  /\ (inc = VList [] -> processExplicitIncludes load self = Err IndexError)
  /\ (forall fileName rest,
        as_list inc = VStr fileName :: rest ->
        path_isabs fileName = false ->
        (forall dir, In dir (searchPaths_of self) ->
                     path_exists (path_join dir fileName) = false) ->
        processExplicitIncludes load self = Err RuntimeError).
Proof.
  intros F NoIdx Node G NotMap.
  pose proof (process_include_reads load (searchPaths_of self) self basePath
                node inc NoIdx Node G NotMap) as P.
  assert (forall e,
             read_includes load (searchPaths_of self) (as_list inc) = Err e ->
             processExplicitIncludes load self = Err e) as Fail.
  { intros e R. rewrite R in P. exact (first_include_fails _ _ _ _ F P). }
  split; [exact Fail|]. split.
  - intros ->. cbn [read_includes] in P.
    exact (first_include_fails _ _ _ _ F P).
  - intros fileName rest L Rel Missing. apply Fail. rewrite L.
    cbn [read_includes]. unfold find_include.
    rewrite Rel, (find_in_dirs_none _ _ Missing). reflexivity.
Qed.

End IncludeLaws.

(** ** ConfigSubset: defaults, components and validation *)

Section SubsetLaws.
Context {H : Host}.

(** X18.  A default file that is found nowhere is no error: with a
    relative name that exists in no directory of the search path, or an
    absolute name that does not exist, [_updateWithConfigsFromPath] reads
    nothing and leaves the configuration and [filesRead] as they are. *)
Theorem missing_defaults_ignored (make : str -> result ConfigSubset)
  (self : ConfigSubset) (searchPaths : list str) (file : str) :
  (if path_isabs file then path_exists file = false
   else forall dir, In dir searchPaths ->
                    path_exists (path_join dir file) = false) ->
  updateWithConfigsFromPath make self searchPaths file = Ok self.
Proof.
  unfold updateWithConfigsFromPath. destruct (path_isabs file).
  - now intros ->.
  - intros N. apply for_each_skip. intros dir s I.
    rewrite (N dir); [reflexivity|]. now apply in_rev.
Qed.

Lemma validate_inv (cls : SubsetClass) (self r : ConfigSubset) :
  validate cls self = Ok r ->
  r = self /\
  forall k, In k (requiredKeys cls) -> dict_mem (_data (config self)) k = true.
Proof.
  unfold validate.
  destruct (filter _ (requiredKeys cls)) as [|k0 t] eqn:F; [|discriminate].
  intros [= <-]. split; [reflexivity|].
  intros k I. destruct (dict_mem (_data (config self)) k) eqn:M;
    [reflexivity|].
  assert (In k []) as X; [|destruct X].
  rewrite <- F. apply filter_In. split; [exact I|]. now rewrite M.
Qed.

(** X19.  Validation only checks.  When the constructor returns with
    [validate=True], every required key is a top-level key of the result,
    and the constructor with [validate=False] returns the same
    configuration. *)
Theorem validation_only_checks (fuel : nat) (cls : SubsetClass)
  (other : source) (mergeDefaults : bool) (searchPaths : list str)
  (r : ConfigSubset) :
  ConfigSubset_init fuel cls other true mergeDefaults searchPaths = Ok r ->
  ConfigSubset_init fuel cls other false mergeDefaults searchPaths = Ok r
  /\ forall k, In k (requiredKeys cls) ->
               dict_mem (_data (config r)) k = true.
Proof.
  revert cls other mergeDefaults searchPaths r.
  induction fuel as [|f IH]; intros cls other m sp r E; [discriminate E|].
  change (ConfigSubset_body (ConfigSubset_init f cls) (Config_init f)
            cls other true m sp = Ok r) in E.
  change (ConfigSubset_body (ConfigSubset_init f cls) (Config_init f)
            cls other false m sp = Ok r
          /\ forall k, In k (requiredKeys cls) ->
                       dict_mem (_data (config r)) k = true).
  unfold ConfigSubset_body in *.
  unbind E. cbn [bind]. unbind E. cbn [bind].
  unbind E. cbn [bind]. destruct a1 as [self containerKey].
  unbind E. cbn [bind]. unbind E.
  apply validate_inv in E as [-> Req]. split; [|exact Req].
  assert (match (if m then containerKey else None) with
          | Some containerKey0 =>
              expand_children
                (fun sub => ConfigSubset_init f cls sub false m sp)
                {| config := a1; filesRead := filesRead self |} containerKey0
          | None => Ok {| config := a1; filesRead := filesRead self |}
          end = Ok a2) as ->.
  { destruct (if m then containerKey else None); [|exact E4].
    refine (expand_children_mono _ _ _ _ _ _ E4).
    intros o c Ec. now apply IH in Ec. }
  reflexivity.
Qed.

(** X20.  Without defaults and without a component the subset is the
    configuration that [Config(other)] loads: the same mapping, the default
    delimiter, no file name and no files read; with [validate=True] it is
    validated and nothing else. *)
Theorem ConfigSubset_without_defaults (fuel : nat) (cls : SubsetClass)
  (other : source) (searchPaths : list str) (loaded : Config) :
  component cls = None ->
  Config_init fuel other = Ok loaded ->
  unique_keys (VDict (_data loaded)) ->
  ConfigSubset_init (S fuel) cls other false false searchPaths
  = Ok {| config := {| _data := _data loaded; _D := Config_D;
                       configFile := None |};
          filesRead := [] |}
  /\ ConfigSubset_init (S fuel) cls other true false searchPaths
     = validate cls {| config := {| _data := _data loaded; _D := Config_D;
                                    configFile := None |};
                       filesRead := [] |}.
Proof.
  intros C L U. cbn [ConfigSubset_init]. unfold ConfigSubset_body.
  rewrite L. cbn [bind]. unfold select_component. rewrite C. cbn [bind config].
  unfold Config_empty. rewrite (Config_copy Config_D _ U).
  split; reflexivity.
Qed.

(** X21.  The selection of the component.  When the external config has
    the component as a top-level key that holds a mapping, the subset is
    taken from that mapping: from the mapping under the component key inside
    it when there is one (the doubled form, which loses the file name), and
    from the mapping itself when it has no such key. *)
Theorem select_component_subset (cls : SubsetClass) (comp : key)
  (externalConfig : Config) (m : dict) :
  component cls = Some comp ->
  dict_get (_data externalConfig) comp = Some (VDict m) ->
  unique_keys (VDict m) ->
  (forall m2,
     dict_get m comp = Some (VDict m2) ->
     select_component cls externalConfig
     = Ok {| _data := m2; _D := _D externalConfig; configFile := None |})
  /\ (dict_get m comp = None ->
      select_component cls externalConfig
      = Ok {| _data := m; _D := _D externalConfig;
              configFile := configFile externalConfig |}).
Proof.
  intros C G U. unfold select_component. rewrite C.
  assert (contains externalConfig (NTuple [comp; comp])
          = Ok (dict_mem m comp)) as ->.
  { unfold contains.
    cbn [getKeyHierarchy splitIntoKeys bind findInHierarchy checkNextItem].
    rewrite G. cbn [bind checkNextItem]. unfold dict_mem.
    destruct (dict_get m comp); reflexivity. }
  unfold dict_mem. cbn [bind]. split.
  - intros m2 G2. rewrite G2.
    rewrite (getitem_node externalConfig (NTuple [comp; comp]) [comp; comp]
               eq_refl) by discriminate.
    cbn [node_at checkNextItem]. rewrite G. cbn [bind checkNextItem].
    rewrite G2. cbn [bind wrap]. unfold Config_of_dict.
    rewrite (Config_copy _ _ (unique_keys_get _ _ _ U G2)). reflexivity.
  - intros G2. rewrite G2.
    assert (contains externalConfig (NKey comp) = Ok true) as ->.
    { unfold contains. cbn [getKeyHierarchy in_data]. unfold dict_mem.
      rewrite G. cbn [bind findInHierarchy checkNextItem]. now rewrite G. }
    cbn [bind]. now rewrite G.
Qed.

End SubsetLaws.

(** ** Assignment through a list index that does not exist *)

Section EarlyStop.
Context {H : Host}.

(** The assignment made by a descent that stops below [pre] is the one a
    descent to [pre] makes. *)
Lemma set_walk_stop (k : key) (rest : list key) (last : key) (v : value)
  (pre : list key) :
  forall d p nv,
    node_at d pre = Ok p ->
    checkNextItem k p true = Ok (p, nv, false) ->
    (r <- set_walk d (pre ++ k :: rest) last v ;; Ok (fst r))
    = (r <- set_walk d pre last v ;; Ok (fst r)).
Proof.
  induction pre as [|k0 ks IH]; intros d p nv E C.
  - injection E as ->. cbn [app set_walk]. rewrite C. cbn [bind].
    destruct (assign p last v); reflexivity.
  - cbn [node_at] in E. unbind E. destruct a as [[d1 nv0] t].
    destruct t; [|discriminate].
    cbn [app set_walk]. rewrite (check_found_create _ _ _ _ E0). cbn [bind].
    specialize (IH _ _ _ E C).
    destruct (set_walk nv0 (ks ++ k :: rest) last v) as [[c1 f1]|e1];
      destruct (set_walk nv0 ks last v) as [[c2 f2]|e2];
      cbn [bind fst] in IH |- *; congruence.
Qed.

(** X22.  [__setitem__] does not read the [complete] flag of its descent:
    when the path runs through a list and the key after the list is no
    index of it (out of range, or not a number and not an element), the
    rest of the path is dropped and the assignment is made in the list
    itself, under the last key; the outcome is that of assigning to
    [pre + (last,)]. *)
Theorem setitem_drops_path_after_list (c : Config) (pre : list key)
  (l : list value) (k : key) (rest : list key) (last : key) (v : item) :
  node_at (VDict (_data c)) pre = Ok (VList l) ->
  match int_of_key k with
  | Some i => list_index l i = None
  | None => key_in_list k l = false
  end ->
  setitem c (NTuple (pre ++ k :: rest ++ [last])) v
  = setitem c (NTuple (pre ++ [last])) v.
Proof.
  intros E K.
  assert (checkNextItem k (VList l) true = Ok (VList l, VNone, false)) as C.
  { cbn [checkNextItem]. destruct (int_of_key k) as [i|]; now rewrite K. }
  pose proof (set_walk_stop k rest last (stored v) pre _ _ _ E C) as W.
  unfold setitem, setitem_flag. cbn [getKeyHierarchy splitIntoKeys bind].
  replace (pre ++ k :: rest ++ [last]) with ((pre ++ k :: rest) ++ [last])
    by (now rewrite <- app_assoc).
  rewrite !pop_snoc. cbn [bind].
  destruct (set_walk (VDict (_data c)) (pre ++ k :: rest) last (stored v))
    as [[d1 f1]|e1];
    destruct (set_walk (VDict (_data c)) pre last (stored v)) as [[d2 f2]|e2];
    cbn [bind fst] in W |- *; try congruence.
  injection W as ->. destruct (with_data c d2); reflexivity.
Qed.

End EarlyStop.

(** ** Equality of configurations *)

Section Equality.

Lemma value_eqb_dict (m m' : dict) :
  value_eqb (VDict m) (VDict m')
  = Nat.eqb (length m) (length m') && entries_eqb m m'.
Proof.
  cbn [value_eqb]. f_equal.
  induction m as [|[k x] t IH]; [reflexivity|].
  cbn [entries_eqb]. now rewrite <- IH.
Qed.

Lemma value_eqb_list_cons (x y : value) (t t' : list value) :
  value_eqb (VList (x :: t)) (VList (y :: t'))
  = value_eqb x y && value_eqb (VList t) (VList t').
Proof. reflexivity. Qed.

Lemma entries_eqb_spec (m m' : dict) :
  entries_eqb m m' = true <->
  forall k x, In (k, x) m ->
    exists y, dict_get m' k = Some y /\ value_eqb x y = true.
Proof.
  induction m as [|[k0 x0] t IH]; cbn [entries_eqb].
  - split; [intros _ k x []|reflexivity].
  - rewrite andb_true_iff, IH. split.
    + intros [A B] k x [[= <- <-]|I]; [|now apply B].
      destruct (dict_get m' k0) as [y|]; [eauto|discriminate].
    + intros A. split.
      * destruct (A k0 x0 (or_introl eq_refl)) as (y & -> & E). exact E.
      * intros k x I. apply A. now right.
Qed.

Lemma dict_get_In (m : dict) (k : key) (x : value) :
  dict_get m k = Some x -> In (k, x) m.
Proof.
  induction m as [|[k0 x0] t IH]; cbn [dict_get]; [discriminate|].
  destruct (key_eqb k0 k) eqn:E.
  - apply key_eqb_eq in E. subst k0. intros [= <-]. now left.
  - intros G. right. now apply IH.
Qed.

Lemma In_dict_get (m : dict) (k : key) (x : value) :
  NoDup (dict_keys m) -> In (k, x) m -> dict_get m k = Some x.
Proof.
  induction m as [|[k0 x0] t IH]; intros N I; [destruct I|].
  cbn [dict_keys map fst] in N. apply NoDup_cons_iff in N as [N0 N].
  cbn [dict_get]. destruct I as [[= <- <-]|I].
  - now rewrite key_eqb_refl.
  - destruct (key_eqb k0 k) eqn:E; [|now apply IH].
    apply key_eqb_eq in E. subst k0. exfalso. apply N0.
    change k with (fst (k, x)). now apply in_map.
Qed.

Lemma value_eqb_refl (n : nat) :
  forall v, value_size v <= n -> unique_keys v -> value_eqb v v = true.
Proof.
  induction n as [|n IH]; intros v Sz U.
  { destruct v; cbn [value_size] in Sz; lia. }
  destruct v as [|b|z|s|l|m].
  - reflexivity.
  - apply Bool.eqb_reflx.
  - apply Z.eqb_refl.
  - apply str_eqb_refl.
  - induction l as [|x t IHl]; [reflexivity|].
    rewrite value_eqb_list_cons. cbn [value_size] in Sz.
    cbn [unique_keys] in U. destruct U as [Ux Ut].
    rewrite IH by (auto; lia). cbn [andb]. apply IHl.
    + cbn [value_size]. lia.
    + exact Ut.
  - rewrite value_eqb_dict, Nat.eqb_refl. cbn [andb].
    apply entries_eqb_spec. intros k x I. exists x. split.
    + apply In_dict_get; [apply U|exact I].
    + apply IH.
      * pose proof (value_size_entry _ _ _ I). lia.
      * exact (unique_keys_entry _ _ _ U I).
Qed.

Lemma value_eqb_sym_true (n : nat) :
  forall a b,
    value_size a <= n -> unique_keys a -> unique_keys b ->
    value_eqb a b = true -> value_eqb b a = true.
Proof.
  induction n as [|n IH]; intros a b Sz Ua Ub E.
  { destruct a; cbn [value_size] in Sz; lia. }
  destruct a as [|x|x|s|l|m]; destruct b as [|y|y|s'|l'|m'];
    try discriminate E; cbn [value_eqb] in E |- *.
  - reflexivity.
  - rewrite Bool.eqb_true_iff in *. congruence.
  - exact E.
  - exact E.
  - rewrite Z.eqb_eq in *. congruence.
  - apply str_eqb_eq in E. subst. apply str_eqb_refl.
  - revert l' Ub E. induction l as [|x t IHl]; intros [|y t'] Ub E;
      try discriminate E; [reflexivity|].
    change (value_eqb (VList (x :: t)) (VList (y :: t')) = true) in E.
    change (value_eqb (VList (y :: t')) (VList (x :: t)) = true).
    rewrite value_eqb_list_cons in *. apply andb_prop in E as [E1 E2].
    cbn [value_size] in Sz. cbn [unique_keys] in Ua, Ub.
    destruct Ua as [Ux Ut]. destruct Ub as [Uy Ut'].
    rewrite (IH x y) by (auto; lia). cbn [andb].
    apply IHl; auto. cbn [value_size]. lia.
  - change (value_eqb (VDict m) (VDict m') = true) in E.
    change (value_eqb (VDict m') (VDict m) = true).
    rewrite value_eqb_dict in *. apply andb_prop in E as [L En].
    apply Nat.eqb_eq in L. rewrite <- L, Nat.eqb_refl. cbn [andb].
    pose proof (proj1 (entries_eqb_spec m m') En) as Fw.
    assert (incl (dict_keys m) (dict_keys m')) as Inc.
    { intros k Ik. apply in_map_iff in Ik as ([k0 x] & <- & I).
      destruct (Fw _ _ I) as (y & G & _). apply dict_get_In in G.
      change (fst (k0, x)) with (fst (k0, y)). now apply in_map. }
    assert (incl (dict_keys m') (dict_keys m)) as Inc'.
    { apply NoDup_length_incl; [apply Ua| |exact Inc].
      unfold dict_keys. rewrite !length_map. lia. }
    apply entries_eqb_spec. intros k y I.
    assert (In k (dict_keys m)) as Ik.
    { apply Inc'. change k with (fst (k, y)). now apply in_map. }
    apply in_map_iff in Ik as ([k0 x] & K & Ix). cbn [fst] in K. subst k0.
    destruct (Fw _ _ Ix) as (y' & G & Exy).
    rewrite (In_dict_get _ _ _ (proj1 Ub) I) in G. injection G as <-.
    exists x. split; [apply In_dict_get; [apply Ua|exact Ix]|].
    apply (IH x y); auto.
    + pose proof (value_size_entry _ _ _ Ix). lia.
    + exact (unique_keys_entry _ _ _ Ua Ix).
    + exact (unique_keys_entry _ _ _ Ub I).
Qed.

(** X23.  [==] on Configs compares the mappings and nothing else: a
    Config equals itself, its copy and its own mapping; it equals a Config
    that holds the same entries in another order; the comparison is
    symmetric; and [!=] is its negation. *)
Theorem Config_eq_laws (a b : Config) :
  unique_keys (VDict (_data a)) -> unique_keys (VDict (_data b)) ->
  Config_eq a (IConfig a) = true
  /\ Config_eq a (IVal (VDict (_data a))) = true
  /\ (Permutation (_data a) (_data b) -> Config_eq a (IConfig b) = true)
  /\ Config_eq a (IConfig b) = Config_eq b (IConfig a)
  /\ Config_ne a (IConfig b) = negb (Config_eq a (IConfig b)).
Proof.
  intros Ua Ub. unfold Config_eq, Config_ne. cbn [stored].
  split; [exact (value_eqb_refl _ _ (Nat.le_refl _) Ua)|].
  split; [exact (value_eqb_refl _ _ (Nat.le_refl _) Ua)|].
  split; [|split; [|reflexivity]].
  - intros P. rewrite value_eqb_dict.
    rewrite (Permutation_length P), Nat.eqb_refl. cbn [andb].
    apply entries_eqb_spec. intros k x I. exists x. split.
    + apply In_dict_get; [apply Ub|]. exact (Permutation_in _ P I).
    + apply (value_eqb_refl (value_size x) x (Nat.le_refl _)).
      exact (unique_keys_entry _ _ _ Ua I).
  - destruct (value_eqb (VDict (_data a)) (VDict (_data b))) eqn:E.
    + symmetry.
      exact (value_eqb_sym_true _ _ _ (Nat.le_refl _) Ua Ub E).
    + destruct (value_eqb (VDict (_data b)) (VDict (_data a))) eqn:E';
        [|reflexivity].
      rewrite (value_eqb_sym_true _ _ _ (Nat.le_refl _) Ub Ua E') in E.
      discriminate E.
Qed.

End Equality.

(** ** Deletion of a list element *)

Section ListDeletion.
Context {H : Host}.

Local Abbreviation dead v := (v = VNone \/ exists s : str, v = VStr s).

(** Deletion below a node that exists: the outcome is that of the deletion
    in the node. *)
Lemma del_walk_at (last : key) (pre : list key) :
  forall d p,
    node_at d pre = Ok p -> ~ dead p ->
    match delete p last with
    | Ok p' => exists d', del_walk d pre last = Ok d' /\ node_at d' pre = Ok p'
    | Err e => del_walk d pre last = Err e
    end.
Proof.
  induction pre as [|k ks IH]; intros d p E N.
  - injection E as ->. cbn [del_walk node_at].
    destruct (delete p last); eauto.
  - cbn [node_at] in E. unbind E. destruct a as [[d1 nv] t].
    destruct t; [|discriminate].
    pose proof (check_nocreate _ _ _ _ _ E0) as ->.
    cbn [del_walk]. rewrite E0. cbn [bind].
    specialize (IH _ _ E N).
    destruct (delete p last) as [p'|e].
    + destruct IH as (child & Dc & Nc). rewrite Dc. cbn [bind].
      eexists. split; [reflexivity|].
      destruct (check_put _ _ _ _ _ E0) as [D|P].
      * exfalso. exact (N (node_at_dead _ _ _ D E)).
      * cbn [node_at]. rewrite P. cbn [bind]. exact Nc.
    + rewrite IH. reflexivity.
Qed.

Lemma del_nth_length {A} (l : list A) :
  forall n, n < length l -> S (length (del_nth l n)) = length l.
Proof.
  induction l as [|a t IH]; intros [|n] L; cbn [length del_nth] in *;
    try lia.
  rewrite IH by lia. reflexivity.
Qed.

Lemma del_nth_split {A} (l : list A) :
  forall n, del_nth l n = firstn n l ++ skipn (S n) l.
Proof.
  induction l as [|a t IH]; intros [|n]; cbn [del_nth firstn skipn app];
    try reflexivity.
  - now rewrite IH.
Qed.

(** X24.  Deletion of a list element, [del c[pre + (i,)]] where [pre]
    leads to a list: for an integer index in range (a negative one counts
    from the end) exactly the element at that position is removed, the
    elements before and after it stay in their order; out of range
    [IndexError] is raised; and a string as the last key raises [TypeError]
    even when it is a number, since deletion, unlike assignment, does not
    convert the key. *)
Theorem list_item_deletion (c : Config) (pre : list key) (l : list value)
  (i : Z) :
  node_at (VDict (_data c)) pre = Ok (VList l) ->
  (forall s, delitem c (NTuple (pre ++ [KStr s])) = Err TypeError)
  /\ (if ((- Z.of_nat (length l) <=? i) && (i <? Z.of_nat (length l)))%Z
      then
        exists c',
          delitem c (NTuple (pre ++ [KInt i])) = Ok c' /\
          node_at (VDict (_data c')) pre
          = Ok (VList
                  (let n := Z.to_nat (if (i <? 0)%Z
                                      then i + Z.of_nat (length l) else i) in
                   firstn n l ++ skipn (S n) l)) /\
          _D c' = _D c /\ configFile c' = configFile c
      else delitem c (NTuple (pre ++ [KInt i])) = Err IndexError).
Proof.
  intros E.
  assert (~ dead (VList l)) as N by (intros [X|[s X]]; discriminate X).
  assert (forall last,
             delitem c (NTuple (pre ++ [last]))
             = (d <- del_walk (VDict (_data c)) pre last ;; with_data c d))
    as Unf.
  { intros last. unfold delitem. cbn [getKeyHierarchy splitIntoKeys bind].
    rewrite pop_snoc. reflexivity. }
  split.
  - intros s. pose proof (del_walk_at (KStr s) pre _ _ E N) as W.
    cbn [delete] in W. now rewrite Unf, W.
  - pose proof (del_walk_at (KInt i) pre _ _ E N) as W.
    cbn [delete] in W. unfold list_delete, norm_index in W.
    destruct ((- Z.of_nat (length l) <=? i) && (i <? Z.of_nat (length l)))%Z
      eqn:R.
    + apply andb_prop in R as [R1 R2].
      apply Z.leb_le in R1. apply Z.ltb_lt in R2.
      assert (((0 <=? (if (i <? 0)%Z then (i + Z.of_nat (length l))%Z else i))
               && ((if (i <? 0)%Z then (i + Z.of_nat (length l))%Z else i)
                   <? Z.of_nat (length l)))%Z = true) as In.
      { destruct (Z.ltb_spec i 0); apply andb_true_intro; split;
          try (apply Z.leb_le; lia); apply Z.ltb_lt; lia. }
      rewrite In in W. destruct W as (d' & Dw & Nd).
      destruct (del_walk_dict _ _ _ _ Dw) as (m' & ->).
      exists {| _data := m'; _D := _D c; configFile := configFile c |}.
      split; [rewrite Unf, Dw; reflexivity|].
      cbn [_data _D configFile]. split; [|split; reflexivity].
      rewrite Nd, del_nth_split. reflexivity.
    + assert (((0 <=? (if (i <? 0)%Z then (i + Z.of_nat (length l))%Z else i))
               && ((if (i <? 0)%Z then (i + Z.of_nat (length l))%Z else i)
                   <? Z.of_nat (length l)))%Z = false) as Out.
      { apply andb_false_iff in R as [R|R];
          [apply Z.leb_gt in R|apply Z.ltb_ge in R];
          destruct (Z.ltb_spec i 0); apply andb_false_iff;
          try (left; apply Z.leb_gt; lia); right; apply Z.ltb_ge; lia. }
      rewrite Out in W. now rewrite Unf, W.
Qed.

End ListDeletion.

(** * The laws of update, of deletion and of the choice of a delimiter *)

(** ** update: the merge law along every path *)

Section MergeLaw.
Context {H : Host}.

Lemma dict_at_mapping (p : list key) (y : value) (x : dict) :
  dict_at y p = Some (VDict x) -> exists xm, y = VDict xm.
Proof.
  destruct p as [|k p]; cbn [dict_at].
  - intros [= ->]. eauto.
  - destruct y; try discriminate. eauto.
Qed.

Lemma dict_at_cons (m : dict) (k : key) (p : list key) (w : value) :
  dict_at (VDict m) (k :: p) = Some w ->
  exists y, dict_get m k = Some y /\ dict_at y p = Some w.
Proof.
  cbn [dict_at]. destruct (dict_get m k) as [y|]; [eauto|discriminate].
Qed.

Lemma value_size_get (m : dict) (k : key) (x : value) :
  dict_get m k = Some x -> value_size x < value_size (VDict m).
Proof. intros G. exact (value_size_entry _ _ _ (dict_get_In _ _ _ G)). Qed.

(** What the loop of [doUpdate] does with an item that is a mapping: it is
    merged, by [doUpdate], into the value that was there (the empty mapping
    when there was none), and the result is stored. *)
Lemma update_items_entry (um : dict) :
  forall dm m k x,
    update_items um dm = Ok (VDict m) ->
    NoDup (dict_keys um) -> dict_get um k = Some (VDict x) ->
    exists merged,
      doUpdate (match dict_get dm k with
                | Some y => y
                | None => VDict []
                end) (VDict x) = Ok merged /\
      dict_get m k = Some merged.
Proof.
  induction um as [|[k0 v0] rest IH]; intros dm m k x E N G; [discriminate|].
  cbn [dict_keys map fst] in N. apply NoDup_cons_iff in N as [N0 N].
  cbn [dict_get] in G. destruct (key_eqb k0 k) eqn:K.
  - injection G as ->. apply key_eqb_eq in K. subst k0.
    cbn [update_items] in E. unbind E. rename a into merged.
    exists merged. split; [reflexivity|].
    rewrite (update_items_frame _ _ _ k E (NoDup_keys_absent _ _ N0)).
    apply dict_get_set_same.
  - apply key_eqb_neq in K.
    assert (forall y, update_items rest (dict_set dm k0 y) = Ok (VDict m) ->
                      exists merged,
                        doUpdate (match dict_get dm k with
                                  | Some y => y
                                  | None => VDict []
                                  end) (VDict x) = Ok merged /\
                        dict_get m k = Some merged) as Step.
    { intros y E'. destruct (IH _ _ _ _ E' N G) as (merged & D & Gm).
      rewrite dict_get_set_other in D by exact K. eauto. }
    cbn [update_items] in E. destruct v0; eauto.
    unbind E. eauto.
Qed.

(** The merge law of [doUpdate] along every path of keys. *)
Lemma doUpdate_paths (n : nat) :
  forall d u r,
    value_size u <= n -> unique_keys u -> doUpdate d u = Ok r ->
    (forall p v, dict_at u p = Some v -> (forall x, v <> VDict x) ->
                 dict_at r p = Some v)
    /\ (forall p x, dict_at u p = Some (VDict x) ->
                    exists y, dict_at r p = Some (VDict y))
    /\ (forall q x k rest,
          dict_at u q = Some (VDict x) -> dict_mem x k = false ->
          dict_at r (q ++ k :: rest) = dict_at d (q ++ k :: rest)).
Proof.
  induction n as [|n IH]; intros d u r Sz U E.
  { destruct u; cbn [value_size] in Sz; lia. }
  destruct (doUpdate_dict _ _ _ E) as (dm & um & m & -> & -> & ->).
  rewrite doUpdate_items in E.
  assert (NoDup (dict_keys um)) as ND by apply U.
  assert (forall k xm,
             dict_get um k = Some (VDict xm) ->
             exists merged,
               dict_get m k = Some merged /\
               (forall p v, dict_at (VDict xm) p = Some v ->
                            (forall x, v <> VDict x) ->
                            dict_at merged p = Some v) /\
               (forall p x, dict_at (VDict xm) p = Some (VDict x) ->
                            exists y, dict_at merged p = Some (VDict y)) /\
               (forall q x k' rest,
                  dict_at (VDict xm) q = Some (VDict x) ->
                  dict_mem x k' = false ->
                  dict_at merged (q ++ k' :: rest)
                  = dict_at (match dict_get dm k with
                             | Some y => y
                             | None => VDict []
                             end) (q ++ k' :: rest))) as Sub.
  { intros k xm G.
    destruct (update_items_entry _ _ _ _ _ E ND G) as (merged & D & Gm).
    exists merged. split; [exact Gm|].
    apply (IH _ _ _); [|exact (unique_keys_get _ _ _ U G)|exact D].
    pose proof (value_size_get _ _ _ G). lia. }
  split; [|split].
  - intros p v A L. destruct p as [|k p]; [injection A as <-; now destruct (L um)|].
    destruct (dict_at_cons _ _ _ _ A) as (y & G & Ay).
    destruct p as [|k1 p1].
    + injection Ay as ->. cbn [dict_at].
      now rewrite (update_items_leaf _ _ _ k v E ND G L).
    + assert (exists xm, y = VDict xm) as (xm & ->)
        by (destruct y; try discriminate Ay; eauto).
      destruct (Sub _ _ G) as (merged & Gm & Leaf & _).
      cbn [dict_at]. rewrite Gm. exact (Leaf _ _ Ay L).
  - intros p x A. destruct p as [|k p]; [cbn [dict_at]; eauto|].
    destruct (dict_at_cons _ _ _ _ A) as (y & G & Ay).
    destruct (dict_at_mapping _ _ _ Ay) as (xm & ->).
    destruct (Sub _ _ G) as (merged & Gm & _ & Map & _).
    cbn [dict_at]. rewrite Gm. exact (Map _ _ Ay).
  - intros q x k rest A M. destruct q as [|k0 q].
    + injection A as <-. cbn [app dict_at].
      now rewrite (update_items_frame _ _ _ k E M).
    + destruct (dict_at_cons _ _ _ _ A) as (y & G & Ay).
      destruct (dict_at_mapping _ _ _ Ay) as (xm & ->).
      destruct (Sub _ _ G) as (merged & Gm & _ & _ & Frame).
      cbn [app dict_at]. rewrite Gm, (Frame _ _ k rest Ay M).
      destruct (dict_get dm k0); [reflexivity|].
      destruct q; reflexivity.
Qed.

(** C2.  The merge law of [update], for every Config and every mapping
    [other] (keys unique in each of its mappings), along every path of keys:
    a value of [other] that is not a mapping is the value of the result at
    its path, whatever was there; a mapping of [other] is a mapping of the
    result; and what [other] does not mention, at any depth, is as it was.
    For one item: [{k: m}] with a mapping [m] stores at [k] the merge of [m]
    into the value at [k] (into the empty mapping when [k] is absent, which
    stores [m]); [{k: v}] with another value stores [v] whatever the prior
    value was.  In particular [{"a": {"b": 1}}] updated with
    [{"a": {"c": 2}}] is [{"a": {"b": 1, "c": 2}}], and updated with
    [{"a": 5}] it is [{"a": 5}]. *)
Theorem update_merge_law (self r : Config) (other : dict) :
  unique_keys (VDict other) ->
  update self other = Ok r ->
  (forall p v,
     dict_at (VDict other) p = Some v -> (forall x, v <> VDict x) ->
     dict_at (VDict (_data r)) p = Some v)
  /\ (forall p x,
        dict_at (VDict other) p = Some (VDict x) ->
        exists y, dict_at (VDict (_data r)) p = Some (VDict y))
  /\ (forall q x k rest,
        dict_at (VDict other) q = Some (VDict x) -> dict_mem x k = false ->
        dict_at (VDict (_data r)) (q ++ k :: rest)
        = dict_at (VDict (_data self)) (q ++ k :: rest))
  /\ (forall k m,
        update self [(k, VDict m)]
        = (merged <- doUpdate (match dict_get (_data self) k with
                               | Some x => x
                               | None => VDict []
                               end) (VDict m) ;;
           Ok {| _data := dict_set (_data self) k merged; _D := _D self;
                 configFile := configFile self |}))
  /\ (forall k m,
        dict_get (_data self) k = None -> unique_keys (VDict m) ->
        update self [(k, VDict m)]
        = Ok {| _data := dict_set (_data self) k (VDict m); _D := _D self;
                configFile := configFile self |})
  /\ (forall k v, (forall x, v <> VDict x) ->
        update self [(k, v)]
        = Ok {| _data := dict_set (_data self) k v; _D := _D self;
                configFile := configFile self |})
  /\ update (Config_with [(KStr (py "a"), VDict [(KStr (py "b"), VInt 1)])])
            [(KStr (py "a"), VDict [(KStr (py "c"), VInt 2)])]
     = Ok (Config_with [(KStr (py "a"),
                         VDict [(KStr (py "b"), VInt 1);
                                (KStr (py "c"), VInt 2)])])
  /\ update (Config_with [(KStr (py "a"), VDict [(KStr (py "b"), VInt 1)])])
            [(KStr (py "a"), VInt 5)]
     = Ok (Config_with [(KStr (py "a"), VInt 5)]).
Proof.
  intros U E.
  assert (forall k m,
             update self [(k, VDict m)]
             = (merged <- doUpdate (match dict_get (_data self) k with
                                    | Some x => x
                                    | None => VDict []
                                    end) (VDict m) ;;
                Ok {| _data := dict_set (_data self) k merged; _D := _D self;
                      configFile := configFile self |})) as One.
  { intros k m. unfold update. rewrite doUpdate_items. cbn [update_items].
    destruct (doUpdate _ (VDict m)) as [x|e] eqn:D; [|reflexivity].
    cbn [bind]. now destruct (doUpdate_dict _ _ _ D) as (_ & _ & y & _ & _ & ->). }
  unfold update in E. unbind E. rename a into res.
  destruct (doUpdate_dict _ _ _ E0) as (_ & _ & m & _ & _ & ->).
  injection E as <-. cbn [_data].
  destruct (doUpdate_paths _ _ _ _ (Nat.le_refl _) U E0) as (Leaf & Map & Frame).
  split; [exact Leaf|]. split; [exact Map|]. split; [exact Frame|].
  split; [exact One|]. split; [|split; [|split; reflexivity]].
  - intros k x G Ux. rewrite One, G, doUpdate_items.
    rewrite (update_items_append (value_size (VDict x)) x []); auto.
  - intros k v L. unfold update. rewrite doUpdate_items. cbn [update_items].
    destruct v; try reflexivity. now destruct (L d).
Qed.

(** A merge that returns met no value of [d] that is not a mapping where
    [u] has one. *)
Lemma doUpdate_compatible (n : nat) :
  forall d u r,
    value_size u <= n -> unique_keys u -> doUpdate d u = Ok r ->
    forall p x, dict_at u p = Some (VDict x) -> mapping_path d p = true.
Proof.
  induction n as [|n IH]; intros d u r Sz U E p x A.
  { destruct u; cbn [value_size] in Sz; lia. }
  destruct (doUpdate_dict _ _ _ E) as (dm & um & m & -> & -> & ->).
  rewrite doUpdate_items in E.
  destruct p as [|k p]; [reflexivity|].
  destruct (dict_at_cons _ _ _ _ A) as (y & G & Ay).
  destruct (dict_at_mapping _ _ _ Ay) as (xm & ->).
  destruct (update_items_entry _ _ _ _ _ E (proj1 U) G) as (merged & D & _).
  cbn [mapping_path]. destruct (dict_get dm k) as [e0|]; [|reflexivity].
  apply (IH _ _ _) with (p := p) (x := x) in D; auto.
  - pose proof (value_size_get _ _ _ G). lia.
  - exact (unique_keys_get _ _ _ U G).
Qed.

(** A merge that raises met such a value. *)
Lemma doUpdate_clash (n : nat) :
  forall d um e,
    value_size (VDict um) <= n -> unique_keys (VDict um) ->
    doUpdate d (VDict um) = Err e ->
    exists p x,
      dict_at (VDict um) p = Some (VDict x) /\ mapping_path d p = false.
Proof.
  induction n as [|n IH]; intros d um e Sz U E.
  { cbn [value_size] in Sz; lia. }
  destruct d as [| | | | |dm];
    try (exists [], um; split; reflexivity).
  rewrite doUpdate_items in E.
  assert (forall rest dm0,
             value_size (VDict rest) <= S n -> unique_keys (VDict rest) ->
             update_items rest dm0 = Err e ->
             exists k p x,
               dict_at (VDict rest) (k :: p) = Some (VDict x) /\
               mapping_path (VDict dm0) (k :: p) = false) as Inner.
  { clear um dm Sz U E.
    induction rest as [|[k0 v0] rest IHr]; intros dm0 Sz U E; [discriminate E|].
    cbn [value_size] in Sz. cbn [unique_keys dict_keys map fst] in U.
    destruct U as (ND & U0 & Ur). apply NoDup_cons_iff in ND as [N0 ND].
    assert (forall y,
               update_items rest (dict_set dm0 k0 y) = Err e ->
               exists k p x,
                 dict_at (VDict ((k0, v0) :: rest)) (k :: p) = Some (VDict x) /\
                 mapping_path (VDict dm0) (k :: p) = false) as Tail.
    { intros y E'.
      destruct (IHr (dict_set dm0 k0 y)) as (k & p & x & A & M); auto.
      { cbn [value_size]. lia. }
      { cbn [unique_keys]. split; assumption. }
      exists k, p, x.
      assert (k0 <> k) as K.
      { intros ->. destruct (dict_at_cons _ _ _ _ A) as (w & G & _).
        apply N0. apply dict_mem_keys_iff, dict_mem_get. eauto. }
      split.
      - cbn [dict_at dict_get] in A |- *.
        apply key_eqb_neq in K. now rewrite K.
      - cbn [mapping_path] in M |- *.
        now rewrite dict_get_set_other in M by exact K. }
    cbn [update_items] in E. destruct v0 as [| | | | |x0]; eauto.
    destruct (doUpdate _ (VDict x0)) as [y|e1] eqn:D; cbn [bind] in E;
      [eauto|].
    injection E as ->.
    assert (value_size (VDict x0) <= n) as Sx by lia.
    destruct (IH _ _ _ Sx U0 D) as (p & x & A & M).
    exists k0, p, x. split.
    - cbn [dict_at dict_get]. now rewrite key_eqb_refl.
    - cbn [mapping_path]. destruct (dict_get dm0 k0) as [e0|]; [exact M|].
      now rewrite mapping_path_empty in M. }
  destruct (Inner um dm Sz U E) as (k & p & x & A & M). eauto.
Qed.

(** X3.  [update] raises exactly when a mapping of [other] (keys unique)
    meets a value of [self] that is not a mapping: the exception is the
    [RuntimeError] of [doUpdate], it is raised when there is a path that
    leads to a mapping in [other] and along which [self] has a value that
    is not a mapping, and in no other case. *)
Theorem update_only_RuntimeError (self : Config) (other : dict) (e : exn) :
  unique_keys (VDict other) ->
  update self other = Err e <->
  e = RuntimeError /\
  exists p x,
    dict_at (VDict other) p = Some (VDict x) /\
    mapping_path (VDict (_data self)) p = false.
Proof.
  intros U. unfold update.
  destruct (doUpdate (VDict (_data self)) (VDict other)) as [r|e'] eqn:D;
    cbn [bind].
  - destruct (doUpdate_dict _ _ _ D) as (_ & _ & m & _ & _ & ->).
    split; [discriminate|].
    intros (_ & p & x & A & M).
    rewrite (doUpdate_compatible _ _ _ _ (Nat.le_refl _) U D p x A) in M.
    discriminate M.
  - pose proof (doUpdate_errors _ _ _ _ (Nat.le_refl _) D) as ->.
    split.
    + intros [= <-]. split; [reflexivity|].
      exact (doUpdate_clash _ _ _ _ (Nat.le_refl _) U D).
    + now intros (-> & _).
Qed.

End MergeLaw.

(** ** Deletion: what is removed and what stays *)

Section DeletionFrame.
Context {H : Host}.

Lemma filter_other_keys (k : key) (l : list key) :
  ~ In k l -> filter (fun k' => negb (key_eqb k k')) l = l.
Proof.
  induction l as [|a l IH]; intros N; [reflexivity|].
  cbn [filter]. destruct (key_eqb k a) eqn:A.
  - apply key_eqb_eq in A. subst a. exfalso. apply N. now left.
  - cbn [negb]. f_equal. apply IH. intros X. apply N. now right.
Qed.

Lemma dict_keys_remove_filter (m : dict) (k : key) :
  NoDup (dict_keys m) ->
  dict_keys (dict_remove m k)
  = filter (fun k' => negb (key_eqb k k')) (dict_keys m).
Proof.
  induction m as [|[k0 v0] t IH]; intros N; [reflexivity|].
  cbn [dict_keys map fst] in N. apply NoDup_cons_iff in N as [N0 N].
  cbn [dict_remove dict_keys map fst filter].
  rewrite (key_eqb_sym k k0). destruct (key_eqb k0 k) eqn:K; cbn [negb].
  - apply key_eqb_eq in K. subst k0.
    symmetry. exact (filter_other_keys _ _ N0).
  - cbn [dict_keys map fst]. f_equal. exact (IH N).
Qed.

(** What a deletion leaves of a node above the parent of the deleted
    entry: only the entry that was walked through can differ. *)
Lemma del_walk_ancestor (last : key) (pre : list key) :
  forall d d' q k r,
    del_walk d pre last = Ok d' -> pre = q ++ k :: r ->
    (forall m,
       node_at d q = Ok (VDict m) ->
       exists m',
         node_at d' q = Ok (VDict m') /\ dict_keys m' = dict_keys m /\
         forall k', k' <> k -> dict_get m' k' = dict_get m k')
    /\ (forall l,
          node_at d q = Ok (VList l) ->
          exists l',
            node_at d' q = Ok (VList l') /\ length l' = length l /\
            forall i j, int_of_key k = Some i ->
                        norm_index l j <> norm_index l i ->
                        list_index l' j = list_index l j).
Proof.
  induction pre as [|k0 ks IH]; intros d d' q k r E P.
  { destruct q; discriminate P. }
  cbn [del_walk] in E. unbind E. destruct a as [[d1 nv] t].
  destruct t; [|discriminate]. unbind E. rename a into child.
  injection E as <-.
  pose proof (check_nocreate _ _ _ _ _ E0) as ->.
  destruct q as [|k1 q]; cbn [app] in P; injection P as <- Pk.
  - subst ks. cbn [node_at]. split.
    + intros m [= ->]. cbn [checkNextItem] in E0.
      destruct (dict_get m k0) as [x|] eqn:G; [|discriminate].
      cbn [put_child]. eexists. split; [reflexivity|]. split.
      * rewrite dict_keys_set. unfold dict_mem. rewrite G. apply app_nil_r.
      * intros k' K. apply dict_get_set_other. congruence.
    + intros l [= ->]. cbn [checkNextItem] in E0.
      destruct (int_of_key k0) as [i0|] eqn:Ik.
      2:{ injection E0 as <- _. exfalso.
          exact (del_walk_dead _ _ _ _ (or_introl eq_refl) E1). }
      destruct (list_index l i0) as [x|] eqn:Li; [|discriminate].
      destruct (list_assign_defined l i0 x child Li) as (l' & A).
      cbn [put_child]. rewrite Ik, A. exists l'.
      split; [reflexivity|].
      assert (length l' = length l) as L.
      { unfold list_assign in A. destruct (norm_index l i0); [|discriminate].
        injection A as <-. apply set_nth_length. }
      split; [exact L|].
      intros i j [= <-] J. unfold list_index.
      rewrite (norm_index_same_length l l' j L).
      destruct (norm_index l j) as [n|]; [|reflexivity].
      unfold list_assign in A. destruct (norm_index l i0) as [n0|];
        [|discriminate]. injection A as <-.
      apply nth_error_set_nth_other. congruence.
  - destruct (IH _ _ _ _ _ E1 Pk) as [Dm Dl].
    assert (forall x, node_at d (k0 :: q) = Ok x -> node_at nv q = Ok x) as Down.
    { intros x. cbn [node_at]. now rewrite E0. }
    assert (forall x, node_at child q = Ok x ->
                      node_at (put_child d k0 child) (k0 :: q) = Ok x) as Up.
    { intros x Nx. destruct (check_put _ _ _ _ _ E0) as [D|P].
      - exfalso. exact (del_walk_dead _ _ _ _ D E1).
      - cbn [node_at]. now rewrite P. }
    split.
    + intros m Nm. destruct (Dm m (Down _ Nm)) as (m' & N' & R). eauto.
    + intros l Nl. destruct (Dl l (Down _ Nl)) as (l' & N' & R). eauto.
Qed.

(** C7.  After [del self[name]] has returned, for the path [pre + (last,)]
    that [name] stands for: every ancestor of the deleted entry is still
    contained; a mapping above the parent has the keys it had, in their
    order, and the same value under each key but the one the path walks
    through (a list above the parent has its length and its other elements);
    the parent mapping has lost the key [last] and nothing else, its other
    keys keep their order and values; and a parent that held nothing else
    is now the empty mapping, which reading it returns. *)
Theorem deletion_leaves_ancestors (c c' : Config) (n : name)
  (pre : list key) (last : key) :
  getKeyHierarchy c n = Ok (pre ++ [last]) ->
  delitem c n = Ok c' ->
  (forall q r, pre = q ++ r -> contains c' (NTuple q) = Ok true)
  /\ (forall q k r m,
        pre = q ++ k :: r ->
        node_at (VDict (_data c)) q = Ok (VDict m) ->
        exists m',
          node_at (VDict (_data c')) q = Ok (VDict m') /\
          dict_keys m' = dict_keys m /\
          forall k', k' <> k -> dict_get m' k' = dict_get m k')
  /\ (forall q k r l,
        pre = q ++ k :: r ->
        node_at (VDict (_data c)) q = Ok (VList l) ->
        exists l',
          node_at (VDict (_data c')) q = Ok (VList l') /\
          length l' = length l /\
          forall i j, int_of_key k = Some i ->
                      norm_index l j <> norm_index l i ->
                      list_index l' j = list_index l j)
  /\ (forall m,
        node_at (VDict (_data c)) pre = Ok (VDict m) ->
        NoDup (dict_keys m) ->
        exists m',
          node_at (VDict (_data c')) pre = Ok (VDict m') /\
          dict_mem m last = true /\ dict_mem m' last = false /\
          dict_keys m'
          = filter (fun k' => negb (key_eqb last k')) (dict_keys m) /\
          forall k', k' <> last -> dict_get m' k' = dict_get m k')
  /\ (forall h m,
        findInHierarchy (VDict (_data c)) pre = Ok (h, true) ->
        last_of h = Ok (VDict m) ->
        exists h',
          findInHierarchy (VDict (_data c')) pre = Ok (h', true) /\
          last_of h' = Ok (VDict (dict_remove m last)))
  /\ (forall h x,
        findInHierarchy (VDict (_data c)) pre = Ok (h, true) ->
        last_of h = Ok (VDict [(last, x)]) ->
        getitem c' (NTuple pre)
        = Ok (IConfig {| _data := []; _D := _D c; configFile := None |}))
  /\ _D c' = _D c /\ configFile c' = configFile c.
Proof.
  intros G E. unfold delitem in E. rewrite G in E. cbn [bind] in E.
  rewrite pop_snoc in E. cbn [bind] in E. unbind E. rename a into d'.
  assert (exists m', d' = VDict m') as (m' & ->).
  { destruct d'; try discriminate E. eauto. }
  cbn [with_data] in E. injection E as <-. cbn [_data _D configFile].
  assert (forall h m,
             findInHierarchy (VDict (_data c)) pre = Ok (h, true) ->
             last_of h = Ok (VDict m) ->
             exists h',
               findInHierarchy (VDict m') pre = Ok (h', true) /\
               last_of h' = Ok (VDict (dict_remove m last))) as Parent.
  { intros h m F L. exact (del_walk_parent _ _ _ _ _ _ E0 F L). }
  split; [|split; [|split; [|split; [|split; [exact Parent|split]]]]].
  - intros q r P.
    destruct (del_walk_prefix _ _ _ _ q r E0 P) as (h & F).
    unfold contains. cbn [getKeyHierarchy splitIntoKeys bind _data].
    now rewrite F.
  - intros q k r m P Nm.
    exact (proj1 (del_walk_ancestor _ _ _ _ _ _ _ E0 P) m Nm).
  - intros q k r l P Nl.
    exact (proj2 (del_walk_ancestor _ _ _ _ _ _ _ E0 P) l Nl).
  - intros m Nm ND.
    pose proof (del_walk_at last pre _ _ Nm (not_dead_dict m)) as W.
    cbn [delete] in W. destruct (dict_mem m last) eqn:M.
    2:{ rewrite E0 in W. discriminate W. }
    destruct W as (d1 & Dw & Nd). rewrite E0 in Dw. injection Dw as <-.
    exists (dict_remove m last). split; [exact Nd|].
    split; [reflexivity|]. split; [exact (dict_mem_remove_same _ _ ND)|].
    split; [exact (dict_keys_remove_filter _ _ ND)|].
    intros k' K. apply dict_get_remove_other. congruence.
  - intros h x F L. destruct (Parent h _ F L) as (h' & F' & L').
    unfold getitem. cbn [getKeyHierarchy splitIntoKeys bind _data].
    rewrite F'. cbn [bind]. rewrite L'. cbn [bind dict_remove].
    now rewrite key_eqb_refl.
  - split; reflexivity.
Qed.

End DeletionFrame.

(** ** names: the candidates and the choice *)

Section DelimiterChoice.
Context {H : Host}.

Lemma nth_candidate_S (i : nat) :
  forall d0,
    nth_candidate (S i) d0 = (d <- nth_candidate i d0 ;; advance d).
Proof.
  induction i as [|i IH]; intros d0.
  - cbn [nth_candidate bind]. destruct (advance d0); reflexivity.
  - change (nth_candidate (S (S i)) d0)
      with (d1 <- advance d0 ;; nth_candidate (S i) d1).
    cbn [nth_candidate]. destruct (advance d0) as [d1|e]; cbn [bind];
      [|reflexivity].
    apply IH.
Qed.

Lemma choose_errors (combined : str) (budget : nat) :
  forall d0 e, choose_delimiter budget d0 combined = Err e -> e = ValueError.
Proof.
  induction budget as [|b IH]; intros d0 e; cbn [choose_delimiter];
    destruct (str_in [d0] combined); try discriminate.
  - now intros [= <-].
  - pose proof (advance_cases d0) as C.
    destruct (advance d0) as [d1|e1]; cbn [bind].
    + apply IH.
    + destruct C as (-> & _). now intros [= <-].
Qed.


End DelimiterChoice.

(** ** The claims on the example host *)

#[local] Existing Instance example_host.

Lemma notation_equivalence_witness :
  in_data nested_config (NKey (KStr (py ".a.b"))) = false
  /\ getitem nested_config (NKey (KStr (py ".a.b")))
     = getitem nested_config (NTuple [KStr (py "a"); KStr (py "b")])
  /\ getitem nested_config (NTuple [KStr (py "a"); KStr (py "b")])
     = Ok (IVal (VInt 1)).
Proof.
  split; [reflexivity|]. split; [|reflexivity].
  refine (proj1 (notation_equivalence nested_config 46%N [py "a"; py "b"]
                   eq_refl _ _ _ _ eq_refl)).
  - discriminate.
  - discriminate.
  - discriminate.
  - intros s [<-|[<-|[]]]; split; intros I; simpl in I; intuition discriminate.
Defined.

(** C1 as stated fails: a top-level key that looks like a delimited string
    shadows the path it would otherwise stand for. *)
Lemma notation_equivalence_counterexample :
  render [46%N] (map KStr [py "a"; py "b"]) = py ".a.b"
  /\ getitem shadowed_config (NTuple [KStr (py "a"); KStr (py "b")])
     = Ok (IVal (VInt 2))
  /\ getitem shadowed_config (NKey (KStr (py ".a.b"))) = Ok (IVal (VInt 1))
  /\ getitem shadowed_config (NKey (KStr (py ".a.b")))
     <> getitem shadowed_config (NTuple [KStr (py "a"); KStr (py "b")]).
Proof. repeat split; discriminate. Qed.

Lemma update_merge_law_witness :
  update nested_config
    [(KStr (py "a"), VDict [(KStr (py "c"), VInt 2); (KStr (py "d"), VInt 3)]);
     (KStr (py "z"), VInt 5)]
  = Ok (Config_with
          [(KStr (py "a"),
            VDict [(KStr (py "b"), VInt 1); (KStr (py "c"), VInt 2);
                   (KStr (py "d"), VInt 3)]);
           (KStr (py "z"), VInt 5)])
  /\ dict_at
       (VDict [(KStr (py "a"),
                VDict [(KStr (py "b"), VInt 1); (KStr (py "c"), VInt 2);
                       (KStr (py "d"), VInt 3)]);
               (KStr (py "z"), VInt 5)])
       [KStr (py "a"); KStr (py "d")]
     = Some (VInt 3)
  /\ dict_at
       (VDict [(KStr (py "a"),
                VDict [(KStr (py "b"), VInt 1); (KStr (py "c"), VInt 2);
                       (KStr (py "d"), VInt 3)]);
               (KStr (py "z"), VInt 5)])
       [KStr (py "a"); KStr (py "b")]
     = dict_at (VDict (_data nested_config)) [KStr (py "a"); KStr (py "b")].
Proof.
  assert (unique_keys
            (VDict [(KStr (py "a"),
                     VDict [(KStr (py "c"), VInt 2); (KStr (py "d"), VInt 3)]);
                    (KStr (py "z"), VInt 5)])) as U.
  { cbn. repeat split; try exact I; repeat constructor; cbn;
      intuition discriminate. }
  pose proof (update_merge_law nested_config
                (Config_with
                   [(KStr (py "a"),
                     VDict [(KStr (py "b"), VInt 1); (KStr (py "c"), VInt 2);
                            (KStr (py "d"), VInt 3)]);
                    (KStr (py "z"), VInt 5)])
                [(KStr (py "a"),
                  VDict [(KStr (py "c"), VInt 2); (KStr (py "d"), VInt 3)]);
                 (KStr (py "z"), VInt 5)]
                U eq_refl) as (Leaf & _ & Frame & _).
  split; [reflexivity|]. split.
  - refine (Leaf [KStr (py "a"); KStr (py "d")] (VInt 3) eq_refl _).
    discriminate.
  - exact (Frame [KStr (py "a")]
             [(KStr (py "c"), VInt 2); (KStr (py "d"), VInt 3)]
             (KStr (py "b")) [] eq_refl eq_refl).
Defined.


Lemma defaults_layering_witness :
  ConfigSubset_init 3 defaults_class (SMapping [(KStr (py "b"), VInt 3)])
    true true []
  = Ok {| config := Config_with [(KStr (py "a"), VInt 1); (KStr (py "b"), VInt 3)];
          filesRead := [py "/pkg/config/d.yaml"; py "/env/d.yaml"] |}.
Proof.
  exact (proj1 (proj2 (proj2
    (defaults_layering 2 defaults_class (SMapping [(KStr (py "b"), VInt 3)])
       true [] (py "d.yaml")
       (Config_with [(KStr (py "b"), VInt 3)])
       (Config_with [(KStr (py "b"), VInt 3)])
       {| config := Config_with [(KStr (py "a"), VInt 1); (KStr (py "b"), VInt 2)];
          filesRead := [py "/pkg/config/d.yaml"; py "/env/d.yaml"] |}
       eq_refl eq_refl eq_refl eq_refl eq_refl eq_refl)))).
Defined.

Lemma validation_completeness_witness :
  ConfigSubset_init 1 required_class (SMapping [(KStr (py "x"), VInt 1)])
    true true []
  = Err (MissingKeys [KStr (py "y")])
  /\ forall k,
       In k [KStr (py "y")] <->
       In k (requiredKeys required_class) /\
       dict_mem [(KStr (py "x"), VInt 1)] k = false.
Proof.
  split; [reflexivity|].
  exact (proj2 (proj2 (proj2
    (validation_completeness required_class
       {| config := Config_with [(KStr (py "x"), VInt 1)]; filesRead := [] |}))
    [KStr (py "y")] eq_refl)).
Defined.

(** C6 as stated fails: a required key that is a path and that the
    document contains is reported as missing all the same. *)
Lemma validation_completeness_counterexample :
  contains nested_config (NKey (KStr (py ".a.b"))) = Ok true
  /\ validate path_required_class {| config := nested_config; filesRead := [] |}
     = Err (MissingKeys [KStr (py ".a.b")]).
Proof. split; reflexivity. Qed.

Lemma deletion_leaves_ancestors_witness :
  setitem Config_empty (NKey (KStr (py ".a.b"))) (IVal (VInt 1))
  = Ok nested_config
  /\ delitem nested_config (NKey (KStr (py ".a.b")))
     = Ok (Config_with [(KStr (py "a"), VDict [])])
  /\ contains (Config_with [(KStr (py "a"), VDict [])]) (NTuple [KStr (py "a")])
     = Ok true
  /\ getitem (Config_with [(KStr (py "a"), VDict [])]) (NTuple [KStr (py "a")])
     = Ok (IConfig Config_empty)
  /\ contains (Config_with [(KStr (py "a"), VDict [])]) (NKey (KStr (py "a")))
     = Ok true
  /\ getitem (Config_with [(KStr (py "a"), VDict [])]) (NKey (KStr (py "a")))
     = Ok (IConfig Config_empty)
  /\ delitem siblings_config (NKey (KStr (py ".a.b.c")))
     = Ok (Config_with
             [(KStr (py "a"),
               VDict [(KStr (py "b"), VDict []); (KStr (py "y"), VInt 2)]);
              (KStr (py "z"), VInt 9)])
  /\ (exists m',
        node_at
          (VDict [(KStr (py "a"),
                   VDict [(KStr (py "b"), VDict []); (KStr (py "y"), VInt 2)]);
                  (KStr (py "z"), VInt 9)])
          [KStr (py "a")]
        = Ok (VDict m') /\
        dict_keys m' = [KStr (py "b"); KStr (py "y")] /\
        forall k', k' <> KStr (py "b") ->
          dict_get m' k'
          = dict_get [(KStr (py "b"), VDict [(KStr (py "c"), VInt 1)]);
                      (KStr (py "y"), VInt 2)] k').
Proof.
  pose proof (deletion_leaves_ancestors nested_config
                (Config_with [(KStr (py "a"), VDict [])])
                (NKey (KStr (py ".a.b"))) [KStr (py "a")] (KStr (py "b"))
                eq_refl eq_refl) as (Ancestors & _ & _ & _ & _ & Empty & _).
  pose proof (deletion_leaves_ancestors siblings_config
                (Config_with
                   [(KStr (py "a"),
                     VDict [(KStr (py "b"), VDict []); (KStr (py "y"), VInt 2)]);
                    (KStr (py "z"), VInt 9)])
                (NKey (KStr (py ".a.b.c"))) [KStr (py "a"); KStr (py "b")]
                (KStr (py "c")) eq_refl eq_refl) as (_ & Above & _).
  split; [reflexivity|]. split; [reflexivity|].
  split; [exact (Ancestors [KStr (py "a")] [] eq_refl)|].
  split; [|split; [reflexivity|split; [reflexivity|split; [reflexivity|]]]].
  - exact (Empty [VDict [(KStr (py "b"), VInt 1)]] (VInt 1) eq_refl eq_refl).
  - exact (Above [KStr (py "a")] (KStr (py "b")) []
             [(KStr (py "b"), VDict [(KStr (py "c"), VInt 1)]);
              (KStr (py "y"), VInt 2)]
             eq_refl eq_refl).
Defined.

Lemma escape_round_trip_witness :
  splitIntoKeys (NKey (KStr (py ".a.b\.c")))
  = Ok [KStr (py "a"); KStr (py "b.c")]
  /\ exists c',
       setitem Config_empty (NKey (KStr (py ".a.b\.c"))) (IVal (VInt 1)) = Ok c'
       /\ getitem c' (NKey (KStr (py ".a.b\.c"))) = Ok (IVal (VInt 1)).
Proof.
  refine (escape_round_trip Config_empty 46%N [py "a"; py "b.c"] (IVal (VInt 1))
            eq_refl _ _ _ _ eq_refl).
  - discriminate.
  - discriminate.
  - discriminate.
  - intros s [<-|[<-|[]]]; split; intros I; simpl in I; intuition discriminate.
Defined.

(** C8 as stated fails.  A key with a backslash before the delimiter cannot
    be written in escape syntax: the assignment raises [ValueError].  And
    [__setitem__] does not read [complete]: through a list index that is out
    of range it assigns into the list itself, and the same escaped
    expression does not resolve afterwards. *)
Lemma escape_round_trip_counterexample :
  (In 46%N (py "x\.y")
   /\ render [46%N] [KStr (py "x\.y")] = py ".x\\.y"
   /\ setitem Config_empty (NKey (KStr (render [46%N] [KStr (py "x\.y")])))
        (IVal (VInt 1))
      = Err ValueError)
  /\ (setitem_flag list_config (NKey (KStr (py ".x\.y.7.0"))) (IVal (VInt 99))
      = Ok (Config_with [(KStr (py "x.y"), VList [VInt 99; VInt 20])], false)
      /\ getitem (Config_with [(KStr (py "x.y"), VList [VInt 99; VInt 20])])
           (NKey (KStr (py ".x\.y.7.0")))
         = Err KeyError).
Proof.
  split; [|split; reflexivity].
  split; [simpl; tauto|]. split; reflexivity.
Qed.

Lemma string_descent_witness :
  getitem string_config (NTuple [KStr (py "a")]) = Ok (IVal (VStr (py "hey")))
  /\ contains string_config (NTuple [KStr (py "a"); KInt 1]) = Ok true
  /\ getitem string_config (NTuple [KStr (py "a"); KInt 1])
     = Ok (IVal (VStr (py "e"))).
Proof.
  split; [reflexivity|].
  refine (string_descent string_config [KStr (py "a")] (py "hey") 1
            eq_refl _).
  simpl. lia.
Defined.

(** On the example host the candidates after the default delimiter are the
    following code points. *)
Lemma example_candidates (i : nat) :
  forall d, (122 < d)%N -> (d + N.of_nat i <= 1114111)%N ->
  nth_candidate i d = Ok (d + N.of_nat i)%N.
Proof.
  induction i as [|i IH]; intros d L R; cbn [nth_candidate].
  - now rewrite N.add_0_r.
  - rewrite (advance_next d).
    + cbn [bind]. rewrite IH by lia. f_equal. lia.
    + lia.
    + cbn [isalnum example_host]. unfold ascii_isalnum.
      replace (d + 1 <=? 57)%N with false by (symmetry; apply N.leb_gt; lia).
      replace (d + 1 <=? 90)%N with false by (symmetry; apply N.leb_gt; lia).
      replace (d + 1 <=? 122)%N with false by (symmetry; apply N.leb_gt; lia).
      now rewrite !andb_false_r.
Qed.

Lemma crowded_collisions (i : nat) :
  i <= 100 ->
  exists d,
    nth_candidate i (_D crowded_config) = Ok d /\
    str_in [d] (combined_of (nameTuples crowded_config false)) = true.
Proof.
  intros L. exists (8594 + N.of_nat i)%N. split.
  - apply example_candidates; [reflexivity | lia].
  - apply str_in_char.
    change (combined_of (nameTuples crowded_config false))
      with ((crowded_key ++ []) ++ []).
    rewrite !app_nil_r. unfold crowded_key.
    apply (in_map (fun i => (8594 + N.of_nat i)%N)). apply in_seq. lia.
Qed.


(** The scenarios do not depend on the depth bound once it is large
    enough. *)
Lemma include_scenario_any_depth (fuel : nat) :
  2 <= fuel ->
  Config_fromFile fuel (py "/w/A.yaml")
  = Ok {| _data := [(KStr (py "x"), VInt 1); (KStr (py "y"), VInt 3)];
          _D := Config_D; configFile := Some (py "/w/A.yaml") |}.
Proof.
  intros L. apply (Config_fromFile_depth 2 fuel); [exact L | reflexivity].
Qed.

Lemma defaults_scenario_any_depth (fuel : nat) :
  3 <= fuel ->
  ConfigSubset_init fuel defaults_class (SMapping [(KStr (py "b"), VInt 3)])
    true true []
  = Ok {| config := Config_with [(KStr (py "a"), VInt 1); (KStr (py "b"), VInt 3)];
          filesRead := [py "/pkg/config/d.yaml"; py "/env/d.yaml"] |}.
Proof.
  intros L. apply (ConfigSubset_init_depth 3 fuel); [exact L | reflexivity].
Qed.

(** ** The further properties on the example host *)

Ltac unique_keys_tac :=
  cbn; repeat split; try exact I; repeat constructor; cbn;
  intuition discriminate.

Lemma update_keeps_keys_witness :
  update nested_config
    [(KStr (py "a"), VDict [(KStr (py "c"), VInt 2)]); (KStr (py "z"), VInt 5)]
  = Ok (Config_with
          [(KStr (py "a"), VDict [(KStr (py "b"), VInt 1); (KStr (py "c"), VInt 2)]);
           (KStr (py "z"), VInt 5)])
  /\ exists added,
       [KStr (py "a"); KStr (py "z")] = dict_keys (_data nested_config) ++ added.
Proof.
  split; [reflexivity|].
  exact (proj1 (update_keeps_keys nested_config
                  (Config_with
                     [(KStr (py "a"),
                       VDict [(KStr (py "b"), VInt 1); (KStr (py "c"), VInt 2)]);
                      (KStr (py "z"), VInt 5)])
                  [(KStr (py "a"), VDict [(KStr (py "c"), VInt 2)]);
                   (KStr (py "z"), VInt 5)]
                  eq_refl)).
Defined.

Lemma update_idempotent_witness :
  update (Config_with
            [(KStr (py "a"), VDict [(KStr (py "b"), VInt 1); (KStr (py "c"), VInt 2)]);
             (KStr (py "z"), VInt 5)])
    [(KStr (py "a"), VDict [(KStr (py "c"), VInt 2)]); (KStr (py "z"), VInt 5)]
  = Ok (Config_with
          [(KStr (py "a"), VDict [(KStr (py "b"), VInt 1); (KStr (py "c"), VInt 2)]);
           (KStr (py "z"), VInt 5)]).
Proof.
  apply (update_idempotent nested_config); [|reflexivity].
  unique_keys_tac.
Defined.

Lemma update_only_RuntimeError_witness :
  update (Config_with [(KStr (py "a"), VInt 1)])
    [(KStr (py "a"), VDict [(KStr (py "b"), VInt 2)])]
  = Err RuntimeError.
Proof.
  refine (proj2 (update_only_RuntimeError
                   (Config_with [(KStr (py "a"), VInt 1)])
                   [(KStr (py "a"), VDict [(KStr (py "b"), VInt 2)])]
                   RuntimeError _) _).
  - unique_keys_tac.
  - split; [reflexivity|].
    exists [KStr (py "a")], [(KStr (py "b"), VInt 2)]. split; reflexivity.
Defined.

Lemma Config_init_copies_witness :
  Config_init 0 (SMapping (_data mixed_config)) = Ok mixed_config.
Proof.
  refine (proj1 (Config_init_copies 0 (_data mixed_config) _)).
  unique_keys_tac.
Defined.

Lemma merge_keeps_self_witness :
  merge (Config_with [(KStr (py "b"), VInt 3)]) (MConfig xy_config)
  = Ok (Config_with [(KStr (py "x"), VInt 1); (KStr (py "y"), VInt 2);
                     (KStr (py "b"), VInt 3)])
  /\ merge (Config_with [(KStr (py "y"), VInt 3)]) (MConfig xy_config)
     = Ok (Config_with [(KStr (py "x"), VInt 1); (KStr (py "y"), VInt 3)])
  /\ dict_get [(KStr (py "x"), VInt 1); (KStr (py "y"), VInt 3)] (KStr (py "y"))
     = Some (VInt 3).
Proof.
  split; [reflexivity|]. split; [reflexivity|].
  refine (proj1 (proj2 (proj2 (proj2 (proj2
            (merge_keeps_self (Config_with [(KStr (py "y"), VInt 3)]) xy_config
               (Config_with [(KStr (py "x"), VInt 1); (KStr (py "y"), VInt 3)])
               eq_refl)))))
            (KStr (py "y")) (VInt 3) _ eq_refl _).
  - repeat constructor. cbn. intuition discriminate.
  - discriminate.
Defined.

Lemma contains_agrees_with_getitem_witness :
  contains nested_config (NTuple [KStr (py "a"); KStr (py "b")]) = Ok true
  /\ (exists x,
        getitem nested_config (NTuple [KStr (py "a"); KStr (py "b")]) = Ok x)
  /\ contains nested_config (NTuple [KStr (py "a"); KStr (py "c")]) = Ok false
  /\ getitem nested_config (NTuple [KStr (py "a"); KStr (py "c")])
     = Err KeyError.
Proof.
  assert (unique_keys (VDict (_data nested_config))) as U by unique_keys_tac.
  split; [reflexivity|]. split; [|split; [reflexivity|]].
  - refine (proj1 (contains_agrees_with_getitem nested_config
                     (NTuple [KStr (py "a"); KStr (py "b")]) U) _).
    discriminate.
  - refine (proj1 (contains_agrees_with_getitem nested_config
                     (NTuple [KStr (py "a"); KStr (py "c")]) U) _).
    discriminate.
Defined.

Lemma list_item_assignment_witness :
  (exists c' l',
     setitem list_config (NTuple [KStr (py "x.y"); KInt (-1)]) (IVal (VInt 7))
     = Ok c' /\
     node_at (VDict (_data c')) [KStr (py "x.y")] = Ok (VList l') /\
     length l' = 2 /\ list_index l' (-1) = Some (VInt 7))
  /\ setitem list_config (NTuple [KStr (py "x.y"); KInt 2]) (IVal (VInt 7))
     = Err IndexError.
Proof.
  split.
  - pose proof (list_item_assignment list_config [KStr (py "x.y")]
                  [VInt 10; VInt 20] (-1) (IVal (VInt 7)) eq_refl) as W.
    hnf in W. destruct W as (c' & l' & Sv & Nd & Len & Ix & _).
    exists c', l'. repeat split; assumption.
  - exact (list_item_assignment list_config [KStr (py "x.y")]
             [VInt 10; VInt 20] 2 (IVal (VInt 7)) eq_refl).
Defined.

Lemma delitem_removes_key_witness :
  (exists c',
     delitem nested_config (NTuple [KStr (py "a"); KStr (py "b")]) = Ok c' /\
     contains c' (NTuple [KStr (py "a"); KStr (py "b")]) = Ok false /\
     getitem c' (NTuple [KStr (py "a"); KStr (py "b")]) = Err KeyError)
  /\ delitem nested_config (NTuple [KStr (py "a"); KStr (py "c")])
     = Err KeyError.
Proof.
  assert (NoDup (dict_keys [(KStr (py "b"), VInt 1)])) as N
    by (repeat constructor; cbn; intuition discriminate).
  split.
  - pose proof (delitem_removes_key nested_config [KStr (py "a")]
                  (KStr (py "b")) [(KStr (py "b"), VInt 1)] eq_refl N) as W.
    hnf in W. destruct W as (c' & Dl & _ & _ & Ct & Gt).
    exists c'. repeat split; assumption.
  - exact (delitem_removes_key nested_config [KStr (py "a")]
             (KStr (py "c")) [(KStr (py "b"), VInt 1)] eq_refl N).
Defined.

Lemma setitem_delitem_local_witness :
  setitem xy_config (NKey (KStr (py "x"))) (IVal (VInt 5))
  = Ok (Config_with [(KStr (py "x"), VInt 5); (KStr (py "y"), VInt 2)])
  /\ dict_get [(KStr (py "x"), VInt 5); (KStr (py "y"), VInt 2)] (KStr (py "y"))
     = dict_get (_data xy_config) (KStr (py "y")).
Proof.
  split; [reflexivity|].
  refine (proj1 (proj1 (setitem_delitem_local xy_config (NKey (KStr (py "x")))
                          (KStr (py "x")) [] eq_refl)
                   (IVal (VInt 5))
                   (Config_with [(KStr (py "x"), VInt 5); (KStr (py "y"), VInt 2)])
                   eq_refl)
            (KStr (py "y")) _).
  discriminate.
Defined.

Lemma render_splitIntoKeys_witness :
  splitIntoKeys (NKey (KStr (py ".a.b\.c")))
  = Ok [KStr (py "a"); KStr (py "b.c")]
  /\ render [46%N] [KStr (py "a"); KStr (py "b.c")] = py ".a.b\.c".
Proof.
  split; [reflexivity|].
  refine (render_splitIntoKeys 46%N (py "a.b\.c")
            [KStr (py "a"); KStr (py "b.c")] eq_refl _ eq_refl).
  discriminate.
Defined.

Lemma nameTuples_resolve_witness :
  contains mixed_config (NTuple [KStr (py "a"); KStr (py "b.c"); KInt 1])
  = Ok true.
Proof.
  refine (proj1 (proj2 (nameTuples_resolve mixed_config false
                          [KStr (py "a"); KStr (py "b.c"); KInt 1] _ _))).
  - unique_keys_tac.
  - right. right. right. left. reflexivity.
Defined.

Lemma names_resolve_witness :
  names mixed_config false None
  = Ok [KStr (8594%N :: py "a");
        KStr (8594%N :: py "a" ++ 8594%N :: py "b.c");
        KStr (8594%N :: py "a" ++ 8594%N :: py "b.c" ++ 8594%N :: py "0");
        KStr (8594%N :: py "a" ++ 8594%N :: py "b.c" ++ 8594%N :: py "1")]
  /\ contains mixed_config
       (NKey (KStr (8594%N :: py "a" ++ 8594%N :: py "b.c" ++ 8594%N :: py "1")))
     = Ok true.
Proof.
  split; [reflexivity|].
  refine (proj1 (names_resolve mixed_config None _ _ eq_refl _ _ _ eq_refl
                   (KStr (8594%N :: py "a" ++ 8594%N :: py "b.c"
                          ++ 8594%N :: py "1")) _)).
  - unique_keys_tac.
  - intros z Z0. change (value_size (VDict (_data mixed_config))) with 5 in Z0.
    assert (z = 0 \/ z = 1 \/ z = 2 \/ z = 3 \/ z = 4)%Z
      as [->|[->|[->|[->| ->]]]] by lia; reflexivity.
  - intros t k It Ik. vm_compute in It.
    repeat (destruct It as [<-|It]; [|]); try destruct It;
      vm_compute in Ik;
      repeat (destruct Ik as [<-|Ik]; [|]); try destruct Ik;
      split; intros X; vm_compute in X; intuition discriminate.
  - split; [reflexivity|reflexivity].
  - right. right. right. left. reflexivity.
Defined.

Lemma no_include_no_reading_witness :
  Config_fromFile 1 (py "/w/B.yaml") = Ok fileB_config.
Proof.
  refine (proj2 (no_include_no_reading (Config_fromFile 0) fileB_config _)
            0 (py "/w/B.yaml") eq_refl).
  intros t It. vm_compute in It.
  repeat (destruct It as [<-|It]; [reflexivity|]). destruct It.
Defined.

Lemma include_below_index_raises_witness :
  processExplicitIncludes (Config_fromFile 1) include_in_list_config
  = Err TypeError.
Proof.
  exact (include_below_index_raises (Config_fromFile 1) include_in_list_config
           [KStr (py "a"); KInt 0; includeKey] eq_refl eq_refl).
Defined.

Lemma include_failures_witness :
  processExplicitIncludes (Config_fromFile 1) missing_include_config
  = Err RuntimeError.
Proof.
  refine (proj2 (proj2 (include_failures (Config_fromFile 1)
                          missing_include_config [] (_data missing_include_config)
                          (VStr (py "missing.yaml"))
                          eq_refl eq_refl eq_refl eq_refl _))
            (py "missing.yaml") [] eq_refl eq_refl _).
  - discriminate.
  - intros dir [<-|[]]. reflexivity.
Defined.

Lemma missing_defaults_ignored_witness :
  updateWithConfigsFromPath (read_defaults 1 defaults_class)
    {| config := Config_empty; filesRead := [] |}
    [py "/env"; py "/pkg/config"] (py "nope.yaml")
  = Ok {| config := Config_empty; filesRead := [] |}.
Proof.
  apply missing_defaults_ignored.
  change (forall dir, In dir [py "/env"; py "/pkg/config"] ->
                      path_exists (path_join dir (py "nope.yaml")) = false).
  intros dir [<-|[<-|[]]]; reflexivity.
Defined.

Lemma validation_only_checks_witness :
  ConfigSubset_init 1 required_class (SMapping (_data xy_config)) false false []
  = Ok {| config := xy_config; filesRead := [] |}
  /\ dict_mem (_data xy_config) (KStr (py "y")) = true.
Proof.
  pose proof (validation_only_checks 1 required_class
                (SMapping (_data xy_config)) false []
                {| config := xy_config; filesRead := [] |} eq_refl) as [W R].
  split; [exact W|]. apply R. right. left. reflexivity.
Defined.

Lemma ConfigSubset_without_defaults_witness :
  ConfigSubset_init 2 required_class (SPath (py "/w/B.yaml")) false false []
  = Ok {| config := Config_with [(KStr (py "x"), VInt 1); (KStr (py "y"), VInt 2)];
          filesRead := [] |}.
Proof.
  refine (proj1 (ConfigSubset_without_defaults 1 required_class
                   (SPath (py "/w/B.yaml")) [] fileB_config
                   eq_refl eq_refl _)).
  unique_keys_tac.
Defined.

Lemma select_component_subset_witness :
  select_component datastore_class doubled_config
  = Ok {| _data := [(KStr (py "root"), VStr (py "/inner"))];
          _D := Config_D; configFile := None |}.
Proof.
  refine (proj1 (select_component_subset datastore_class
                   (KStr (py "datastore")) doubled_config
                   [(KStr (py "root"), VStr (py "/r"));
                    (KStr (py "datastore"),
                     VDict [(KStr (py "root"), VStr (py "/inner"))])]
                   eq_refl eq_refl _)
            [(KStr (py "root"), VStr (py "/inner"))] eq_refl).
  unique_keys_tac.
Defined.

Lemma setitem_drops_path_after_list_witness :
  setitem list_config
    (NTuple [KStr (py "x.y"); KInt 5; KStr (py "q"); KInt 0]) (IVal (VInt 7))
  = setitem list_config (NTuple [KStr (py "x.y"); KInt 0]) (IVal (VInt 7))
  /\ setitem list_config (NTuple [KStr (py "x.y"); KInt 0]) (IVal (VInt 7))
     = Ok (Config_with [(KStr (py "x.y"), VList [VInt 7; VInt 20])]).
Proof.
  split; [|reflexivity].
  exact (setitem_drops_path_after_list list_config [KStr (py "x.y")]
           [VInt 10; VInt 20] (KInt 5) [KStr (py "q")] (KInt 0) (IVal (VInt 7))
           eq_refl eq_refl).
Defined.

Lemma Config_eq_laws_witness :
  Config_eq xy_config (IConfig yx_config) = true
  /\ Config_eq xy_config (IConfig yx_config)
     = Config_eq yx_config (IConfig xy_config).
Proof.
  assert (unique_keys (VDict (_data xy_config))) as Ua by unique_keys_tac.
  assert (unique_keys (VDict (_data yx_config))) as Ub by unique_keys_tac.
  pose proof (Config_eq_laws xy_config yx_config Ua Ub)
    as (_ & _ & P & Sy & _).
  split; [|exact Sy].
  apply P. apply perm_swap.
Defined.

Lemma advance_least_witness : advance 8594%N = Ok 8595%N.
Proof.
  apply (proj1 (advance_least 8594%N)).
  split; [lia|]. split; [reflexivity|]. intros x X. lia.
Defined.

Lemma asArray_cases_witness :
  asArray list_config (NKey (KStr (py "x.y"))) = Ok [IVal (VInt 10); IVal (VInt 20)]
  /\ asArray list_config (NKey (KStr (py "z"))) = Ok [IVal VNone].
Proof.
  split.
  - exact (proj1 (proj2 (proj2 (asArray_cases list_config
                                  (NKey (KStr (py "x.y"))))))
             [VInt 10; VInt 20] eq_refl).
  - exact (proj1 (proj2 (asArray_cases list_config (NKey (KStr (py "z")))))
             eq_refl).
Defined.

Lemma list_item_deletion_witness :
  (exists c',
     delitem list_config (NTuple [KStr (py "x.y"); KInt 1]) = Ok c' /\
     node_at (VDict (_data c')) [KStr (py "x.y")] = Ok (VList [VInt 10]) /\
     _D c' = Config_D /\ configFile c' = None)
  /\ (exists c',
        delitem list_config (NTuple [KStr (py "x.y"); KInt (-2)]) = Ok c' /\
        node_at (VDict (_data c')) [KStr (py "x.y")] = Ok (VList [VInt 20]) /\
        _D c' = Config_D /\ configFile c' = None)
  /\ delitem list_config (NTuple [KStr (py "x.y"); KInt 2]) = Err IndexError
  /\ delitem list_config (NTuple [KStr (py "x.y"); KStr (py "0")])
     = Err TypeError.
Proof.
  split; [|split; [|split]].
  - exact (proj2 (list_item_deletion list_config [KStr (py "x.y")]
                    [VInt 10; VInt 20] 1 eq_refl)).
  - exact (proj2 (list_item_deletion list_config [KStr (py "x.y")]
                    [VInt 10; VInt 20] (-2) eq_refl)).
  - exact (proj2 (list_item_deletion list_config [KStr (py "x.y")]
                    [VInt 10; VInt 20] 2 eq_refl)).
  - exact (proj1 (list_item_deletion list_config [KStr (py "x.y")]
                    [VInt 10; VInt 20] 0 eq_refl) (py "0")).
Defined.
